(** * Wordsearch Creator: the grid placement engine of [assets/app.js]

    A shallow embedding of [generateWordsearch] and of the closures it
    declares ([hasAdjacentOccupied], [canPlace], [doPlace]), of the
    input helpers ([cleanWord], [getWordsFromForm], [validate]) and of
    the grid loops of [render], followed by the properties of the
    generator that the specification states and by further properties
    of the code.

    Conventions of the embedding.
    - JS numbers that index arrays are integers here ([Z]); the grid
      dimension [size] of the generator is an integer.  The [size] that
      [validate] receives is the result of [parseInt] and may be [NaN]
      or an infinity: there it is a [number].
    - A JS array is a [list]; [grid[y][x]] is row [y], column [x].
    - Reading a row outside the outer array yields [undefined] in JS and
      the following column access raises a TypeError; a column outside
      a row reads [undefined] or, on a write, grows the row.  The model
      stops with [Throw] at the first index outside an array, so that a
      run ending in [Ok] has touched no index outside the arrays.
    - [Math.random()] is a stream of draws, each a rational of [0,1);
      [randInt] multiplies and floors exactly.  A double may round the
      product, but the floor stays in the range of [randInt(n)], where
      it is the exact result for another draw: every run of the code
      is the run of the model on some stream.
    - The caller's [words] array lives in a heap of string arrays, since
      [Array.prototype.sort] sorts its receiver in place. *)

From Stdlib Require Import ZArith Ascii String List Lia Wf_nat.
From stdpp Require Import base tactics option list sorting gmap strings.

Local Open Scope Z_scope.

(** ** Outcomes: a value, or the first fault of the run *)

Inductive error := TypeError | OutOfBounds.

Inductive outcome (A : Type) :=
  | Ok (a : A)
  | Throw (e : error).
Arguments Ok {A} a.
Arguments Throw {A} e.

#[global] Instance outcome_ret : MRet outcome := fun A a => Ok a.
#[global] Instance outcome_bind : MBind outcome := fun A B f m =>
  match m with
  | Ok a => f a
  | Throw e => Throw e
  end.

(** ** The random source *)

(** One result of [Math.random()]: the rational
    [d_num / (d_num + d_gap)], which ranges over the rationals of [0,1). *)
Record draw := Draw { d_num : N; d_gap : positive }.

(** [randInt(n)]: [Math.floor(Math.random() * n)], on the draw [r]. *)
Definition randInt (r : draw) (n : Z) : Z :=
  (Z.of_N (d_num r) * n) `div` (Z.of_N (d_num r) + Z.pos (d_gap r)).

(** [choice(arr)]: [arr[randInt(arr.length)]]. *)
Definition zlookup {A} (l : list A) (i : Z) : option A :=
  if bool_decide (0 ≤ i) then l !! Z.to_nat i else None.

Definition choice {A} (arr : list A) (r : draw) : option A :=
  zlookup arr (randInt r (Z.of_nat (length arr))).

(** ** Matrices (arrays of rows) *)

Definition mread {A} (m : list (list A)) (x y : Z) : outcome A :=
  match zlookup m y with
  | None => Throw TypeError
  | Some row =>
      match zlookup row x with
      | None => Throw OutOfBounds
      | Some v => Ok v
      end
  end.

Definition mwrite {A} (m : list (list A)) (x y : Z) (v : A)
  : outcome (list (list A)) :=
  match zlookup m y with
  | None => Throw TypeError
  | Some row =>
      match zlookup row x with
      | None => Throw OutOfBounds
      | Some _ => Ok (<[Z.to_nat y := <[Z.to_nat x := v]> row]> m)
      end
  end.

(** [Array.from({ length: size }, () => Array.from({ length: size }, () => v))] *)
Definition fresh_matrix {A} (size : Z) (v : A) : list (list A) :=
  replicate (Z.to_nat size) (replicate (Z.to_nat size) v).

(** ** Data of the generator *)

Record Direction := Dir { dx : Z; dy : Z }.

Record Placement := { word : string; cells : list (Z * Z) }.

Record GenerationResult := {
  res_grid : list (list (option ascii));
  res_mark : list (list bool);
  res_placements : list Placement;
  res_failed : list string
}.

(** The variables of the closure, and the number of draws consumed. *)
Record state := State {
  grid : list (list (option ascii));
  mark : list (list bool);
  owner : list (list (option Z));
  placements : list Placement;
  failed : list string;
  drawn : nat
}.

Definition set_grid (st : state) g :=
  State g (mark st) (owner st) (placements st) (failed st) (drawn st).
Definition set_mark (st : state) m :=
  State (grid st) m (owner st) (placements st) (failed st) (drawn st).
Definition set_owner (st : state) o :=
  State (grid st) (mark st) o (placements st) (failed st) (drawn st).
Definition push_placement (st : state) p :=
  State (grid st) (mark st) (owner st) (placements st ++ [p]) (failed st) (drawn st).
Definition push_failed (st : state) w :=
  State (grid st) (mark st) (owner st) (placements st) (failed st ++ [w]) (drawn st).
Definition tick (st : state) :=
  State (grid st) (mark st) (owner st) (placements st) (failed st) (S (drawn st)).

Definition dirs4 : list Direction :=
  [Dir 1 0; Dir (-1) 0; Dir 0 1; Dir 0 (-1)].
Definition dirs8 : list Direction :=
  dirs4 ++ [Dir 1 1; Dir (-1) (-1); Dir 1 (-1); Dir (-1) 1].
Definition dirs (allowDiagonals : bool) : list Direction :=
  if allowDiagonals then dirs8 else dirs4.

(** The letters [word[0]], [word[1]], ... of a word. *)
Definition letters (w : string) : list ascii := list_ascii_of_string w.

Definition alphabet : list ascii :=
  letters "ABCDEFGHIJKLMNOPQRSTUVWXYZ".

Definition attempts : nat := 2000.

(** ** [Array.prototype.sort] with a comparator

    The sort of ECMAScript is stable; for a comparator that is a total
    preorder its result is the one of any stable sort.  [x] stays in
    front of [y] when [cmp x y <= 0]. *)
Section Sort.
Context {A : Type} (cmp : A → A → Z).

Fixpoint sort_insert (x : A) (l : list A) : list A :=
  match l with
  | [] => [x]
  | y :: l' => if bool_decide (cmp x y ≤ 0) then x :: y :: l'
               else y :: sort_insert x l'
  end.

Definition js_sort (l : list A) : list A := foldr sort_insert [] l.
End Sort.

(** [(a, b) => b.length - a.length] *)
Definition by_length_desc (a b : string) : Z :=
  Z.of_nat (String.length b) - Z.of_nat (String.length a).

(** ** The closures of [generateWordsearch] *)

Section Closure.
Variable size : Z.
Variable rng : nat → draw.

Definition out_of_grid (xx yy : Z) : bool :=
  bool_decide (xx < 0) || bool_decide (size ≤ xx)
  || bool_decide (yy < 0) || bool_decide (size ≤ yy).

(** The cells visited by the two nested loops of
    [hasAdjacentOccupied], in the order of the visit. *)
Definition window (xx yy : Z) : list (Z * Z) :=
  ny ← [yy - 1; yy; yy + 1]; nx ← [xx - 1; xx; xx + 1]; [(nx, ny)].

Fixpoint scan (g : list (list (option ascii))) (xx yy : Z)
    (ns : list (Z * Z)) : outcome bool :=
  match ns with
  | [] => Ok false
  | (nx, ny) :: ns' =>
      if bool_decide (nx = xx) && bool_decide (ny = yy) then scan g xx yy ns'
      else if out_of_grid nx ny then scan g xx yy ns'
      else
        v ← mread g nx ny;
        match v with
        | Some _ => Ok true
        | None => scan g xx yy ns'
        end
  end.

Definition hasAdjacentOccupied (g : list (list (option ascii)))
    (xx yy : Z) : outcome bool :=
  scan g xx yy (window xx yy).

(** The loop of [canPlace] from index [i] on; [w] holds the letters
    [word[i]], [word[i+1]], ... *)
Fixpoint canPlace_from (g : list (list (option ascii))) (w : list ascii)
    (x y dx dy : Z) (i : Z) : outcome bool :=
  match w with
  | [] => Ok true
  | c :: w' =>
      let xx := x + dx * i in
      let yy := y + dy * i in
      if out_of_grid xx yy then Ok false
      else
        existing ← mread g xx yy;
        match existing with
        | Some e =>
            if bool_decide (e ≠ c) then Ok false
            else canPlace_from g w' x y dx dy (i + 1)
        | None =>
            adj ← hasAdjacentOccupied g xx yy;
            if adj : bool then Ok false
            else canPlace_from g w' x y dx dy (i + 1)
        end
  end.

Definition canPlace (st : state) (w : string) (x y dx dy : Z)
    (wordIndex : Z) : outcome bool :=
  canPlace_from (grid st) (letters w) x y dx dy 0.

(** The loop of [doPlace] from index [i] on; [cs] is the array
    [cells] built so far. *)
Fixpoint doPlace_from (w : list ascii) (x y dx dy : Z) (wordIndex : Z)
    (i : Z) (cs : list (Z * Z)) (st : state) : outcome (list (Z * Z) * state) :=
  match w with
  | [] => Ok (cs, st)
  | c :: w' =>
      let xx := x + dx * i in
      let yy := y + dy * i in
      g ← mwrite (grid st) xx yy (Some c);
      m ← mwrite (mark st) xx yy true;
      o ← mread (owner st) xx yy;
      ow ← match o with
           | None => mwrite (owner st) xx yy (Some wordIndex)
           | Some _ => Ok (owner st)
           end;
      doPlace_from w' x y dx dy wordIndex (i + 1) (cs ++ [(xx, yy)])
        (set_owner (set_mark (set_grid st g) m) ow)
  end.

Definition doPlace (st : state) (w : string) (x y dx dy : Z)
    (wordIndex : Z) : outcome state :=
  '(cs, st') ← doPlace_from (letters w) x y dx dy wordIndex 0 [] st;
  Ok (push_placement st' {| word := w; cells := cs |}).

(** [Math.random()]: the next draw of the stream. *)
Definition random (st : state) : draw * state := (rng (drawn st), tick st).

(** One iteration of the loop over [a]: the flag tells whether the
    word was placed (the [break]). *)
Definition trial (ds : list Direction) (w : string) (wi : Z)
    (st : state) : outcome (bool * state) :=
  let len := Z.of_nat (String.length w) in
  let '(r, st) := random st in
  match choice ds r with
  | None => Throw TypeError
  | Some dir =>
      let xMin := if bool_decide (dx dir = -1) then len - 1 else 0 in
      let xMax := if bool_decide (dx dir = 1) then size - len else size - 1 in
      let yMin := if bool_decide (dy dir = -1) then len - 1 else 0 in
      let yMax := if bool_decide (dy dir = 1) then size - len else size - 1 in
      let '(rx, st) := random st in
      let x := randInt rx (xMax - xMin + 1) + xMin in
      let '(ry, st) := random st in
      let y := randInt ry (yMax - yMin + 1) + yMin in
      ok ← canPlace st w x y (dx dir) (dy dir) wi;
      if ok : bool then
        st' ← doPlace st w x y (dx dir) (dy dir) wi;
        Ok (true, st')
      else Ok (false, st)
  end.

(** The loop [for (let a = 0; a < attempts; a++)], [n] iterations
    remaining. *)
Fixpoint tryPlace (n : nat) (ds : list Direction) (w : string) (wi : Z)
    (st : state) : outcome (bool * state) :=
  match n with
  | O => Ok (false, st)
  | S n' =>
      '(placed, st') ← trial ds w wi st;
      if placed : bool then Ok (true, st')
      else tryPlace n' ds w wi st'
  end.

(** The loop [for (let wi = 0; wi < sorted.length; wi++)] over the
    remaining words [ws] of [sorted]. *)
Fixpoint placeWords (ds : list Direction) (ws : list string) (wi : Z)
    (st : state) : outcome state :=
  match ws with
  | [] => Ok st
  | w :: ws' =>
      '(placed, st') ← tryPlace attempts ds w wi st;
      placeWords ds ws' (wi + 1)
        (if placed : bool then st' else push_failed st' w)
  end.

(** The body of the backfill loops at cell [(x, y)]. *)
Definition fillCell (x y : Z) (st : state) : outcome state :=
  v ← mread (grid st) x y;
  match v with
  | Some _ => Ok st
  | None =>
      let '(r, st) := random st in
      match choice alphabet r with
      | None => Throw OutOfBounds
      | Some c =>
          g ← mwrite (grid st) x y (Some c);
          Ok (set_grid st g)
      end
  end.

Fixpoint fillRow (y : Z) (xs : list Z) (st : state) : outcome state :=
  match xs with
  | [] => Ok st
  | x :: xs' => st' ← fillCell x y st; fillRow y xs' st'
  end.

Fixpoint fillRows (ys : list Z) (st : state) : outcome state :=
  match ys with
  | [] => Ok st
  | y :: ys' => st' ← fillRow y (seqZ 0 size) st; fillRows ys' st'
  end.

Definition fillBlanks (st : state) : outcome state :=
  fillRows (seqZ 0 size) st.

Definition init : state :=
  {| grid := fresh_matrix size None;
     mark := fresh_matrix size false;
     owner := fresh_matrix size None;
     placements := [];
     failed := [];
     drawn := 0%nat |}.
End Closure.

(** ** The heap of string arrays and [generateWordsearch] *)

Definition loc := nat.
Abbreviation heap := (gmap loc (list string)).

(** [[...words]]: a fresh array holding the elements of [words]. *)
Definition spread (h : heap) (l : loc) : outcome (loc * heap) :=
  match h !! l with
  | None => Throw TypeError
  | Some ws => let l' := fresh (dom h) in Ok (l', <[l' := ws]> h)
  end.

(** [arr.sort(cmp)]: sorts the array at [l] in place. *)
Definition sort_in_place (cmp : string → string → Z) (h : heap) (l : loc)
  : outcome heap :=
  match h !! l with
  | None => Throw TypeError
  | Some ws => Ok (<[l := js_sort cmp ws]> h)
  end.

Definition read_array (h : heap) (l : loc) : outcome (list string) :=
  match h !! l with
  | None => Throw TypeError
  | Some ws => Ok ws
  end.

Definition generateWordsearch (rng : nat → draw) (h : heap) (words : loc)
    (size : Z) (allowDiagonals : bool) : outcome (GenerationResult * heap) :=
  let st := init size in
  let ds := dirs allowDiagonals in
  '(sorted, h) ← spread h words;
  h ← sort_in_place by_length_desc h sorted;
  ws ← read_array h sorted;
  st ← placeWords size rng ds ws 0 st;
  st ← fillBlanks size rng st;
  Ok ({| res_grid := grid st; res_mark := mark st;
         res_placements := placements st; res_failed := failed st |}, h).

(** The heap of a caller that holds the single array [ws], at location 0. *)
Definition caller_heap (ws : list string) : heap := {[ 0%nat := ws ]}.

(** ** Input collection: [cleanWord] and [getWordsFromForm]

    A code unit of a string is an [ascii] here: the strings modelled
    are those whose code units are below 256 (the Latin-1 block). *)

(** [String.prototype.toUpperCase] on one code unit below 256: the code
    units of its upper-case form.  The letters a-z and the accented
    small letters move down by 32; the micro sign and the y with
    diaeresis leave the block; the sharp s becomes SS. *)
Definition upper_units (a : ascii) : list N :=
  let n := N_of_ascii a in
  if bool_decide (97 ≤ n ≤ 122)%N then [n - 32]%N
  else if bool_decide (n = 181)%N then [924]%N
  else if bool_decide (n = 223)%N then [83; 83]%N
  else if bool_decide (224 ≤ n ≤ 254 ∧ n ≠ 247)%N then [n - 32]%N
  else if bool_decide (n = 255)%N then [376]%N
  else [n].

Definition toUpperCase (w : string) : list N := letters w ≫= upper_units.

(** [.replace(/[^A-Z]/g, "")]: the code units of A-Z remain. *)
Definition keep_A_Z (us : list N) : string :=
  string_of_list_ascii (ascii_of_N <$> filter (λ u, 65 ≤ u ≤ 90)%N us).

(** [cleanWord(w)]; [None] stands for [undefined] or [null]. *)
Definition cleanWord (w : option string) : string :=
  keep_A_Z (toUpperCase (default EmptyString w)).

Definition LF : ascii := ascii_of_N 10.
Definition CR : ascii := ascii_of_N 13.

(** [.split(/\r?\n/)] on the code units [s]; [cur] holds the code
    units since the last separator. *)
Fixpoint split_units (s : list ascii) (cur : list ascii)
  : list (list ascii) :=
  match s with
  | [] => [cur]
  | c :: rest =>
      if bool_decide (c = LF) then cur :: split_units rest []
      else if bool_decide (c = CR) then
        match rest with
        | c' :: rest' =>
            if bool_decide (c' = LF) then cur :: split_units rest' []
            else split_units rest (cur ++ [c])
        | [] => split_units rest (cur ++ [c])
        end
      else split_units rest (cur ++ [c])
  end.

Definition split_lines (value : string) : list string :=
  string_of_list_ascii <$> split_units (letters value) [].

(** The white space and line terminators of ECMAScript below 256. *)
Definition is_space (a : ascii) : Prop :=
  N_of_ascii a ∈ [9; 10; 11; 12; 13; 32; 160]%N.

#[global] Instance is_space_dec a : Decision (is_space a).
Proof. unfold is_space. apply _. Defined.

Fixpoint trim_start (s : list ascii) : list ascii :=
  match s with
  | [] => []
  | c :: rest => if bool_decide (is_space c) then trim_start rest else s
  end.

(** [String.prototype.trim] *)
Definition trim (s : string) : string :=
  string_of_list_ascii
    (reverse (trim_start (reverse (trim_start (letters s))))).

(** [.filter(Boolean)] on strings: the non-empty ones remain. *)
Definition filter_Boolean (l : list string) : list string :=
  filter (λ s, s ≠ EmptyString) l.

(** The loop [for (const w of cleaned)] with the set [seen] and the
    array [unique]. *)
Fixpoint unique_loop (cleaned : list string) (seen : gset string)
    (unique : list string) : list string :=
  match cleaned with
  | [] => unique
  | w :: rest =>
      if bool_decide (w ∉ seen)
      then unique_loop rest ({[ w ]} ∪ seen) (unique ++ [w])
      else unique_loop rest seen unique
  end.

(** [getWordsFromForm()], on the value of the text area. *)
Definition getWordsFromForm (value : string) : list string :=
  let rawLines := filter_Boolean (trim <$> split_lines value) in
  let cleaned := filter_Boolean ((λ s, cleanWord (Some s)) <$> rawLines) in
  unique_loop cleaned ∅ [].

(** [arr.join(sep)] *)
Fixpoint join (sep : string) (arr : list string) : string :=
  match arr with
  | [] => EmptyString
  | [w] => w
  | w :: rest => String.append w (String.append sep (join sep rest))
  end.

(** ** Validation: [requiredWordCount] and [validate] *)

(** [requiredWordCount()], on the value of the difficulty selector;
    [None] when the page has no such element. *)
Definition requiredWordCount (difficulty : option string) : Z :=
  match difficulty with
  | None => 10
  | Some v => if bool_decide (v = "medium"%string) then 15 else 10
  end.

(** [arr.find(p)] *)
Fixpoint find {A} (p : A → bool) (arr : list A) : option A :=
  match arr with
  | [] => None
  | x :: rest => if p x then Some x else find p rest
  end.

(** The [size] that [build] hands to [validate] is
    [parseInt(sizeEl.value, 10)]: an integer, [NaN] when the text does
    not begin with a digit, or an infinity when the digits exceed the
    range of the doubles. *)
Inductive number :=
  | Finite (n : Z)
  | NaN
  | PosInfinity
  | NegInfinity.

(** [a > b] for an integer [a]; every comparison with [NaN] is false. *)
Definition gt_number (a : Z) (b : number) : bool :=
  match b with
  | Finite n => bool_decide (n < a)
  | NaN => false
  | PosInfinity => false
  | NegInfinity => true
  end.

(** The messages of [validate], in the order of the source:
    "Please enter N words (one per line).",
    "Please enter exactly N words (remove extras).",
    "W is longer than the grid (S). Increase grid size or shorten the
    word." and "Each word must be at least 2 letters." *)
Inductive message :=
  | please_enter (required : Z)
  | remove_extras (required : Z)
  | longer_than_grid (tooLong : string) (size : number)
  | at_least_2_letters.

(** A string is truthy when it is not empty. *)
Definition truthy (s : string) : bool := bool_decide (s ≠ EmptyString).

(** [validate(words, size)]; [None] is [null]. *)
Definition validate (difficulty : option string) (words : list string)
    (size : number) : option message :=
  let required := requiredWordCount difficulty in
  if bool_decide (Z.of_nat (length words) < required)
  then Some (please_enter required)
  else if bool_decide (required < Z.of_nat (length words))
  then Some (remove_extras required)
  else
    let anyShort := find (λ w, bool_decide (String.length w < 2)%nat) words in
    let short_check :=
      match anyShort with
      | Some w => if truthy w then Some at_least_2_letters else None
      | None => None
      end in
    match find (λ w, gt_number (Z.of_nat (String.length w)) size) words with
    | Some tooLong =>
        if truthy tooLong then Some (longer_than_grid tooLong size)
        else short_check
    | None => short_check
    end.

(** ** The grid of [render]

    The loops of [render] over the cells of the result: the text and
    the highlight of the elements appended to the grid element, in the
    order in which they are appended (the text content of an element
    is its letter; [true] stands for the class [mark]). *)
Fixpoint render_row (result : GenerationResult) (y : Z) (xs : list Z)
  : outcome (list (option ascii * bool)) :=
  match xs with
  | [] => Ok []
  | x :: xs' =>
      textContent ← mread (res_grid result) x y;
      marked ← mread (res_mark result) x y;
      rest ← render_row result y xs';
      Ok ((textContent, marked) :: rest)
  end.

Fixpoint render_rows (result : GenerationResult) (size : Z) (ys : list Z)
  : outcome (list (option ascii * bool)) :=
  match ys with
  | [] => Ok []
  | y :: ys' =>
      row ← render_row result y (seqZ 0 size);
      rest ← render_rows result size ys';
      Ok (row ++ rest)
  end.

Definition render_grid (result : GenerationResult)
  : outcome (list (option ascii * bool)) :=
  let size := Z.of_nat (length (res_grid result)) in
  render_rows result size (seqZ 0 size).

(** * Notions of the specification *)

(** ** Cells, lines and feasibility *)

(** The cells of the [size] by [size] grid. *)
Definition in_grid (size : Z) (p : Z * Z) : Prop :=
  0 ≤ p.1 < size ∧ 0 ≤ p.2 < size.

(** What a matrix holds at a cell, [None] outside the matrix. *)
Definition cell_at {A} (m : list (list A)) (p : Z * Z) : option A :=
  match zlookup m p.2 with
  | None => None
  | Some row => zlookup row p.1
  end.

(** A [size] by [size] matrix. *)
Definition dims {A} (size : Z) (m : list (list A)) : Prop :=
  length m = Z.to_nat size ∧ Forall (λ row, length row = Z.to_nat size) m.

(** The grid holds a letter at the cell. *)
Definition occupied (g : list (list (option ascii))) (p : Z * Z) : Prop :=
  ∃ a, cell_at g p = Some (Some a).

#[global] Instance occupied_dec g p : Decision (occupied g p).
Proof.
  unfold occupied. destruct (cell_at g p) as [[a|]|].
  - left. by exists a.
  - right. by intros [a Ha].
  - right. by intros [a Ha].
Defined.

(** Two different cells that touch by a side or by a corner. *)
Definition adjacent8 (p q : Z * Z) : Prop :=
  p ≠ q ∧ Z.abs (p.1 - q.1) ≤ 1 ∧ Z.abs (p.2 - q.2) ≤ 1.

(** The cell of index [i] on the line from [(x, y)] in direction
    [(dx, dy)]. *)
Definition pos (x y dx dy i : Z) : Z * Z := (x + dx * i, y + dy * i).

(** The cells of indices [i], ..., [i + n - 1] on that line. *)
Fixpoint line (x y dx dy i : Z) (n : nat) : list (Z * Z) :=
  match n with
  | O => []
  | S n' => pos x y dx dy i :: line x y dx dy (i + 1) n'
  end.

(** What [canPlace] demands of the cell that receives the letter [c]. *)
Definition cell_ok (g : list (list (option ascii))) (c : ascii)
    (p : Z * Z) : Prop :=
  cell_at g p = Some (Some c) ∨
  (cell_at g p = Some None ∧ ∀ n, adjacent8 n p → ¬ occupied g n).

(** What [canPlace] demands of the line that receives the letters [w]
    from index [i] on. *)
Definition fits (g : list (list (option ascii))) (w : list ascii)
    (x y dx dy i : Z) : Prop :=
  ∀ k c, w !! k = Some c → cell_ok g c (pos x y dx dy (i + Z.of_nat k)).

(** ** States of the closure *)

(** The three matrices are [size] by [size]. *)
Definition board_ok (size : Z) (st : state) : Prop :=
  dims size (grid st) ∧ dims size (mark st) ∧ dims size (owner st).

(** The variables of the closure agree (the draws consumed may differ). *)
Definition same_vars (st st' : state) : Prop :=
  grid st' = grid st ∧ mark st' = mark st ∧ owner st' = owner st ∧
  placements st' = placements st ∧ failed st' = failed st.

(** [st'] results from [st] by the commit of [w] on the line from
    [(x, y)] in direction [(dx, dy)], all of whose cells were feasible. *)
Record commit (size : Z) (st st' : state) (w : string) (x y dx dy : Z)
  : Prop := {
  c_fits : fits (grid st) (letters w) x y dx dy 0;
  c_board : board_ok size st';
  c_placements :
    placements st' = placements st ++
      [{| word := w; cells := line x y dx dy 0 (String.length w) |}];
  c_failed : failed st' = failed st;
  c_outside : ∀ p, p ∉ line x y dx dy 0 (String.length w) →
    cell_at (grid st') p = cell_at (grid st) p ∧
    cell_at (mark st') p = cell_at (mark st) p;
  c_letters : ∀ k c, letters w !! k = Some c →
    cell_at (grid st') (pos x y dx dy (Z.of_nat k)) = Some (Some c);
  c_marks : ∀ p, p ∈ line x y dx dy 0 (String.length w) →
    cell_at (mark st') p = Some true
}.

(** The placement lies on a straight line in one of the directions and
    the grid spells its word there. *)
Definition spelled (ds : list Direction) (g : list (list (option ascii)))
    (P : Placement) : Prop :=
  ∃ x y d, d ∈ ds ∧
    cells P = line x y (dx d) (dy d) 0 (String.length (word P)) ∧
    ∀ k c, letters (word P) !! k = Some c →
      cell_at g (pos x y (dx d) (dy d) (Z.of_nat k)) = Some (Some c).

(** The cell lies in the coordinate list of one of the placements. *)
Definition covered (pl : list Placement) (p : Z * Z) : Prop :=
  ∃ P, P ∈ pl ∧ p ∈ cells P.

Record Inv (size : Z) (ds : list Direction) (st : state) : Prop := {
  inv_board : board_ok size st;
  inv_grid : ∀ p, occupied (grid st) p ↔ covered (placements st) p;
  inv_mark : ∀ p, cell_at (mark st) p = Some true ↔ covered (placements st) p;
  inv_spell : ∀ P, P ∈ placements st → spelled ds (grid st) P;
  (** a cell first claimed by the placement [Q] has all its occupied
      neighbours inside [Q] *)
  inv_space : ∀ j Q q, placements st !! j = Some Q → q ∈ cells Q →
    (∀ i P, (i < j)%nat → placements st !! i = Some P → q ∉ cells P) →
    ∀ n, adjacent8 n q → occupied (grid st) n → n ∈ cells Q
}.

(** A step of one cell, along a row, a column or a diagonal. *)
Definition unit_dir (d : Direction) : Prop :=
  (dx d ≠ 0 ∨ dy d ≠ 0) ∧ Z.abs (dx d) ≤ 1 ∧ Z.abs (dy d) ≤ 1.

(** [l] interleaves [l1] and [l2], keeping the order of each. *)
Inductive merge {A} : list A → list A → list A → Prop :=
  | merge_nil : merge [] [] []
  | merge_l x l1 l2 l : merge l1 l2 l → merge (x :: l1) l2 (x :: l)
  | merge_r x l1 l2 l : merge l1 l2 l → merge l1 (x :: l2) (x :: l).

(** [a] is [alphabet[randInt(alphabet.length)]] for one of the draws. *)
Definition random_letter (rng : nat → draw) (a : ascii) : Prop :=
  ∃ k, choice alphabet (rng k) = Some a.

(** [st'] results from [st] by filling blanks, among them all the
    blank cells of [l]; nothing else changes. *)
Record filled (rng : nat → draw) (size : Z) (l : list (Z * Z))
    (st st' : state) : Prop := {
  f_grid : dims size (grid st');
  f_mark : mark st' = mark st;
  f_placements : placements st' = placements st;
  f_failed : failed st' = failed st;
  f_keep : ∀ p a, cell_at (grid st) p = Some (Some a) →
    cell_at (grid st') p = Some (Some a);
  f_blank : ∀ p, cell_at (grid st) p = Some None →
    (cell_at (grid st') p = Some None ∨
     ∃ a, random_letter rng a ∧ cell_at (grid st') p = Some (Some a)) ∧
    (p ∈ l → ∃ a, random_letter rng a ∧ cell_at (grid st') p = Some (Some a))
}.

(** The cells of the grid, in the order of the backfill. *)
Definition all_cells (size : Z) : list (Z * Z) :=
  y ← seqZ 0 size; (λ x, (x, y)) <$> seqZ 0 size.

(** [a] is at least as long as [b]. *)
Definition longer_eq (a b : string) : Prop :=
  (String.length b ≤ String.length a)%nat.

Definition result_of (st : state) : GenerationResult :=
  {| res_grid := grid st; res_mark := mark st;
     res_placements := placements st; res_failed := failed st |}.

Definition is_upper (a : ascii) : Prop := (65 ≤ nat_of_ascii a ≤ 90)%nat.

#[global] Instance is_upper_dec a : Decision (is_upper a).
Proof. unfold is_upper. apply _. Defined.

(** A non-empty sequence of distinct uppercase alphabetic words, each
    of length at least 2 and at most [size]. *)
Definition precondition (size : Z) (ws : list string) : Prop :=
  ws ≠ [] ∧ NoDup ws ∧
  Forall (λ w, Forall is_upper (letters w) ∧
               2 ≤ Z.of_nat (String.length w) ≤ size) ws.

#[global] Instance precondition_dec size ws : Decision (precondition size ws).
Proof. unfold precondition. apply _. Defined.

(** ** What the claims state of a result *)

(** The words of [placements] and those of [failed] partition [ws]:
    each word of [ws] once, in exactly one of the two. *)
Definition partitions (ws : list string) (res : GenerationResult) : Prop :=
  (word <$> res_placements res) ++ res_failed res ≡ₚ ws ∧
  NoDup ((word <$> res_placements res) ++ res_failed res) ∧
  ∀ w, w ∈ ws →
    (w ∈ (word <$> res_placements res) ∧ w ∉ res_failed res) ∨
    ((w ∉ (word <$> res_placements res)) ∧ w ∈ res_failed res).

(** The two words of scenario A. *)
Definition cat_dog : list string := ["CAT"; "DOG"]%string.

(** The stream whose draws are all 0. *)
Definition zeros : nat → draw := λ _, Draw 0 1.

(** The mask is true exactly at the cells of the placements. *)
Definition mask_is_cover (res : GenerationResult) : Prop :=
  ∀ p, cell_at (res_mark res) p = Some true ↔
       ∃ P, P ∈ res_placements res ∧ p ∈ cells P.

(** Two placements that share a cell have the same letter there. *)
Definition no_illegal_overlap (res : GenerationResult) : Prop :=
  ∀ P Q i j p,
    P ∈ res_placements res → Q ∈ res_placements res →
    cells P !! i = Some p → cells Q !! j = Some p →
    ∃ c, letters (word P) !! i = Some c ∧ letters (word Q) !! j = Some c.

(** A trial ends, and leaves every letter of the grid as it was: a
    write into an occupied cell writes the letter that is there. *)
Definition trial_keeps_letters (size : Z) (rng : nat → draw)
    (diag : bool) : Prop :=
  ∀ st w wi, board_ok size st →
    ∃ b st', trial size rng (dirs diag) w wi st = Ok (b, st') ∧
      ∀ p a, cell_at (grid st) p = Some (Some a) →
             cell_at (grid st') p = Some (Some a).

(** The entry [P] lies on a straight line of the grid [g], in one of
    the directions [ds], and [g] spells its word along it. *)
Definition spells (ds : list Direction) (g : list (list (option ascii)))
    (P : Placement) : Prop :=
  length (cells P) = String.length (word P) ∧
  ∃ x y d, d ∈ ds ∧ unit_dir d ∧
    (∀ i, (i < String.length (word P))%nat →
       cells P !! i = Some (x + dx d * Z.of_nat i, y + dy d * Z.of_nat i)) ∧
    (∀ i c, letters (word P) !! i = Some c →
       ∃ p, cells P !! i = Some p ∧ cell_at g p = Some (Some c)).

(** The backfill ends, and leaves every letter of the grid as it was. *)
Definition backfill_keeps_letters (size : Z) (rng : nat → draw) : Prop :=
  ∀ st, dims size (grid st) →
    ∃ st', fillBlanks size rng st = Ok st' ∧
      ∀ p a, cell_at (grid st) p = Some (Some a) →
             cell_at (grid st') p = Some (Some a).

(** The trials of a word end; when none succeeds the variables of the
    closure are as before. *)
Definition failure_changes_nothing (size : Z) (rng : nat → draw)
    (diag : bool) : Prop :=
  ∀ st w wi, board_ok size st →
    ∃ b st', tryPlace size rng attempts (dirs diag) w wi st = Ok (b, st') ∧
      (b = false → same_vars st st').

(** Among the words of each length, [l] keeps the order of [ws]. *)
Definition same_length_order (l ws : list string) : Prop :=
  ∀ n, filter (λ w, String.length w = n) l
       `sublist_of` filter (λ w, String.length w = n) ws.

(** [sorted] is the stable sort of [ws] by descending length, and the
    two lists of the result are what the loop over [sorted] leaves. *)
Record attempt_order (ws sorted : list string) (res : GenerationResult)
  : Prop := {
  ao_perm : sorted ≡ₚ ws;
  ao_desc : StronglySorted longer_eq sorted;
  ao_stable : ∀ n, filter (λ w, String.length w = n) sorted
                   = filter (λ w, String.length w = n) ws;
  ao_merge : merge (word <$> res_placements res) (res_failed res) sorted;
  ao_placements_desc : StronglySorted longer_eq (word <$> res_placements res);
  ao_failed_desc : StronglySorted longer_eq (res_failed res);
  ao_placements_stable : same_length_order (word <$> res_placements res) ws;
  ao_failed_stable : same_length_order (res_failed res) ws
}.

(** The feasibility check rejects [w] at every start, in every
    direction and in every state of the grid, without any fault. *)
Definition always_infeasible (size : Z) (diag : bool) (w : string) : Prop :=
  ∀ st x y d wi, dims size (grid st) → d ∈ dirs diag →
    canPlace size st w x y (dx d) (dy d) wi = Ok false.

(** The word of scenario B. *)
Definition ten_a : string := "AAAAAAAAAA".

(** Every cell of the grid holds one letter of A-Z. *)
Definition fully_lettered (size : Z) (res : GenerationResult) : Prop :=
  dims size (res_grid res) ∧
  ∀ p, in_grid size p →
    ∃ a, cell_at (res_grid res) p = Some (Some a) ∧ is_upper a.

(** Every cell outside the placements holds a letter drawn at random
    from the alphabet. *)
Definition blanks_backfilled (size : Z) (rng : nat → draw)
    (res : GenerationResult) : Prop :=
  ∀ p, in_grid size p →
    (¬ ∃ P, P ∈ res_placements res ∧ p ∈ cells P) →
    ∃ a, random_letter rng a ∧ cell_at (res_grid res) p = Some (Some a).

(** The claim in the words of the specification: of two entries, no
    cell that belongs to exactly one of the two touches such a cell of
    the other. *)
Definition pairwise_spacing (res : GenerationResult) : Prop :=
  ∀ i j P Q p q, i ≠ j →
    res_placements res !! i = Some P → res_placements res !! j = Some Q →
    p ∈ cells P → p ∉ cells Q → q ∈ cells Q → q ∉ cells P →
    ¬ adjacent8 p q.

(** [q] is a cell of no entry before the one of index [j]: this entry
    has claimed it first, on an empty cell, and has not been laid there
    over the letter of an earlier entry. *)
Definition first_claimed (pl : list Placement) (j : nat) (q : Z * Z) : Prop :=
  ∀ k R, (k < j)%nat → pl !! k = Some R → q ∉ cells R.

(** A cell that the entry [Q] has claimed first touches no cell of an
    entry [P] outside [Q]; and two cells of the placements that touch
    lie in one entry, the one that has claimed the second cell first. *)
Definition spacing (res : GenerationResult) : Prop :=
  (∀ i j P Q p q,
     res_placements res !! i = Some P → res_placements res !! j = Some Q →
     p ∈ cells P → p ∉ cells Q → q ∈ cells Q →
     first_claimed (res_placements res) j q →
     ¬ adjacent8 p q) ∧
  (∀ i j P Q p q,
     res_placements res !! i = Some P → res_placements res !! j = Some Q →
     p ∈ cells P → q ∈ cells Q → adjacent8 p q →
     ∃ k R, (k ≤ j)%nat ∧ res_placements res !! k = Some R ∧
       first_claimed (res_placements res) k q ∧
       p ∈ cells R ∧ q ∈ cells R).

(** The draws that lay ABCD on the first row, AB on its first two
    cells and CD on its last two. *)
Definition touching_draws (k : nat) : draw :=
  if bool_decide (k = 7%nat) then Draw 3 1 else Draw 0 1.

Definition touching_words : list string := ["AB"; "ABCD"; "CD"]%string.

(** The same draws and words with a fourth word, EF, which the draws
    lay on the third row, apart from the others. *)
Definition spaced_draws (k : nat) : draw :=
  if bool_decide (k = 7%nat) then Draw 3 1
  else if bool_decide (k = 11%nat) then Draw 1 1 else Draw 0 1.

Definition spaced_words : list string := ["AB"; "ABCD"; "CD"; "EF"]%string.

(** The number of cells at which the mask is true. *)
Definition mask_count (size : Z) (m : list (list bool)) : nat :=
  length (filter (λ p, cell_at m p = Some true) (all_cells size)).

(** No cell of the grid is left null. *)
Definition populated (size : Z) (res : GenerationResult) : Prop :=
  ∀ p, in_grid size p → ∃ a, cell_at (res_grid res) p = Some (Some a).

(** The claim in the words of the specification, for the random
    sequence [rng]. *)
Definition scenario_A (rng : nat → draw) : Prop :=
  ∃ res h', generateWordsearch rng (caller_heap cat_dog) 0%nat 10 false
              = Ok (res, h') ∧
    "CAT"%string ∈ (word <$> res_placements res) ∧
    "DOG"%string ∈ (word <$> res_placements res) ∧
    res_failed res = [] ∧
    populated 10 res ∧
    mask_count 10 (res_mark res) = 6%nat.

(** The line that the trial beginning at the draw of index [n] draws
    for a word of [len] letters, as the body of the loop over the
    attempts computes it: the direction from the first draw, then [x]
    and [y] from the next two, within [xMin..xMax] and [yMin..yMax]. *)
Definition drawn_line (size : Z) (rng : nat → draw) (ds : list Direction)
    (len : nat) (n : nat) : option (list (Z * Z)) :=
  match choice ds (rng n) with
  | None => None
  | Some dir =>
      let l := Z.of_nat len in
      let xMin := if bool_decide (dx dir = -1) then l - 1 else 0 in
      let xMax := if bool_decide (dx dir = 1) then size - l else size - 1 in
      let yMin := if bool_decide (dy dir = -1) then l - 1 else 0 in
      let yMax := if bool_decide (dy dir = 1) then size - l else size - 1 in
      let x := randInt (rng (S n)) (xMax - xMin + 1) + xMin in
      let y := randInt (rng (S (S n))) (yMax - yMin + 1) + yMin in
      Some (line x y (dx dir) (dy dir) 0 len)
  end.

(** No cell of [l] is a cell of [cs] or touches one. *)
Definition clear_of (cs l : list (Z * Z)) : Prop :=
  ∀ p, p ∈ l → (p ∉ cs) ∧ ∀ n, adjacent8 n p → n ∉ cs.

(** The trial of DOG of index [k], after the one trial of CAT. *)
Definition dog_trial (rng : nat → draw) (k : nat) : option (list (Z * Z)) :=
  drawn_line 10 rng (dirs false) 3 (3 + 3 * k).

(** What scenario A yields for the random sequence [rng]: CAT lies on
    the line of its first trial; DOG lies on the line of the first of
    its 2000 trials that is clear of CAT, or is reported in [failed]
    when none of the 2000 lines is. *)
Definition scenario_A_outcome (rng : nat → draw) (res : GenerationResult)
  : Prop :=
  populated 10 res ∧
  ∃ lc, drawn_line 10 rng (dirs false) 3 0 = Some lc ∧
    ((∃ k ld, (k < 2000)%nat ∧ dog_trial rng k = Some ld ∧ clear_of lc ld ∧
        (∀ k', (k' < k)%nat →
           ∃ ld', dog_trial rng k' = Some ld' ∧ ¬ clear_of lc ld') ∧
        res_placements res = [ {| word := "CAT"; cells := lc |};
                               {| word := "DOG"; cells := ld |} ] ∧
        res_failed res = [] ∧
        mask_count 10 (res_mark res) = 6%nat) ∨
     ((∀ k, (k < 2000)%nat →
         ∃ ld, dog_trial rng k = Some ld ∧ ¬ clear_of lc ld) ∧
      res_placements res = [ {| word := "CAT"; cells := lc |} ] ∧
      res_failed res = ["DOG"%string] ∧
      mask_count 10 (res_mark res) = 3%nat)).

(** The draws that lay CAT at the origin and DOG five rows below. *)
Definition lucky_draws (k : nat) : draw :=
  if bool_decide (k = 5%nat) then Draw 1 1 else Draw 0 1.

(** The draws whose trials of DOG all start at the origin, on CAT,
    except the last of the 2000, which starts five rows below. *)
Definition last_chance_draws (k : nat) : draw :=
  if bool_decide (k = 3 + 3 * 1999 + 2)%nat then Draw 1 1 else Draw 0 1.

(** ** Further notions: the closures seen one by one *)

(** The board without any letter. *)
Definition blank_board (size : Z) : list (list (option ascii)) :=
  fresh_matrix size None.

(** The run of the generator on the words [ws], as a state: the loop
    over the sorted words, then the backfill. *)
Definition run_state (rng : nat → draw) (size : Z) (diag : bool)
    (ws : list string) : outcome state :=
  st ← placeWords size rng (dirs diag) (js_sort by_length_desc ws) 0 (init size);
  fillBlanks size rng st.

(** ** Further notions: how the placements lie *)

(** The entry of index [j] shares no cell with an earlier entry. *)
Definition base (pl : list Placement) (j : nat) : Prop :=
  ∀ Q q i P, pl !! j = Some Q → q ∈ cells Q →
    (i < j)%nat → pl !! i = Some P → q ∉ cells P.

(** The entry of index [j] lies, with all its cells, inside the earlier
    entry of index [i], which shares no cell with an entry before it. *)
Definition inside (pl : list Placement) (j i : nat) : Prop :=
  (i < j)%nat ∧ base pl i ∧
  ∀ Q B, pl !! j = Some Q → pl !! i = Some B → cells Q ⊆ cells B.

(** Every entry either shares no cell with the earlier entries or lies
    inside one of them. *)
Definition laid (pl : list Placement) : Prop :=
  ∀ j, (j < length pl)%nat → base pl j ∨ ∃ i, inside pl j i.

(** The word [u] reads along the word [v]: its letters are consecutive
    letters of [v], from the index [m] on, forwards ([s = 1]) or
    backwards ([s = -1]). *)
Definition reads_along (u v : string) : Prop :=
  ∃ m s, (s = 1 ∨ s = -1) ∧
    ∀ k c, letters u !! k = Some c →
      0 ≤ m + s * Z.of_nat k ∧
      letters v !! Z.to_nat (m + s * Z.of_nat k) = Some c.

(** No word of [ws] reads along another word of [ws]. *)
Definition independent (ws : list string) : Prop :=
  ∀ u v, u ∈ ws → v ∈ ws → u ≠ v → ¬ reads_along u v.

(** Two different entries share no cell, and no cell of one touches a
    cell of the other. *)
Definition apart (pl : list Placement) : Prop :=
  ∀ i j P Q p q, i ≠ j → pl !! i = Some P → pl !! j = Some Q →
    p ∈ cells P → q ∈ cells Q → p ≠ q ∧ ¬ adjacent8 p q.

(** ** Further notions: the input words *)

(** What [cleanWord] keeps of one code unit: a small letter as its
    capital, a capital as it is, the sharp s as SS, nothing else. *)
Definition kept_letters (a : ascii) : list ascii :=
  let n := N_of_ascii a in
  if bool_decide (97 ≤ n ≤ 122)%N then [ascii_of_N (n - 32)]
  else if bool_decide (65 ≤ n ≤ 90)%N then [a]
  else if bool_decide (n = 223)%N then [ascii_of_N 83; ascii_of_N 83]
  else [].

(** The elements of a list in the order of their first occurrence. *)
Fixpoint firsts (l : list string) : list string :=
  match l with
  | [] => []
  | x :: l' => x :: filter (λ y, y ≠ x) (firsts l')
  end.

(** The word is not empty and made of the letters A-Z. *)
Definition clean (w : string) : Prop :=
  w ≠ EmptyString ∧ Forall is_upper (letters w).

(** The line feed as a separator. *)
Definition newline : string := String LF EmptyString.

(** The words of the starter preview of the page. *)
Definition starter_words : list string :=
  ["RECOVERY"; "SUPPORT"; "SAFE"; "HEALTH"; "CHOICE"; "TRUST"; "GOALS";
   "ROUTINE"; "HONESTY"; "HOPE"]%string.

(** A list that [validate] accepts although two of its words have
    fewer than 2 letters. *)
Definition slipping_rest : list string :=
  ["A"; "AB"; "AC"; "AD"; "AE"; "AF"; "AG"; "AH"; "AI"]%string.

(** The element appended for the cell [p] shows the letter of the grid
    at [p], highlighted exactly when the mask is true at [p]. *)
Definition shows (result : GenerationResult) (p : Z * Z)
    (c : option ascii * bool) : Prop :=
  (∃ a, c.1 = Some a ∧ cell_at (res_grid result) p = Some (Some a)) ∧
  cell_at (res_mark result) p = Some c.2 ∧
  (c.2 = true ↔ ∃ P, P ∈ res_placements result ∧ p ∈ cells P).

(** * Properties *)

(** ** Indexing *)

Lemma randInt_range r n : 0 < n → 0 ≤ randInt r n < n.
Proof.
  intros Hn. unfold randInt.
  set (a := Z.of_N (d_num r)). set (b := Z.pos (d_gap r)).
  assert (0 ≤ a) by (subst a; lia). assert (0 < b) by (subst b; lia).
  split.
  - apply Z.div_pos; nia.
  - apply Z.div_lt_upper_bound; nia.
Qed.

Lemma randInt_nonpos r n : n ≤ 0 → n ≤ randInt r n ≤ 0.
Proof.
  intros Hn. unfold randInt.
  set (a := Z.of_N (d_num r)). set (b := Z.pos (d_gap r)).
  assert (0 ≤ a) by (subst a; lia). assert (0 < b) by (subst b; lia).
  split.
  - apply Z.div_le_lower_bound; nia.
  - apply Z.div_le_upper_bound; nia.
Qed.

Lemma zlookup_Some {A} (l : list A) i v :
  zlookup l i = Some v → 0 ≤ i < Z.of_nat (length l).
Proof.
  unfold zlookup. case_bool_decide; [|done].
  intros Hl%lookup_lt_Some. lia.
Qed.

Lemma zlookup_is_Some {A} (l : list A) i :
  0 ≤ i < Z.of_nat (length l) → is_Some (zlookup l i).
Proof.
  intros Hi. unfold zlookup. rewrite bool_decide_eq_true_2 by lia.
  apply lookup_lt_is_Some. lia.
Qed.

Lemma zlookup_insert_eq {A} (l : list A) i v w :
  zlookup l i = Some w → zlookup (<[Z.to_nat i := v]> l) i = Some v.
Proof.
  intros Hl. pose proof (zlookup_Some _ _ _ Hl). unfold zlookup.
  rewrite bool_decide_eq_true_2 by lia.
  apply list_lookup_insert_eq. lia.
Qed.

Lemma zlookup_insert_ne {A} (l : list A) i j v :
  0 ≤ i → i ≠ j → zlookup (<[Z.to_nat i := v]> l) j = zlookup l j.
Proof.
  intros Hi Hne. unfold zlookup. case_bool_decide; [|done].
  apply list_lookup_insert_ne. lia.
Qed.

Lemma cell_at_in_grid {A} size (m : list (list A)) p v :
  dims size m → cell_at m p = Some v → in_grid size p.
Proof.
  intros [Hlen Hrows]. unfold cell_at.
  destruct (zlookup m p.2) as [row|] eqn:Hrow; [|done].
  intros Hv. pose proof (zlookup_Some _ _ _ Hrow) as Hy.
  pose proof (zlookup_Some _ _ _ Hv) as Hx.
  unfold zlookup in Hrow. case_bool_decide; [|done].
  apply list_elem_of_lookup_2 in Hrow.
  rewrite Forall_forall in Hrows. apply Hrows in Hrow.
  unfold in_grid. lia.
Qed.

Lemma in_grid_cell_at {A} size (m : list (list A)) p :
  dims size m → in_grid size p → is_Some (cell_at m p).
Proof.
  intros [Hlen Hrows] [Hx Hy]. unfold cell_at.
  destruct (zlookup_is_Some m p.2) as [row Hrow]; [lia|].
  rewrite Hrow. apply zlookup_is_Some.
  unfold zlookup in Hrow. case_bool_decide; [|done].
  apply list_elem_of_lookup_2 in Hrow.
  rewrite Forall_forall in Hrows. apply Hrows in Hrow. lia.
Qed.

Lemma mread_cell_at {A} (m : list (list A)) x y v :
  cell_at m (x, y) = Some v → mread m x y = Ok v.
Proof.
  unfold cell_at, mread; simpl.
  destruct (zlookup m y); [|done]. by intros ->.
Qed.

Lemma mread_Ok {A} (m : list (list A)) x y v :
  mread m x y = Ok v → cell_at m (x, y) = Some v.
Proof.
  unfold cell_at, mread; simpl.
  destruct (zlookup m y) as [row|]; [|done].
  destruct (zlookup row x); [|done]. by intros [= ->].
Qed.

Lemma mwrite_Ok {A} (m : list (list A)) x y v w :
  cell_at m (x, y) = Some w →
  ∃ m', mwrite m x y v = Ok m' ∧
    cell_at m' (x, y) = Some v ∧
    (∀ q, q ≠ (x, y) → cell_at m' q = cell_at m q) ∧
    (∀ size, dims size m → dims size m').
Proof.
  unfold cell_at, mwrite; simpl.
  destruct (zlookup m y) as [row|] eqn:Hrow; [|done].
  intros Hw. rewrite Hw. eexists; split; [done|].
  pose proof (zlookup_Some _ _ _ Hrow) as Hy.
  pose proof (zlookup_Some _ _ _ Hw) as Hx.
  split; [|split].
  - rewrite (zlookup_insert_eq _ _ _ _ Hrow).
    by rewrite (zlookup_insert_eq _ _ _ _ Hw).
  - intros [qx qy] Hq; simpl.
    destruct (decide (qy = y)) as [->|Hne].
    + rewrite (zlookup_insert_eq _ _ _ _ Hrow), Hrow.
      apply zlookup_insert_ne; [lia|congruence].
    + by rewrite zlookup_insert_ne by lia.
  - intros size [Hlen Hrows]. split.
    + by rewrite length_insert.
    + apply Forall_insert; [done|]. rewrite length_insert.
      unfold zlookup in Hrow. case_bool_decide; [|done].
      apply list_elem_of_lookup_2 in Hrow.
      rewrite Forall_forall in Hrows. by apply Hrows.
Qed.

Lemma dims_fresh_matrix {A} size (v : A) : dims size (fresh_matrix size v).
Proof.
  split.
  - apply length_replicate.
  - apply Forall_replicate, length_replicate.
Qed.

Lemma cell_at_fresh_matrix {A} size (v : A) p w :
  cell_at (fresh_matrix size v) p = Some w → w = v.
Proof.
  unfold cell_at, fresh_matrix, zlookup.
  case_bool_decide; [|done].
  destruct (replicate _ _ !! _) as [row|] eqn:Hrow; [|done].
  apply lookup_replicate in Hrow as [-> _].
  case_bool_decide; [|done].
  intros [-> _]%lookup_replicate. done.
Qed.

Lemma out_of_grid_false size p :
  out_of_grid size p.1 p.2 = false ↔ in_grid size p.
Proof.
  unfold out_of_grid, in_grid.
  rewrite !orb_false_iff, !bool_decide_eq_false. lia.
Qed.

Lemma out_of_grid_true size p :
  out_of_grid size p.1 p.2 = true ↔ ¬ in_grid size p.
Proof.
  rewrite <- out_of_grid_false. destruct (out_of_grid _ _ _); naive_solver.
Qed.

(** ** The feasibility check *)

Lemma fits_cons g c w x y dx dy i :
  fits g (c :: w) x y dx dy i ↔
  cell_ok g c (pos x y dx dy i) ∧ fits g w x y dx dy (i + 1).
Proof.
  unfold fits. split.
  - intros H. split.
    + specialize (H 0%nat c eq_refl). by rewrite Z.add_0_r in H.
    + intros k c' Hk. specialize (H (S k) c' Hk).
      by replace (i + 1 + Z.of_nat k) with (i + Z.of_nat (S k)) by lia.
  - intros [H0 H] [|k] c' Hk; simpl in Hk.
    + injection Hk as <-. by rewrite Z.add_0_r.
    + specialize (H k c' Hk).
      by replace (i + Z.of_nat (S k)) with (i + 1 + Z.of_nat k) by lia.
Qed.

Lemma elem_of_line x y dx dy i n p :
  p ∈ line x y dx dy i n ↔
  ∃ k, (k < n)%nat ∧ p = pos x y dx dy (i + Z.of_nat k).
Proof.
  revert i. induction n as [|n IH]; intros i; simpl.
  - rewrite elem_of_nil. split; [done|]. intros (k & Hk & _). lia.
  - rewrite elem_of_cons, IH. split.
    + intros [-> | (k & Hk & ->)].
      * exists 0%nat. split; [lia|]. by rewrite Z.add_0_r.
      * exists (S k). split; [lia|]. f_equal; lia.
    + intros ([|k] & Hk & ->).
      * left. by rewrite Z.add_0_r.
      * right. exists k. split; [lia|]. f_equal; lia.
Qed.

Lemma length_line x y dx dy i n : length (line x y dx dy i n) = n.
Proof. revert i. induction n; intros; simpl; auto. Qed.

Lemma lookup_line x y dx dy i n k :
  (k < n)%nat → line x y dx dy i n !! k = Some (pos x y dx dy (i + Z.of_nat k)).
Proof.
  revert i k. induction n as [|n IH]; intros i [|k] Hk; simpl; try lia.
  - by rewrite Z.add_0_r.
  - rewrite IH by lia. do 2 f_equal. lia.
Qed.

Lemma pos_inj x y dx dy i j :
  dx ≠ 0 ∨ dy ≠ 0 → pos x y dx dy i = pos x y dx dy j → i = j.
Proof. unfold pos. intros Hd [= Hx Hy]. nia. Qed.

Lemma NoDup_line x y dx dy i n :
  dx ≠ 0 ∨ dy ≠ 0 → NoDup (line x y dx dy i n).
Proof.
  intros Hd. revert i. induction n as [|n IH]; intros i; simpl.
  - constructor.
  - constructor; [|apply IH].
    rewrite elem_of_line. intros (k & _ & Hk).
    apply pos_inj in Hk; [lia|done].
Qed.

Lemma elem_of_window xx yy n :
  n ∈ window xx yy ↔ Z.abs (n.1 - xx) ≤ 1 ∧ Z.abs (n.2 - yy) ≤ 1.
Proof.
  destruct n as [nx ny]. unfold window; simpl.
  rewrite !elem_of_cons, elem_of_nil. split.
  - intros H. repeat (destruct H as [H|H]); try done;
      injection H as -> ->; lia.
  - intros [Hx Hy].
    assert (nx = xx - 1 ∨ nx = xx ∨ nx = xx + 1) as Hx' by lia.
    assert (ny = yy - 1 ∨ ny = yy ∨ ny = yy + 1) as Hy' by lia.
    destruct Hx' as [-> | [-> | ->]], Hy' as [-> | [-> | ->]]; tauto.
Qed.

Section Feasibility.
Variable size : Z.
Variable g : list (list (option ascii)).
Hypothesis Hg : dims size g.

Lemma occupied_in_grid p : occupied g p → in_grid size p.
Proof using Hg. intros [a Ha]. by eapply cell_at_in_grid. Qed.

Lemma scan_spec xx yy ns :
  ∃ b, scan size g xx yy ns = Ok b ∧
    (b = true ↔ ∃ n, n ∈ ns ∧ n ≠ (xx, yy) ∧ occupied g n).
Proof using Hg.
  induction ns as [|[nx ny] ns (b & IH & Hb)]; simpl.
  - exists false. split; [done|]. split; [done|].
    intros (n & Hn & _). by apply elem_of_nil in Hn.
  - destruct (bool_decide (nx = xx) && bool_decide (ny = yy)) eqn:Hself.
    { apply andb_true_iff in Hself as [->%bool_decide_eq_true ->%bool_decide_eq_true].
      exists b. split; [done|]. rewrite Hb. split.
      - intros (n & Hn & Hrest). exists n. by rewrite elem_of_cons; auto.
      - intros (n & [-> | Hn]%elem_of_cons & Hne & Hocc); [done|eauto]. }
    destruct (out_of_grid size nx ny) eqn:Hout.
    { apply (out_of_grid_true size (nx, ny)) in Hout.
      exists b. split; [done|]. rewrite Hb. split.
      - intros (n & Hn & Hrest). exists n. by rewrite elem_of_cons; auto.
      - intros (n & [-> | Hn]%elem_of_cons & Hne & Hocc); [|eauto].
        by apply occupied_in_grid in Hocc. }
    apply (out_of_grid_false size (nx, ny)) in Hout.
    destruct (in_grid_cell_at _ _ _ Hg Hout) as [v Hv].
    rewrite (mread_cell_at _ _ _ _ Hv); simpl.
    assert ((nx, ny) ≠ (xx, yy)) as Hne.
    { intros [= -> ->]. by rewrite !bool_decide_eq_true_2 in Hself. }
    destruct v as [a|].
    + exists true. split; [done|]. split; [|done]. intros _.
      exists (nx, ny). rewrite elem_of_cons. split; [by left|].
      split; [done|]. by exists a.
    + exists b. split; [done|]. rewrite Hb. split.
      * intros (n & Hn & Hrest). exists n. by rewrite elem_of_cons; auto.
      * intros (n & [-> | Hn]%elem_of_cons & Hne' & Hocc); [|eauto].
        destruct Hocc as [a Ha]. congruence.
Qed.

Lemma hasAdjacentOccupied_spec xx yy :
  ∃ b, hasAdjacentOccupied size g xx yy = Ok b ∧
    (b = true ↔ ∃ n, adjacent8 n (xx, yy) ∧ occupied g n).
Proof using Hg.
  destruct (scan_spec xx yy (window xx yy)) as (b & Hs & Hb).
  exists b. split; [done|]. rewrite Hb. unfold adjacent8.
  split; intros (n & H); exists n; rewrite elem_of_window in *; simpl in *; tauto.
Qed.

Lemma canPlace_from_spec w x y dx dy i :
  ∃ b, canPlace_from size g w x y dx dy i = Ok b ∧
    (b = true ↔ fits g w x y dx dy i).
Proof using Hg.
  revert i. induction w as [|c w IH]; intros i; simpl.
  - exists true. split; [done|]. split; [|done]. intros _ k c Hk. done.
  - destruct (IH (i + 1)) as (b & Hrec & Hb).
    setoid_rewrite fits_cons. unfold cell_ok.
    fold (pos x y dx dy i).
    destruct (out_of_grid size (x + dx * i) (y + dy * i)) eqn:Hout.
    { apply (out_of_grid_true size (pos x y dx dy i)) in Hout.
      exists false. split; [done|]. split; [done|].
      intros [[H|[H _]] _]; by apply cell_at_in_grid with (size := size) in H. }
    apply (out_of_grid_false size (pos x y dx dy i)) in Hout.
    destruct (in_grid_cell_at _ _ _ Hg Hout) as [v Hv].
    rewrite (mread_cell_at _ _ _ _ Hv); simpl.
    destruct v as [e|].
    + case_bool_decide as Hec.
      * exists false. split; [done|]. split; [done|].
        intros [[H|[H _]] _]; congruence.
      * subst e.
        exists b. split; [done|]. rewrite Hb. unfold pos in *. tauto.
    + destruct (hasAdjacentOccupied_spec (x + dx * i) (y + dy * i))
        as (adj & -> & Hadj); simpl.
      fold (pos x y dx dy i) in Hadj.
      destruct adj.
      * exists false. split; [done|]. split; [done|].
        intros [[H|[_ H]] _]; [congruence|].
        destruct Hadj as [(n & Hn & Hocc) _]; [done|]. by destruct (H n).
      * exists b. split; [done|]. rewrite Hb. split; [|tauto].
        intros Hf. split; [|done]. right. split; [done|].
        intros n Hn Hocc. destruct Hadj as [_ Hadj].
        discriminate Hadj. eauto.
Qed.
End Feasibility.

(** ** The commit *)

Lemma length_letters w : length (letters w) = String.length w.
Proof. induction w; simpl; auto. Qed.

Lemma doPlace_from_spec size w x y dx dy wi :
  dx ≠ 0 ∨ dy ≠ 0 →
  ∀ i cs st,
    board_ok size st →
    (∀ k, (k < length w)%nat → in_grid size (pos x y dx dy (i + Z.of_nat k))) →
    ∃ st', doPlace_from w x y dx dy wi i cs st
             = Ok (cs ++ line x y dx dy i (length w), st') ∧
      board_ok size st' ∧
      placements st' = placements st ∧ failed st' = failed st ∧
      drawn st' = drawn st ∧
      (∀ p, p ∉ line x y dx dy i (length w) →
         cell_at (grid st') p = cell_at (grid st) p ∧
         cell_at (mark st') p = cell_at (mark st) p) ∧
      (∀ k c, w !! k = Some c →
         cell_at (grid st') (pos x y dx dy (i + Z.of_nat k)) = Some (Some c)) ∧
      (∀ p, p ∈ line x y dx dy i (length w) → cell_at (mark st') p = Some true).
Proof.
  intros Hd. induction w as [|c w IH]; intros i cs st (Hg & Hm & Ho) Hin; simpl.
  - exists st. rewrite app_nil_r.
    split; [done|]. split; [done|]. split; [done|]. split; [done|].
    split; [done|]. split; [done|]. split; [done|].
    intros p Hp. by apply elem_of_nil in Hp.
  - pose proof (Hin 0%nat ltac:(simpl; lia)) as H0. rewrite Z.add_0_r in H0.
    destruct (in_grid_cell_at _ _ _ Hg H0) as [vg Hvg].
    destruct (in_grid_cell_at _ _ _ Hm H0) as [vm Hvm].
    destruct (in_grid_cell_at _ _ _ Ho H0) as [vo Hvo].
    destruct (mwrite_Ok _ _ _ (Some c) _ Hvg) as (g' & -> & Hg1 & Hg2 & Hg3).
    destruct (mwrite_Ok _ _ _ true _ Hvm) as (m' & -> & Hm1 & Hm2 & Hm3).
    rewrite (mread_cell_at _ _ _ _ Hvo). simpl.
    destruct (mwrite_Ok _ _ _ (Some wi) _ Hvo) as (o' & Ho' & _ & _ & Ho3).
    set (ow := match vo with Some _ => owner st | None => o' end).
    assert (dims size ow) as Hdo by (subst ow; destruct vo; auto).
    set (st1 := set_owner (set_mark (set_grid st g') m') ow).
    assert (board_ok size st1) as Hb1 by (split; [|split]; simpl; auto).
    destruct (IH (i + 1) (cs ++ [pos x y dx dy i]) st1 Hb1)
      as (st' & Hrun & Hb' & Hpl & Hfl & Hdr & Hout & Hlet & Hmk).
    { intros k Hk. specialize (Hin (S k) ltac:(simpl; lia)).
      by replace (i + 1 + Z.of_nat k) with (i + Z.of_nat (S k)) by lia. }
    exists st'. split.
    { replace (match vo with Some _ => Ok (owner st) | None => _ end)
        with (Ok (A := list (list (option Z))) ow)
        by (subst ow; destruct vo; [done|by rewrite Ho']).
      simpl. fold (pos x y dx dy i). fold st1. rewrite Hrun.
      by rewrite <- app_assoc. }
    assert (pos x y dx dy i ∉ line x y dx dy (i + 1) (length w)) as Hfresh.
    { rewrite elem_of_line. intros (k & _ & Hk).
      apply pos_inj in Hk; [lia|done]. }
    split; [done|]. split; [done|]. split; [done|]. split; [done|].
    split; [|split].
    + intros p [Hp1 Hp2]%not_elem_of_cons.
      destruct (Hout p Hp2) as [-> ->]. simpl. split; auto.
    + intros [|k] c' Hk; simpl in Hk.
      * injection Hk as <-. rewrite Z.add_0_r.
        destruct (Hout _ Hfresh) as [-> _]. done.
      * replace (i + Z.of_nat (S k)) with (i + 1 + Z.of_nat k) by lia.
        by apply Hlet.
    + intros p [-> | Hp]%elem_of_cons; [|by apply Hmk].
      destruct (Hout _ Hfresh) as [_ ->]. done.
Qed.

Lemma fits_in_grid size g w x y dx dy i k :
  dims size g → fits g w x y dx dy i → (k < length w)%nat →
  in_grid size (pos x y dx dy (i + Z.of_nat k)).
Proof.
  intros Hg Hf Hk. destruct (lookup_lt_is_Some_2 w k Hk) as [c Hc].
  destruct (Hf k c Hc) as [H|[H _]]; by eapply cell_at_in_grid.
Qed.

Lemma doPlace_spec size st w x y dx dy wi :
  dx ≠ 0 ∨ dy ≠ 0 → board_ok size st →
  fits (grid st) (letters w) x y dx dy 0 →
  ∃ st', doPlace st w x y dx dy wi = Ok st' ∧
    drawn st' = drawn st ∧ commit size st st' w x y dx dy.
Proof.
  intros Hd Hb Hf. unfold doPlace.
  destruct (doPlace_from_spec size (letters w) x y dx dy wi Hd 0 [] st Hb)
    as (st' & -> & Hb' & Hpl & Hfl & Hdr & Hout & Hlet & Hmk).
  { intros k Hk. eapply fits_in_grid; [apply Hb|done..]. }
  simpl. rewrite length_letters in *.
  eexists. split; [done|]. split; [done|].
  split; simpl; try done.
  - by rewrite Hpl.
Qed.

Lemma commit_same_vars size st0 st st' w x y dx dy :
  same_vars st0 st → commit size st st' w x y dx dy →
  commit size st0 st' w x y dx dy.
Proof.
  intros (Hg & Hm & _ & Hp & Hf) [].
  split; rewrite <- ?Hg, <- ?Hm, <- ?Hp, <- ?Hf; done.
Qed.

(** A commit never changes a letter of the grid. *)
Lemma commit_mono size st st' w x y dx dy p a :
  commit size st st' w x y dx dy →
  cell_at (grid st) p = Some (Some a) → cell_at (grid st') p = Some (Some a).
Proof.
  intros [] Hp.
  destruct (decide (p ∈ line x y dx dy 0 (String.length w))) as [Hin|Hout].
  - apply elem_of_line in Hin as (k & Hk & ->). rewrite Z.add_0_l in *.
    rewrite <- length_letters in Hk.
    destruct (lookup_lt_is_Some_2 _ _ Hk) as [c Hc].
    rewrite (c_letters0 k c Hc).
    destruct (c_fits0 k c Hc) as [H|[H _]]; rewrite Z.add_0_l in H; congruence.
  - destruct (c_outside0 p Hout) as [-> _]. done.
Qed.

(** ** The invariant of the loop over the words *)

Lemma dirs_unit diag d : d ∈ dirs diag → unit_dir d.
Proof.
  unfold unit_dir.
  destruct diag; unfold dirs, dirs8, dirs4; simpl;
    rewrite !elem_of_cons, elem_of_nil; intros Hd;
    repeat (destruct Hd as [-> | Hd]); simpl; try lia; done.
Qed.

Lemma adjacent8_sym p q : adjacent8 p q → adjacent8 q p.
Proof. unfold adjacent8. intros (Hne & Hx & Hy). split; [done|lia]. Qed.

Lemma Inv_commit size ds st st' w x y d :
  d ∈ ds → dx d ≠ 0 ∨ dy d ≠ 0 →
  Inv size ds st → commit size st st' w x y (dx d) (dy d) →
  Inv size ds st'.
Proof.
  intros Hd Hunit HI Hc.
  pose proof (λ p a, commit_mono _ _ _ _ _ _ _ _ p a Hc) as Hmono.
  destruct HI as [Hb Hgrid Hmark Hspell Hspace].
  destruct Hc as [Hfits Hb' Hpl Hfl Hout Hlet Hmk].
  set (L := line x y (dx d) (dy d) 0 (String.length w)) in *.
  set (new := {| word := w; cells := L |}) in *.
  assert (∀ p, p ∈ L → occupied (grid st') p) as HoccL.
  { intros p (k & Hk & ->)%elem_of_line. rewrite Z.add_0_l.
    rewrite <- length_letters in Hk.
    destruct (lookup_lt_is_Some_2 _ _ Hk) as [c Hc].
    exists c. by apply Hlet. }
  assert (∀ p, p ∈ L → ¬ occupied (grid st) p →
            ∀ n, adjacent8 n p → ¬ occupied (grid st) n) as Hquiet.
  { intros p (k & Hk & ->)%elem_of_line Hfree.
    rewrite <- length_letters in Hk.
    destruct (lookup_lt_is_Some_2 _ _ Hk) as [c Hc].
    destruct (Hfits k c Hc) as [H|[_ H]]; [|done].
    destruct Hfree. by exists c. }
  assert (∀ p, occupied (grid st') p → p ∉ L → occupied (grid st) p) as Hold.
  { intros p [a Ha] Hp. exists a. by destruct (Hout p Hp) as [<- _]. }
  assert (∀ p, covered (placements st') p ↔ covered (placements st) p ∨ p ∈ L)
    as Hcov.
  { intros p. unfold covered. rewrite Hpl. split.
    - intros (P & [HP | ->%list_elem_of_singleton]%elem_of_app & Hp); eauto.
    - intros [(P & HP & Hp) | Hp].
      + exists P. rewrite elem_of_app. auto.
      + exists new. rewrite elem_of_app, list_elem_of_singleton. auto. }
  split.
  - done.
  - intros p. rewrite Hcov, <- Hgrid. split.
    + intros Hocc. destruct (decide (p ∈ L)); auto.
    + intros [[a Ha] | Hp]; [|auto]. exists a. auto.
  - intros p. rewrite Hcov, <- Hmark.
    destruct (decide (p ∈ L)) as [Hp|Hp].
    + rewrite (Hmk p Hp). tauto.
    + destruct (Hout p Hp) as [_ ->]. tauto.
  - intros P. rewrite Hpl.
    intros [HP | ->%list_elem_of_singleton]%elem_of_app.
    + destruct (Hspell P HP) as (x0 & y0 & d0 & Hd0 & Hcells & Hsp).
      exists x0, y0, d0. split; [done|]. split; [done|]. auto.
    + exists x, y, d. split; [done|]. split; [done|]. exact Hlet.
  - intros j Q q HQ Hq Hfirst n Hn Hocc. rewrite Hpl in HQ, Hfirst.
    destruct (decide (j < length (placements st))%nat) as [Hj|Hj].
    + rewrite lookup_app_l in HQ by done.
      assert (occupied (grid st) q) as Hoq.
      { apply Hgrid. exists Q. split; [|done]. by eapply list_elem_of_lookup_2. }
      destruct (decide (n ∈ L)) as [HnL|HnL].
      * destruct (decide (occupied (grid st) n)) as [Hon|Hon].
        -- apply (Hspace j Q q HQ Hq) with (n := n); try done.
           intros i P Hi HP. apply (Hfirst i P Hi).
           by rewrite lookup_app_l by lia.
        -- destruct (Hquiet n HnL Hon q (adjacent8_sym _ _ Hn) Hoq).
      * apply (Hspace j Q q HQ Hq) with (n := n); auto.
        intros i P Hi HP. apply (Hfirst i P Hi).
        by rewrite lookup_app_l by lia.
    + assert (j = length (placements st)) as ->.
      { apply lookup_lt_Some in HQ. rewrite length_app in HQ. simpl in HQ. lia. }
      rewrite list_lookup_middle in HQ by done. injection HQ as <-.
      simpl in *.
      assert (¬ occupied (grid st) q) as Hfree.
      { rewrite Hgrid. intros (P & HP & HqP).
        apply list_elem_of_lookup_1 in HP as [i HP].
        apply (Hfirst i P); [by eapply lookup_lt_Some| |done].
        rewrite lookup_app_l; [done|by eapply lookup_lt_Some]. }
      destruct (decide (n ∈ L)) as [HnL|HnL]; [done|].
      destruct (Hquiet q Hq Hfree n Hn). auto.
Qed.

Lemma Inv_ext size ds st st' :
  grid st' = grid st → mark st' = mark st → owner st' = owner st →
  placements st' = placements st → Inv size ds st → Inv size ds st'.
Proof.
  intros Hg Hm Ho Hp [(? & ? & ?) ? ? ? ?].
  split; [split; [|split]|..]; rewrite ?Hg, ?Hm, ?Ho, ?Hp; done.
Qed.

Lemma Inv_init size ds : Inv size ds (init size).
Proof.
  split; simpl.
  - repeat split; apply dims_fresh_matrix || apply Forall_replicate, length_replicate
      || apply length_replicate.
  - intros p. split.
    + intros [a Ha]. by apply cell_at_fresh_matrix in Ha.
    + intros (P & HP & _). by apply elem_of_nil in HP.
  - intros p. split.
    + intros Ha. by apply cell_at_fresh_matrix in Ha.
    + intros (P & HP & _). by apply elem_of_nil in HP.
  - intros P HP. by apply elem_of_nil in HP.
  - intros j Q q HQ. done.
Qed.

(** ** One trial, the trials of a word, the loop over the words *)

Lemma choice_Some {A} (arr : list A) r :
  arr ≠ [] → ∃ v, choice arr r = Some v ∧ v ∈ arr.
Proof.
  intros Hne. unfold choice.
  assert (0 < Z.of_nat (length arr)) as Hlen by (destruct arr; simpl; [done|lia]).
  pose proof (randInt_range r _ Hlen) as Hr.
  destruct (zlookup_is_Some arr _ Hr) as [v Hv].
  exists v. split; [done|].
  unfold zlookup in Hv. case_bool_decide; [|done].
  by eapply list_elem_of_lookup_2.
Qed.

Lemma dirs_nonempty diag : dirs diag ≠ [].
Proof. by destruct diag. Qed.

(** The start drawn for a word that is no longer than the grid keeps
    the whole word inside the grid. *)
Lemma start_in_range size len r dx k :
  Z.abs dx ≤ 1 → 0 ≤ k < len → len ≤ size →
  0 ≤ randInt r ((if bool_decide (dx = 1) then size - len else size - 1)
                 - (if bool_decide (dx = -1) then len - 1 else 0) + 1)
      + (if bool_decide (dx = -1) then len - 1 else 0) + dx * k < size.
Proof.
  intros Hdx Hk Hlen.
  assert (dx = -1 ∨ dx = 0 ∨ dx = 1) as [-> | [-> | ->]] by lia;
    repeat case_bool_decide; try lia.
  - pose proof (randInt_range r (size - 1 - (len - 1) + 1)). lia.
  - pose proof (randInt_range r (size - 1 - 0 + 1)). lia.
  - pose proof (randInt_range r (size - len - 0 + 1)). lia.
Qed.

Section Trials.
Variable size : Z.
Variable rng : nat → draw.
Variable diag : bool.

Lemma trial_spec w wi st :
  board_ok size st →
  ∃ b st' x y d,
    trial size rng (dirs diag) w wi st = Ok (b, st') ∧
    d ∈ dirs diag ∧
    (Z.of_nat (String.length w) ≤ size →
     ∀ k, (k < String.length w)%nat →
       in_grid size (pos x y (dx d) (dy d) (Z.of_nat k))) ∧
    if b then commit size st st' w x y (dx d) (dy d)
    else same_vars st st' ∧ ¬ fits (grid st) (letters w) x y (dx d) (dy d) 0.
Proof using Type.
  intros Hb. unfold trial, random.
  destruct (choice_Some (dirs diag) (rng (drawn st)) (dirs_nonempty diag))
    as (d & -> & Hd).
  destruct (dirs_unit diag d Hd) as (Hnz & Hdx & Hdy).
  set (len := Z.of_nat (String.length w)).
  set (xMin := if bool_decide (dx d = -1) then len - 1 else 0).
  set (xMax := if bool_decide (dx d = 1) then size - len else size - 1).
  set (yMin := if bool_decide (dy d = -1) then len - 1 else 0).
  set (yMax := if bool_decide (dy d = 1) then size - len else size - 1).
  set (st1 := tick st). set (st2 := tick st1). set (st3 := tick st2).
  set (x := randInt (rng (drawn st1)) (xMax - xMin + 1) + xMin).
  set (y := randInt (rng (drawn st2)) (yMax - yMin + 1) + yMin).
  assert (same_vars st st3) as Hsame by done.
  destruct (canPlace_from_spec size (grid st) (proj1 Hb) (letters w)
              x y (dx d) (dy d) 0) as (b & Hcan & Hfits).
  assert (∃ st', (if b then commit size st st' w x y (dx d) (dy d)
                  else same_vars st st' ∧
                       ¬ fits (grid st) (letters w) x y (dx d) (dy d) 0) ∧
            (ok ← canPlace size st3 w x y (dx d) (dy d) wi;
             if ok : bool then
               st' ← doPlace st3 w x y (dx d) (dy d) wi; Ok (true, st')
             else Ok (false, st3)) = Ok (b, st')) as (st' & Hres & Hrun).
  { unfold canPlace. change (grid st3) with (grid st). rewrite Hcan. simpl.
    destruct b.
    - destruct (doPlace_spec size st3 w x y (dx d) (dy d) wi Hnz Hb)
        as (st' & -> & _ & Hc); [by apply Hfits|].
      exists st'. split; [|done]. by eapply commit_same_vars.
    - exists st3. split; [|done]. split; [done|].
      intros Hf. by apply Hfits in Hf. }
  exists b, st', x, y, d. split; [exact Hrun|]. split; [done|].
  split; [|done].
  intros Hlen k Hk. split; simpl.
  - apply start_in_range; [done|lia|done].
  - apply start_in_range; [done|lia|done].
Qed.

Lemma tryPlace_spec w wi n st :
  board_ok size st →
  ∃ b st', tryPlace size rng n (dirs diag) w wi st = Ok (b, st') ∧
    if b then ∃ x y d, d ∈ dirs diag ∧ commit size st st' w x y (dx d) (dy d)
    else same_vars st st'.
Proof using Type.
  revert st. induction n as [|n IH]; intros st Hb; simpl.
  - exists false, st. by split.
  - destruct (trial_spec w wi st Hb) as (b1 & st1 & x & y & d & -> & Hd & _ & H1).
    simpl. destruct b1.
    + exists true, st1. split; [done|]. by exists x, y, d.
    + destruct H1 as [Hs1 _].
      assert (board_ok size st1) as Hb1.
      { destruct Hs1 as (Hg & Hm & Ho & _). unfold board_ok.
        by rewrite Hg, Hm, Ho. }
      destruct (IH st1 Hb1) as (b & st' & -> & H).
      exists b, st'. split; [done|]. destruct b.
      * destruct H as (x' & y' & d' & Hd' & Hc).
        exists x', y', d'. split; [done|]. by eapply commit_same_vars.
      * destruct Hs1 as (? & ? & ? & ? & ?), H as (? & ? & ? & ? & ?).
        repeat split; congruence.
Qed.
End Trials.

(** Neither [doPlace] nor a failed trial draws more than the three
    numbers of the trial. *)
Lemma doPlace_from_drawn w x y dx dy wi i cs st cs' st' :
  doPlace_from w x y dx dy wi i cs st = Ok (cs', st') → drawn st' = drawn st.
Proof.
  revert i cs st. induction w as [|c w IH]; intros i cs st; simpl.
  - by intros [= _ <-].
  - destruct (mwrite (grid st) _ _ _) as [g|]; [|done]. simpl.
    destruct (mwrite (mark st) _ _ _) as [m|]; [|done]. simpl.
    destruct (mread (owner st) _ _) as [o|]; [|done]. simpl.
    destruct (match o with Some _ => _ | None => _ end) as [ow|]; [|done].
    simpl. intros Hrun. by rewrite (IH _ _ _ Hrun).
Qed.

Lemma trial_drawn size rng ds w wi st b st' :
  trial size rng ds w wi st = Ok (b, st') → drawn st' = (drawn st + 3)%nat.
Proof.
  unfold trial, random. destruct (choice ds _) as [d|]; [|done].
  destruct (canPlace _ _ _ _ _ _ _ _) as [[|]|]; simpl; [| |done].
  - unfold doPlace.
    destruct (doPlace_from _ _ _ _ _ _ _ _ _) as [[cs st1]|] eqn:Hdo; [|done].
    simpl. intros [= _ <-]. simpl.
    rewrite (doPlace_from_drawn _ _ _ _ _ _ _ _ _ _ _ Hdo). simpl. lia.
  - intros [= _ <-]. simpl. lia.
Qed.

Section Lines.
Variable size : Z.
Variable rng : nat → draw.
Variable diag : bool.

(** The line of a trial, the flag and the state it yields. *)
Lemma trial_line w wi st :
  board_ok size st →
  ∃ b st' x y d,
    trial size rng (dirs diag) w wi st = Ok (b, st') ∧
    d ∈ dirs diag ∧
    drawn_line size rng (dirs diag) (String.length w) (drawn st)
      = Some (line x y (dx d) (dy d) 0 (String.length w)) ∧
    drawn st' = (drawn st + 3)%nat ∧
    (Z.of_nat (String.length w) ≤ size →
     ∀ k, (k < String.length w)%nat →
       in_grid size (pos x y (dx d) (dy d) (Z.of_nat k))) ∧
    if b then commit size st st' w x y (dx d) (dy d)
    else same_vars st st' ∧ ¬ fits (grid st) (letters w) x y (dx d) (dy d) 0.
Proof using Type.
  intros Hb.
  destruct (choice_Some (dirs diag) (rng (drawn st)) (dirs_nonempty diag))
    as (d & Hch & Hd).
  destruct (dirs_unit diag d Hd) as (Hnz & Hdx & Hdy).
  destruct (trial size rng (dirs diag) w wi st) as [[b st']|e] eqn:Ht.
  2:{ destruct (trial_spec size rng diag w wi st Hb)
        as (? & ? & ? & ? & ? & Ht' & _). congruence. }
  pose proof (trial_drawn _ _ _ _ _ _ _ _ Ht) as Hdrawn.
  revert Ht. unfold trial, random. rewrite Hch.
  set (len := Z.of_nat (String.length w)).
  set (xMin := if bool_decide (dx d = -1) then len - 1 else 0).
  set (xMax := if bool_decide (dx d = 1) then size - len else size - 1).
  set (yMin := if bool_decide (dy d = -1) then len - 1 else 0).
  set (yMax := if bool_decide (dy d = 1) then size - len else size - 1).
  set (st1 := tick st). set (st2 := tick st1). set (st3 := tick st2).
  set (x := randInt (rng (drawn st1)) (xMax - xMin + 1) + xMin).
  set (y := randInt (rng (drawn st2)) (yMax - yMin + 1) + yMin).
  intros Ht.
  exists b, st', x, y, d. split; [done|]. split; [done|].
  split; [by unfold drawn_line; rewrite Hch|]. split; [done|].
  split.
  { intros Hlen k Hk. split; simpl.
    - apply start_in_range; [done|lia|done].
    - apply start_in_range; [done|lia|done]. }
  assert (same_vars st st3) as Hsame by done.
  destruct (canPlace_from_spec size (grid st) (proj1 Hb) (letters w)
              x y (dx d) (dy d) 0) as (b' & Hcan & Hfits).
  revert Ht. unfold canPlace. change (grid st3) with (grid st).
  rewrite Hcan. simpl. destruct b'.
  - destruct (doPlace_spec size st3 w x y (dx d) (dy d) wi Hnz Hb)
      as (st'' & -> & _ & Hc); [by apply Hfits|].
    simpl. intros [= <- <-]. by eapply commit_same_vars.
  - intros [= <- <-]. split; [done|].
    intros Hf. by apply Hfits in Hf.
Qed.

(** The loop over the trials commits the word at the first trial whose
    line is feasible, and fails when none of the [n] lines is. *)
Lemma tryPlace_line w wi n st :
  board_ok size st → Z.of_nat (String.length w) ≤ size →
  ∃ b st' m, tryPlace size rng n (dirs diag) w wi st = Ok (b, st') ∧
    (m ≤ n)%nat ∧
    (∀ k, (k < m)%nat → ∃ x y d,
       drawn_line size rng (dirs diag) (String.length w) (drawn st + 3 * k)
         = Some (line x y (dx d) (dy d) 0 (String.length w)) ∧
       (∀ i, (i < String.length w)%nat →
          in_grid size (pos x y (dx d) (dy d) (Z.of_nat i))) ∧
       ¬ fits (grid st) (letters w) x y (dx d) (dy d) 0) ∧
    if b then
      (m < n)%nat ∧ drawn st' = (drawn st + 3 * (m + 1))%nat ∧
      ∃ x y d, d ∈ dirs diag ∧
        drawn_line size rng (dirs diag) (String.length w) (drawn st + 3 * m)
          = Some (line x y (dx d) (dy d) 0 (String.length w)) ∧
        (∀ i, (i < String.length w)%nat →
           in_grid size (pos x y (dx d) (dy d) (Z.of_nat i))) ∧
        commit size st st' w x y (dx d) (dy d)
    else m = n ∧ same_vars st st'.
Proof using Type.
  intros Hb Hlen. revert st Hb. induction n as [|n IH]; intros st Hb; simpl.
  - exists false, st, 0%nat. split; [done|]. split; [done|].
    split; [intros k Hk; lia|]. by split.
  - destruct (trial_line w wi st Hb)
      as (b1 & st1 & x & y & d & -> & Hd & Hline & Hdr & Hrange & H1).
    simpl. destruct b1.
    + exists true, st1, 0%nat. split; [done|]. split; [lia|].
      split; [intros k Hk; lia|]. split; [lia|]. split; [lia|].
      exists x, y, d. rewrite Nat.add_0_r. auto.
    + destruct H1 as [Hs1 Hno].
      assert (board_ok size st1) as Hb1.
      { destruct Hs1 as (Hg & Hm & Ho & _). unfold board_ok.
        by rewrite Hg, Hm, Ho. }
      destruct (IH st1 Hb1) as (b & st' & m & -> & Hm & Hbefore & H).
      assert (grid st1 = grid st) as Hg by apply Hs1.
      exists b, st', (S m). split; [done|]. split; [lia|]. split.
      * intros [|k] Hk.
        -- exists x, y, d. rewrite Nat.add_0_r. auto.
        -- destruct (Hbefore k ltac:(lia)) as (x' & y' & d' & Hl' & Hr' & Hn').
           exists x', y', d'. rewrite Hg in Hn'. split; [|done].
           rewrite <- Hl'. f_equal. lia.
      * destruct b.
        -- destruct H as (Hlt & Hdr' & x' & y' & d' & Hd' & Hl' & Hr' & Hc).
           split; [lia|]. split; [lia|].
           exists x', y', d'. split; [done|]. split; [|split; [done|]].
           ++ rewrite <- Hl'. f_equal. lia.
           ++ by eapply commit_same_vars.
        -- destruct H as [-> Hs]. split; [done|].
           destruct Hs1 as (? & ? & ? & ? & ?), Hs as (? & ? & ? & ? & ?).
           repeat split; congruence.
Qed.
End Lines.

Lemma merge_Permutation {A} (l1 l2 l : list A) : merge l1 l2 l → l1 ++ l2 ≡ₚ l.
Proof.
  induction 1 as [|x l1 l2 l _ IH|x l1 l2 l _ IH]; simpl.
  - done.
  - by rewrite IH.
  - by rewrite <- Permutation_middle, IH.
Qed.

Lemma merge_sublist_l {A} (l1 l2 l : list A) : merge l1 l2 l → l1 `sublist_of` l.
Proof. induction 1; by constructor. Qed.

Lemma merge_sublist_r {A} (l1 l2 l : list A) : merge l1 l2 l → l2 `sublist_of` l.
Proof. induction 1; by constructor. Qed.

Lemma placeWords_spec size rng diag ws :
  ∀ wi st, Inv size (dirs diag) st →
    ∃ st' newP newF,
      placeWords size rng (dirs diag) ws wi st = Ok st' ∧
      Inv size (dirs diag) st' ∧
      placements st' = placements st ++ newP ∧
      failed st' = failed st ++ newF ∧
      merge (word <$> newP) newF ws.
Proof.
  induction ws as [|w ws IH]; intros wi st HI; cbn [placeWords].
  - exists st, [], []. rewrite !app_nil_r.
    split; [done|]. split; [done|]. split; [done|]. split; [done|]. constructor.
  - destruct (tryPlace_spec size rng diag w wi attempts st (inv_board _ _ _ HI))
      as (b & st1 & -> & H1).
    simpl. destruct b.
    + destruct H1 as (x & y & d & Hd & Hc).
      assert (Inv size (dirs diag) st1) as HI1.
      { eapply Inv_commit; [exact Hd| |exact HI|exact Hc].
        by destruct (dirs_unit diag d Hd). }
      destruct (IH (wi + 1) st1 HI1) as (st' & newP & newF & -> & HI' & Hp & Hf & Hm).
      exists st', ({| word := w; cells := line x y (dx d) (dy d) 0 (String.length w) |} :: newP), newF.
      split; [done|]. split; [done|]. split; [|split].
      * rewrite Hp, (c_placements _ _ _ _ _ _ _ _ Hc), <- app_assoc. done.
      * by rewrite Hf, (c_failed _ _ _ _ _ _ _ _ Hc).
      * simpl. by constructor.
    + destruct H1 as (Hg & Hm & Ho & Hp & Hf).
      assert (Inv size (dirs diag) (push_failed st1 w)) as HI1
        by (by eapply Inv_ext; [..|exact HI]).
      destruct (IH (wi + 1) _ HI1) as (st' & newP & newF & -> & HI' & Hp' & Hf' & Hmg).
      exists st', newP, (w :: newF).
      split; [done|]. split; [done|]. split; [|split].
      * rewrite Hp'. simpl. by rewrite Hp.
      * rewrite Hf'. simpl. by rewrite Hf, <- app_assoc.
      * by constructor.
Qed.

(** ** The backfill *)

Lemma filled_refl rng size st : dims size (grid st) → filled rng size [] st st.
Proof.
  intros Hg. split; try done. intros p Hp. split; [by left|].
  intros H. by apply elem_of_nil in H.
Qed.

Lemma filled_trans rng size l1 l2 st1 st2 st3 :
  filled rng size l1 st1 st2 → filled rng size l2 st2 st3 →
  filled rng size (l1 ++ l2) st1 st3.
Proof.
  intros [Hg1 Hm1 Hp1 Hf1 Hk1 Hb1] [Hg2 Hm2 Hp2 Hf2 Hk2 Hb2].
  split; try congruence.
  - auto.
  - intros p Hp. destruct (Hb1 p Hp) as [[Hnone | (a & Ha & Hpa)] Hin1].
    + destruct (Hb2 p Hnone) as [Hor Hin2]. split; [done|].
      intros [H1 | H2]%elem_of_app; [|auto].
      destruct (Hin1 H1) as (a & _ & Hpa). congruence.
    + assert (∃ a, random_letter rng a ∧ cell_at (grid st3) p = Some (Some a))
        by (exists a; auto).
      split; [by right|done].
Qed.

Lemma alphabet_nonempty : alphabet ≠ [].
Proof. discriminate. Qed.

Lemma elem_of_seqZ_0 n i : i ∈ seqZ 0 n ↔ 0 ≤ i < n.
Proof.
  rewrite list_elem_of_lookup. setoid_rewrite lookup_seqZ. split.
  - intros (k & -> & Hk). lia.
  - intros Hi. exists (Z.to_nat i). lia.
Qed.

Section Backfill.
Variable size : Z.
Variable rng : nat → draw.

Lemma fillCell_spec x y st :
  dims size (grid st) → in_grid size (x, y) →
  ∃ st', fillCell rng x y st = Ok st' ∧ filled rng size [(x, y)] st st'.
Proof using Type.
  intros Hg Hin. unfold fillCell.
  destruct (in_grid_cell_at _ _ _ Hg Hin) as [v Hv].
  rewrite (mread_cell_at _ _ _ _ Hv). simpl.
  destruct v as [e|].
  - exists st. split; [done|]. split; try done.
    intros p Hp. split; [by left|].
    intros ->%list_elem_of_singleton. congruence.
  - unfold random.
    destruct (choice_Some alphabet (rng (drawn st)) alphabet_nonempty)
      as (c & Hc & _).
    rewrite Hc.
    destruct (mwrite_Ok (grid st) x y (Some c) None Hv)
      as (g' & -> & Hg1 & Hg2 & Hg3).
    simpl. eexists. split; [done|].
    split; simpl; try done.
    + auto.
    + intros p a Hp. rewrite Hg2; [done|]. intros ->. congruence.
    + intros p Hp.
      assert (p = (x, y) →
        ∃ a, random_letter rng a ∧ cell_at g' p = Some (Some a)) as Hfill.
      { intros ->. exists c. split; [by exists (drawn st)|done]. }
      split.
      * destruct (decide (p = (x, y))) as [Heq|Hne]; [right; auto|].
        left. by rewrite Hg2.
      * intros Heq%list_elem_of_singleton. auto.
Qed.

Lemma fillRow_spec y xs st :
  dims size (grid st) → (∀ x, x ∈ xs → in_grid size (x, y)) →
  ∃ st', fillRow rng y xs st = Ok st' ∧
    filled rng size ((λ x, (x, y)) <$> xs) st st'.
Proof using Type.
  revert st. induction xs as [|x xs IH]; intros st Hg Hin; simpl.
  - exists st. split; [done|]. by apply filled_refl.
  - destruct (fillCell_spec x y st Hg) as (st1 & -> & H1).
    { apply Hin. by left. }
    simpl. destruct (IH st1) as (st' & -> & H2).
    { apply H1. } { intros x' Hx'. apply Hin. by right. }
    exists st'. split; [done|].
    apply (filled_trans _ _ [(x, y)] _ _ _ _ H1 H2).
Qed.

Lemma fillRows_spec ys st :
  dims size (grid st) → (∀ y, y ∈ ys → 0 ≤ y < size) →
  ∃ st', fillRows size rng ys st = Ok st' ∧
    filled rng size (y ← ys; (λ x, (x, y)) <$> seqZ 0 size) st st'.
Proof using Type.
  revert st. induction ys as [|y ys IH]; intros st Hg Hin; simpl.
  - exists st. split; [done|]. by apply filled_refl.
  - destruct (fillRow_spec y (seqZ 0 size) st Hg) as (st1 & -> & H1).
    { intros x Hx%elem_of_seqZ_0.
      split; simpl; [lia|]. apply Hin. by left. }
    simpl. destruct (IH st1) as (st' & -> & H2).
    { apply H1. } { intros y' Hy'. apply Hin. by right. }
    exists st'. split; [done|].
    apply (filled_trans _ _ _ _ _ _ _ H1 H2).
Qed.

Lemma elem_of_all_cells p : p ∈ all_cells size ↔ in_grid size p.
Proof using Type.
  unfold all_cells, in_grid. rewrite list_elem_of_bind. split.
  - intros (y & (x & -> & Hx)%list_elem_of_fmap & Hy).
    apply elem_of_seqZ_0 in Hx, Hy. simpl. lia.
  - intros [Hx Hy]. exists p.2. rewrite list_elem_of_fmap, elem_of_seqZ_0.
    split; [|done]. exists p.1. rewrite elem_of_seqZ_0.
    split; [by destruct p|done].
Qed.

Lemma fillBlanks_spec st :
  dims size (grid st) →
  ∃ st', fillBlanks size rng st = Ok st' ∧
    filled rng size (all_cells size) st st'.
Proof using Type.
  intros Hg. apply fillRows_spec; [done|].
  intros y Hy. by apply elem_of_seqZ_0.
Qed.
End Backfill.

(** ** The sort *)

Lemma sort_insert_Permutation {A} (cmp : A → A → Z) x l :
  sort_insert cmp x l ≡ₚ x :: l.
Proof.
  induction l as [|y l IH]; simpl; [done|].
  case_bool_decide; [done|]. by rewrite IH, Permutation_swap.
Qed.

Lemma js_sort_Permutation {A} (cmp : A → A → Z) l : js_sort cmp l ≡ₚ l.
Proof.
  induction l as [|x l IH]; simpl; [done|].
  by rewrite sort_insert_Permutation, IH.
Qed.

Lemma sort_insert_sorted x l :
  StronglySorted longer_eq l →
  StronglySorted longer_eq (sort_insert by_length_desc x l).
Proof.
  induction 1 as [|y l Hl IH Hy]; simpl.
  - repeat constructor.
  - unfold by_length_desc at 1. case_bool_decide as Hc.
    + constructor; [by constructor|].
      constructor; [unfold longer_eq; lia|].
      eapply Forall_impl; [exact Hy|]. unfold longer_eq. intros z. lia.
    + constructor; [done|].
      rewrite sort_insert_Permutation. constructor; [|done].
      unfold longer_eq. lia.
Qed.

Lemma js_sort_sorted l : StronglySorted longer_eq (js_sort by_length_desc l).
Proof.
  induction l as [|x l IH]; simpl; [constructor|by apply sort_insert_sorted].
Qed.

(** Stability: among the words of one length the order is the one of
    the input. *)
Lemma sort_insert_stable n x l :
  filter (λ w, String.length w = n) (sort_insert by_length_desc x l)
  = filter (λ w, String.length w = n) (x :: l).
Proof.
  induction l as [|y l IH]; simpl; [done|].
  unfold by_length_desc at 1. case_bool_decide as Hc; [done|].
  rewrite filter_cons, IH, !filter_cons.
  repeat case_decide; try done. lia.
Qed.

Lemma js_sort_stable n l :
  filter (λ w, String.length w = n) (js_sort by_length_desc l)
  = filter (λ w, String.length w = n) l.
Proof.
  induction l as [|x l IH]; simpl; [done|].
  by rewrite sort_insert_stable, !filter_cons, IH.
Qed.

Lemma sublist_StronglySorted {A} (R : A → A → Prop) l1 l2 :
  l1 `sublist_of` l2 → StronglySorted R l2 → StronglySorted R l1.
Proof.
  induction 1 as [|x l1 l2 Hs IH|x l1 l2 Hs IH];
    rewrite ?StronglySorted_cons; [done|..].
  - intros [Hx Hl]. split; [|auto].
    rewrite Forall_forall in *. intros z Hz. apply Hx.
    by eapply sublist_subseteq.
  - intros [_ Hl]. auto.
Qed.

Lemma sublist_filter_mono {A} (P : A → Prop) `{!∀ x, Decision (P x)} l1 l2 :
  l1 `sublist_of` l2 → filter P l1 `sublist_of` filter P l2.
Proof.
  induction 1 as [|x l1 l2 Hs IH|x l1 l2 Hs IH]; rewrite ?filter_cons.
  - done.
  - case_decide; [by constructor|done].
  - case_decide; [by constructor|done].
Qed.

(** ** The whole run *)

Lemma generateWordsearch_unfold rng h words ws size diag :
  h !! words = Some ws →
  generateWordsearch rng h words size diag =
    st ← placeWords size rng (dirs diag) (js_sort by_length_desc ws) 0 (init size);
    st' ← fillBlanks size rng st;
    Ok (result_of st', <[fresh (dom h) := js_sort by_length_desc ws]> h).
Proof.
  intros Hw. unfold generateWordsearch, spread. rewrite Hw. simpl.
  unfold sort_in_place. rewrite lookup_insert_eq. simpl.
  unfold read_array. rewrite lookup_insert_eq. simpl.
  by rewrite insert_insert_eq.
Qed.

(** Every run ends, without any fault; [st] is the state when the loop
    over the words ends and [st'] the one after the backfill. *)
Lemma generateWordsearch_run rng h words ws size diag :
  h !! words = Some ws →
  ∃ st st',
    generateWordsearch rng h words size diag
      = Ok (result_of st', <[fresh (dom h) := js_sort by_length_desc ws]> h) ∧
    Inv size (dirs diag) st ∧
    merge (word <$> placements st) (failed st) (js_sort by_length_desc ws) ∧
    filled rng size (all_cells size) st st'.
Proof.
  intros Hw. rewrite (generateWordsearch_unfold _ _ _ _ _ _ Hw).
  destruct (placeWords_spec size rng diag (js_sort by_length_desc ws) 0
              (init size) (Inv_init size _))
    as (st & newP & newF & -> & HI & Hp & Hf & Hm).
  simpl in Hp, Hf. subst newP newF. simpl.
  destruct (fillBlanks_spec size rng st) as (st' & -> & Hfill).
  { apply HI. }
  simpl. by exists st, st'.
Qed.

Lemma fresh_not_words (h : heap) words ws :
  h !! words = Some ws → fresh (dom h) ≠ words.
Proof.
  intros Hw Heq. apply (is_fresh (dom h)). rewrite Heq.
  apply elem_of_dom. by exists ws.
Qed.

(** Two placements that meet at a cell hold the same letter there. *)
Lemma Inv_shared_letter size ds st P Q i j p :
  Inv size ds st → P ∈ placements st → Q ∈ placements st →
  cells P !! i = Some p → cells Q !! j = Some p →
  ∃ c, letters (word P) !! i = Some c ∧ letters (word Q) !! j = Some c.
Proof.
  intros HI HP HQ Hi Hj.
  assert (∀ R k, R ∈ placements st → cells R !! k = Some p →
            ∃ c, letters (word R) !! k = Some c ∧
                 cell_at (grid st) p = Some (Some c)) as Hone.
  { intros R k HR Hk.
    destruct (inv_spell _ _ _ HI R HR) as (x & y & d & _ & Hcells & Hsp).
    pose proof (lookup_lt_Some _ _ _ Hk) as Hlt.
    rewrite Hcells, length_line in Hlt.
    rewrite Hcells, lookup_line in Hk by done. injection Hk as <-.
    rewrite <- length_letters in Hlt.
    destruct (lookup_lt_is_Some_2 _ _ Hlt) as [c Hc].
    exists c. split; [done|]. rewrite Z.add_0_l. by apply Hsp. }
  destruct (Hone P i HP Hi) as (c & Hc & Hgc).
  destruct (Hone Q j HQ Hj) as (c' & Hc' & Hgc').
  exists c. split; [done|]. congruence.
Qed.

(** No trial changes a letter of the grid. *)
Lemma trial_mono size rng diag w wi st b st' :
  board_ok size st →
  trial size rng (dirs diag) w wi st = Ok (b, st') →
  ∀ p a, cell_at (grid st) p = Some (Some a) →
    cell_at (grid st') p = Some (Some a).
Proof.
  intros Hb Hrun p a Hp.
  destruct (trial_spec size rng diag w wi st Hb)
    as (b' & st'' & x & y & d & Hrun' & _ & _ & H).
  rewrite Hrun in Hrun'. injection Hrun' as <- <-.
  destruct b.
  - by eapply commit_mono.
  - destruct H as [(-> & _) _]. done.
Qed.

(** ** The precondition of the generator *)

Lemma alphabet_upper : Forall is_upper alphabet.
Proof. by apply (bool_decide_unpack _); vm_compute. Qed.

Lemma random_letter_upper rng a : random_letter rng a → is_upper a.
Proof.
  intros [k Hk]. unfold choice, zlookup in Hk. case_bool_decide; [|done].
  apply list_elem_of_lookup_2 in Hk.
  pose proof alphabet_upper as Hup. rewrite Forall_forall in Hup. auto.
Qed.

(** * The claims of the specification *)

(** C1. For every input satisfying the precondition, the words of
    [placements] and [failed] of the result partition the input words:
    every input word occurs exactly once, in one of the two lists and
    not in the other; the run ends with a result. *)
Theorem C1_partition rng h words ws size diag :
  h !! words = Some ws → precondition size ws →
  ∃ res h', generateWordsearch rng h words size diag = Ok (res, h') ∧
    partitions ws res.
Proof.
  intros Hw (_ & Hnd & _).
  destruct (generateWordsearch_run rng h words ws size diag Hw)
    as (st & st' & Hrun & HI & Hm & Hfill).
  eexists _, _. split; [exact Hrun|].
  assert ((word <$> placements st') ++ failed st' ≡ₚ ws) as Hperm.
  { rewrite (f_placements _ _ _ _ _ Hfill), (f_failed _ _ _ _ _ Hfill).
    by rewrite (merge_Permutation _ _ _ Hm), js_sort_Permutation. }
  unfold partitions; simpl.
  assert (NoDup ((word <$> placements st') ++ failed st')) as Hnd'
    by (by rewrite Hperm).
  split; [done|]. split; [done|].
  intros w Hin. rewrite <- Hperm in Hin.
  apply NoDup_app in Hnd' as (_ & Hdisj & _).
  apply elem_of_app in Hin as [Hin|Hin].
  - left. split; [done|]. by apply Hdisj.
  - right. split; [|done]. intros Hin'. by apply (Hdisj w).
Qed.

Lemma C1_partition_witness :
  ∃ res h', generateWordsearch zeros (caller_heap cat_dog) 0%nat 10 false
              = Ok (res, h') ∧ partitions cat_dog res.
Proof.
  apply (C1_partition zeros (caller_heap cat_dog) 0%nat cat_dog 10 false).
  - reflexivity.
  - apply (bool_decide_unpack _). vm_compute. exact I.
Defined.

(** C5. In every result the mask is a [size] by [size] matrix that is
    true at a cell if and only if the cell appears in the coordinate
    list of at least one entry of [placements]. *)
Theorem C5_mask rng h words ws size diag :
  h !! words = Some ws →
  ∃ res h', generateWordsearch rng h words size diag = Ok (res, h') ∧
    dims size (res_mark res) ∧ mask_is_cover res.
Proof.
  intros Hw.
  destruct (generateWordsearch_run rng h words ws size diag Hw)
    as (st & st' & Hrun & HI & Hm & Hfill).
  eexists _, _. split; [exact Hrun|].
  unfold mask_is_cover; simpl.
  rewrite (f_mark _ _ _ _ _ Hfill), (f_placements _ _ _ _ _ Hfill).
  split; [apply HI|]. intros p. apply (inv_mark _ _ _ HI).
Qed.

Lemma C5_mask_witness :
  ∃ res h', generateWordsearch zeros (caller_heap cat_dog) 0%nat 10 false
              = Ok (res, h') ∧
    dims 10 (res_mark res) ∧ mask_is_cover res.
Proof.
  apply (C5_mask zeros (caller_heap cat_dog) 0%nat cat_dog 10 false).
  reflexivity.
Defined.

Lemma trial_keeps rng size diag : trial_keeps_letters size rng diag.
Proof.
  intros st w wi Hb.
  destruct (trial_spec size rng diag w wi st Hb)
    as (b & st' & x & y & d & Hrun & _).
  exists b, st'. split; [done|]. by eapply trial_mono.
Qed.

(** C3. Whenever the coordinate lists of two entries of [placements]
    share a cell, the two words have the same letter at that position;
    and a placement attempt, from any state of the closure, leaves each
    letter already in the grid unchanged (it writes into an occupied
    cell only the letter that the cell holds). *)
Theorem C3_overlap rng h words ws size diag :
  h !! words = Some ws →
  ∃ res h', generateWordsearch rng h words size diag = Ok (res, h') ∧
    no_illegal_overlap res ∧ trial_keeps_letters size rng diag.
Proof.
  intros Hw.
  destruct (generateWordsearch_run rng h words ws size diag Hw)
    as (st & st' & Hrun & HI & Hm & Hfill).
  eexists _, _. split; [exact Hrun|]. split; [|apply trial_keeps].
  unfold no_illegal_overlap; simpl.
  rewrite (f_placements _ _ _ _ _ Hfill).
  intros P Q i j p HP HQ Hi Hj. by eapply Inv_shared_letter.
Qed.

Lemma C3_overlap_witness :
  ∃ res h', generateWordsearch zeros (caller_heap cat_dog) 0%nat 10 false
              = Ok (res, h') ∧
    no_illegal_overlap res ∧ trial_keeps_letters 10 zeros false.
Proof.
  apply (C3_overlap zeros (caller_heap cat_dog) 0%nat cat_dog 10 false).
  reflexivity.
Defined.

(** C9. Every entry of [placements] spells its word in the final grid:
    as many coordinates as letters, on a straight line in one fixed unit
    direction, with the i-th letter at the i-th coordinate; the backfill
    and the later placement attempts leave the letters of the grid as
    they are. *)
Theorem C9_spelled rng h words ws size diag :
  h !! words = Some ws →
  ∃ res h', generateWordsearch rng h words size diag = Ok (res, h') ∧
    (∀ P, P ∈ res_placements res → spells (dirs diag) (res_grid res) P) ∧
    backfill_keeps_letters size rng ∧ trial_keeps_letters size rng diag.
Proof.
  intros Hw.
  destruct (generateWordsearch_run rng h words ws size diag Hw)
    as (st & st' & Hrun & HI & Hm & Hfill).
  eexists _, _. split; [exact Hrun|]. split; [|split].
  - simpl. rewrite (f_placements _ _ _ _ _ Hfill). intros P HP.
    destruct (inv_spell _ _ _ HI P HP) as (x & y & d & Hd & Hcells & Hsp).
    split; [by rewrite Hcells, length_line|].
    exists x, y, d. split; [done|]. split; [by eapply dirs_unit|].
    split.
    + intros i Hi. by rewrite Hcells, lookup_line.
    + intros i c Hc. eexists. split.
      * rewrite Hcells, lookup_line; [done|].
        rewrite <- length_letters. by eapply lookup_lt_Some.
      * rewrite Z.add_0_l. apply (f_keep _ _ _ _ _ Hfill). by apply Hsp.
  - intros st0 Hg. destruct (fillBlanks_spec size rng st0 Hg) as (st1 & Hf & H1).
    exists st1. split; [done|]. apply H1.
  - apply trial_keeps.
Qed.

Lemma C9_spelled_witness :
  ∃ res h', generateWordsearch zeros (caller_heap cat_dog) 0%nat 10 false
              = Ok (res, h') ∧
    (∀ P, P ∈ res_placements res → spells (dirs false) (res_grid res) P) ∧
    backfill_keeps_letters 10 zeros ∧ trial_keeps_letters 10 zeros false.
Proof.
  apply (C9_spelled zeros (caller_heap cat_dog) 0%nat cat_dog 10 false).
  reflexivity.
Defined.

(** C10. [generateWordsearch] leaves the caller's [words] array as it
    was (and every other array of the caller's heap): the sort works on
    a fresh copy.  A word whose trials all fail leaves the grid, the
    mask, the owner map and the placements unchanged. *)
Theorem C10_frame rng h words ws size diag :
  h !! words = Some ws →
  ∃ res h', generateWordsearch rng h words size diag = Ok (res, h') ∧
    h' !! words = Some ws ∧
    (∀ l, is_Some (h !! l) → h' !! l = h !! l) ∧
    failure_changes_nothing size rng diag.
Proof.
  intros Hw.
  destruct (generateWordsearch_run rng h words ws size diag Hw)
    as (st & st' & Hrun & HI & Hm & Hfill).
  eexists _, _. split; [exact Hrun|].
  assert (∀ l, is_Some (h !! l) →
            <[fresh (dom h) := js_sort by_length_desc ws]> h !! l = h !! l)
    as Hframe.
  { intros l [v Hl]. apply lookup_insert_ne. by eapply fresh_not_words. }
  split; [|split].
  - rewrite Hframe; [done|by exists ws].
  - done.
  - intros st0 w wi Hb.
    destruct (tryPlace_spec size rng diag w wi attempts st0 Hb)
      as (b & st1 & Hrun1 & H1).
    exists b, st1. split; [done|]. by intros ->.
Qed.

Lemma C10_frame_witness :
  ∃ res h', generateWordsearch zeros (caller_heap cat_dog) 0%nat 10 false
              = Ok (res, h') ∧
    h' !! 0%nat = Some cat_dog ∧
    (∀ l, is_Some (caller_heap cat_dog !! l) →
          h' !! l = caller_heap cat_dog !! l) ∧
    failure_changes_nothing 10 zeros false.
Proof.
  apply (C10_frame zeros (caller_heap cat_dog) 0%nat cat_dog 10 false).
  reflexivity.
Defined.

(** C6. The words are attempted in the order of the stable sort of the
    input by descending length: a word is never attempted before a
    strictly longer one, and words of one length are attempted in
    their input order.  The words of [placements] and [failed]
    interleave to that order, so in each of the two lists the lengths
    are non-increasing and words of equal length keep their relative
    input order. *)
Theorem C6_order rng h words ws size diag :
  h !! words = Some ws →
  ∃ res h', generateWordsearch rng h words size diag = Ok (res, h') ∧
    attempt_order ws (js_sort by_length_desc ws) res.
Proof.
  intros Hw.
  destruct (generateWordsearch_run rng h words ws size diag Hw)
    as (st & st' & Hrun & HI & Hm & Hfill).
  eexists _, _. split; [exact Hrun|].
  rewrite <- (f_placements _ _ _ _ _ Hfill), <- (f_failed _ _ _ _ _ Hfill) in Hm.
  pose proof (merge_sublist_l _ _ _ Hm) as Hsl.
  pose proof (merge_sublist_r _ _ _ Hm) as Hsr.
  split.
  - apply js_sort_Permutation.
  - apply js_sort_sorted.
  - intros n. apply js_sort_stable.
  - done.
  - eapply sublist_StronglySorted; [exact Hsl|apply js_sort_sorted].
  - eapply sublist_StronglySorted; [exact Hsr|apply js_sort_sorted].
  - intros n. rewrite <- (js_sort_stable n ws). by apply sublist_filter_mono.
  - intros n. rewrite <- (js_sort_stable n ws). by apply sublist_filter_mono.
Qed.

Lemma C6_order_witness :
  ∃ res h', generateWordsearch zeros (caller_heap cat_dog) 0%nat 10 false
              = Ok (res, h') ∧
    attempt_order cat_dog (js_sort by_length_desc cat_dog) res.
Proof.
  apply (C6_order zeros (caller_heap cat_dog) 0%nat cat_dog 10 false).
  reflexivity.
Defined.

(** A word longer than the grid fits on no line of the grid. *)
Lemma too_long_no_fit size g w x y d :
  dims size g → 0 < size → size < Z.of_nat (String.length w) → unit_dir d →
  ¬ fits g (letters w) x y (dx d) (dy d) 0.
Proof.
  intros Hg Hsize Hlen (Hnz & Hdx & Hdy) Hf.
  pose proof (fits_in_grid size g _ x y (dx d) (dy d) 0 0 Hg Hf) as H0.
  pose proof (fits_in_grid size g _ x y (dx d) (dy d) 0
                (String.length w - 1) Hg Hf) as H1.
  rewrite length_letters in H0, H1.
  destruct H0 as [H0x H0y]; [lia|]. destruct H1 as [H1x H1y]; [lia|].
  simpl in *. nia.
Qed.

(** C7. When a word of the input is strictly longer than [size], then
    for every random sequence the run ends with a result and without
    any access outside the arrays; the feasibility check rejects every
    trial of the word, and the word is reported in [failed] (and is in
    no placement). *)
Theorem C7_too_long rng h words ws size diag w :
  h !! words = Some ws → 0 < size → w ∈ ws →
  size < Z.of_nat (String.length w) →
  ∃ res h', generateWordsearch rng h words size diag = Ok (res, h') ∧
    w ∈ res_failed res ∧ (w ∉ (word <$> res_placements res)) ∧
    always_infeasible size diag w.
Proof.
  intros Hw Hsize Hin Hlen.
  destruct (generateWordsearch_run rng h words ws size diag Hw)
    as (st & st' & Hrun & HI & Hm & Hfill).
  eexists _, _. split; [exact Hrun|]. simpl.
  rewrite (f_placements _ _ _ _ _ Hfill), (f_failed _ _ _ _ _ Hfill).
  assert (w ∉ (word <$> placements st)) as Hnot.
  { intros (P & -> & HP)%list_elem_of_fmap.
    destruct (inv_spell _ _ _ HI P HP) as (x & y & d & Hd & _ & Hsp).
    apply (too_long_no_fit size (grid st) (word P) x y d);
      [apply HI|done|done|by eapply dirs_unit|].
    intros k c Hc. left. rewrite Z.add_0_l. by apply Hsp. }
  split; [|split; [done|]].
  - apply merge_Permutation in Hm.
    rewrite <- js_sort_Permutation, <- Hm in Hin.
    by apply elem_of_app in Hin as [Hin|Hin].
  - intros st0 x y d wi Hg Hd. unfold canPlace.
    destruct (canPlace_from_spec size (grid st0) Hg (letters w) x y (dx d) (dy d) 0)
      as (b & -> & Hb).
    destruct b; [|done]. exfalso.
    apply (too_long_no_fit size (grid st0) w x y d); auto.
    + by eapply dirs_unit.
    + by apply Hb.
Qed.

Lemma C7_too_long_witness :
  ∃ res h', generateWordsearch zeros (caller_heap [ten_a]) 0%nat 5 false
              = Ok (res, h') ∧
    ten_a ∈ res_failed res ∧ (ten_a ∉ (word <$> res_placements res)) ∧
    always_infeasible 5 false ten_a.
Proof.
  apply (C7_too_long zeros (caller_heap [ten_a]) 0%nat [ten_a] 5 false ten_a).
  - reflexivity.
  - lia.
  - apply list_elem_of_singleton. reflexivity.
  - simpl. lia.
Defined.

(** C4. For every input satisfying the precondition the result holds
    exactly one uppercase letter of A-Z at every cell of the
    [size] by [size] grid (no cell is left null), and every cell that
    no placement covers holds one letter drawn at random from the
    alphabet. *)
Theorem C4_coverage rng h words ws size diag :
  h !! words = Some ws → precondition size ws →
  ∃ res h', generateWordsearch rng h words size diag = Ok (res, h') ∧
    fully_lettered size res ∧ blanks_backfilled size rng res.
Proof.
  intros Hw (_ & _ & Hup).
  destruct (generateWordsearch_run rng h words ws size diag Hw)
    as (st & st' & Hrun & HI & Hm & Hfill).
  eexists _, _. split; [exact Hrun|].
  unfold fully_lettered, blanks_backfilled; simpl.
  rewrite (f_placements _ _ _ _ _ Hfill).
  assert (∀ p a, cell_at (grid st) p = Some (Some a) → is_upper a) as Hplaced.
  { intros p a Hp.
    destruct (proj1 (inv_grid _ _ _ HI p)) as (P & HP & HpP); [by exists a|].
    destruct (inv_spell _ _ _ HI P HP) as (x & y & d & Hd & Hcells & Hsp).
    rewrite Hcells in HpP. apply elem_of_line in HpP as (k & Hk & ->).
    rewrite <- length_letters in Hk.
    destruct (lookup_lt_is_Some_2 _ _ Hk) as [c Hc].
    rewrite Z.add_0_l, (Hsp k c Hc) in Hp. injection Hp as <-.
    assert (word P ∈ ws) as HPw.
    { apply merge_Permutation in Hm.
      rewrite <- js_sort_Permutation, <- Hm, elem_of_app. left.
      by apply list_elem_of_fmap_2. }
    rewrite Forall_forall in Hup. destruct (Hup _ HPw) as [Hletters _].
    rewrite Forall_forall in Hletters. apply Hletters.
    by eapply list_elem_of_lookup_2. }
  split; [split|].
  - apply Hfill.
  - intros p Hp.
    destruct (in_grid_cell_at _ _ _ (proj1 (inv_board _ _ _ HI)) Hp) as [[a|] Ha].
    + exists a. split; [by apply (f_keep _ _ _ _ _ Hfill)|by eapply Hplaced].
    + destruct (proj2 (f_blank _ _ _ _ _ Hfill p Ha)) as (a & Hr & Hpa).
      { by apply elem_of_all_cells. }
      exists a. split; [done|by eapply random_letter_upper].
  - intros p Hp Hfree.
    destruct (in_grid_cell_at _ _ _ (proj1 (inv_board _ _ _ HI)) Hp) as [[a|] Ha].
    + destruct Hfree. apply (inv_grid _ _ _ HI). by exists a.
    + apply (f_blank _ _ _ _ _ Hfill p Ha). by apply elem_of_all_cells.
Qed.

Lemma C4_coverage_witness :
  ∃ res h', generateWordsearch zeros (caller_heap cat_dog) 0%nat 10 false
              = Ok (res, h') ∧
    fully_lettered 10 res ∧ blanks_backfilled 10 zeros res.
Proof.
  apply (C4_coverage zeros (caller_heap cat_dog) 0%nat cat_dog 10 false).
  - reflexivity.
  - apply (bool_decide_unpack _). vm_compute. exact I.
Defined.

(** ** The spacing of the placements *)

(** Every cell of a placement has an entry that claimed it first. *)
Lemma first_cover (pl : list Placement) j Q q :
  pl !! j = Some Q → q ∈ cells Q →
  ∃ k R, (k ≤ j)%nat ∧ pl !! k = Some R ∧ q ∈ cells R ∧ first_claimed pl k q.
Proof.
  intros HQ Hq.
  set (C := λ k : nat, ∃ R, pl !! k = Some R ∧ q ∈ cells R).
  assert (∀ k, C k ∨ ¬ C k) as Hdec.
  { intros k. unfold C. destruct (pl !! k) as [R|] eqn:HR.
    - destruct (decide (q ∈ cells R)) as [Hin|Hout].
      + left. by exists R.
      + right. intros (R' & [= <-] & Hin). done.
    - right. by intros (R' & [=] & _). }
  destruct (dec_inh_nat_subset_has_unique_least_element C Hdec)
    as (k & [[(R & HR & HqR) Hleast] _]).
  { exists j, Q. done. }
  exists k, R. split; [|split; [done|split; [done|]]].
  - apply Hleast. by exists Q.
  - intros i P Hi HP HqP.
    assert (k ≤ i)%nat; [|lia]. apply Hleast. by exists P.
Qed.

(** C2, as stated, fails: with the words AB, ABCD, CD on a grid of
    size 4, AB and CD are laid over the letters of ABCD and touch. *)
Lemma C2_counterexample :
  precondition 4 touching_words ∧
  ∃ res h', generateWordsearch touching_draws (caller_heap touching_words)
              0%nat 4 false = Ok (res, h') ∧
    ¬ pairwise_spacing res.
Proof.
  split; [apply (bool_decide_unpack _); vm_compute; exact I|].
  eexists _, _. split; [vm_compute; reflexivity|].
  intros H.
  apply (H 1%nat 2%nat {| word := "AB"; cells := [(0, 0); (1, 0)] |}
           {| word := "CD"; cells := [(2, 0); (3, 0)] |} (1, 0) (2, 0));
    first [reflexivity | apply (bool_decide_unpack _); vm_compute; exact I].
Qed.

(** C2, amended. For two entries [P] and [Q] of [placements], a cell
    of [Q] that [Q] has claimed first (a cell of no entry before [Q])
    touches, by a side or a corner, no cell of [P] outside [Q].  Only a
    pair of cells that were both laid over the letters of earlier
    entries is exempt, since the overlap branch of [canPlace] skips the
    spacing rule; and even then the two cells lie in one entry: two
    cells of the placements that touch always belong to a common
    entry. *)
Theorem C2_spacing rng h words ws size diag :
  h !! words = Some ws →
  ∃ res h', generateWordsearch rng h words size diag = Ok (res, h') ∧
    spacing res.
Proof.
  intros Hw.
  destruct (generateWordsearch_run rng h words ws size diag Hw)
    as (st & st' & Hrun & HI & Hm & Hfill).
  eexists _, _. split; [exact Hrun|].
  unfold spacing; simpl. rewrite (f_placements _ _ _ _ _ Hfill).
  assert (∀ i j P Q p q,
    placements st !! i = Some P → placements st !! j = Some Q →
    p ∈ cells P → q ∈ cells Q → first_claimed (placements st) j q →
    adjacent8 p q → p ∈ cells Q) as Htouch.
  { intros i j P Q p q HP HQ Hp Hq Hfirst Hadj.
    apply (inv_space _ _ _ HI j Q q HQ Hq Hfirst p Hadj).
    apply (inv_grid _ _ _ HI). exists P.
    split; [by eapply list_elem_of_lookup_2|done]. }
  split.
  - intros i j P Q p q HP HQ Hp HpQ Hq Hfirst Hadj.
    apply HpQ. by apply (Htouch i j P Q p q).
  - intros i j P Q p q HP HQ Hp Hq Hadj.
    destruct (first_cover _ j Q q HQ Hq) as (k & R & Hk & HR & HqR & Hfirst).
    exists k, R. split; [done|]. split; [done|]. split; [done|].
    split; [|done]. by apply (Htouch i k P R p q).
Qed.

Lemma C2_spacing_witness :
  ∃ res h', generateWordsearch spaced_draws (caller_heap spaced_words)
              0%nat 4 false = Ok (res, h') ∧ spacing res.
Proof.
  apply (C2_spacing spaced_draws (caller_heap spaced_words) 0%nat
           spaced_words 4 false).
  reflexivity.
Defined.

(** ** Scenario A: CAT and DOG on a grid of size 10 *)

(** On a grid without letters the first trial of a word that is no
    longer than the grid succeeds. *)
Lemma tryPlace_empty size rng diag w wi n st :
  board_ok size st → (∀ p, ¬ occupied (grid st) p) →
  Z.of_nat (String.length w) ≤ size → (0 < n)%nat →
  ∃ st' x y d, tryPlace size rng n (dirs diag) w wi st = Ok (true, st') ∧
    d ∈ dirs diag ∧ commit size st st' w x y (dx d) (dy d).
Proof.
  intros Hb Hempty Hlen Hn. destruct n as [|n]; [lia|]. simpl.
  destruct (trial_spec size rng diag w wi st Hb)
    as (b & st' & x & y & d & -> & Hd & Hrange & H).
  simpl. destruct b; [by exists st', x, y, d|].
  destruct H as [_ []]. intros k c Hc. right.
  assert (k < String.length w)%nat as Hk.
  { rewrite <- length_letters. by eapply lookup_lt_Some. }
  rewrite Z.add_0_l. split; [|by intros p _].
  destruct (in_grid_cell_at _ _ _ (proj1 Hb) (Hrange Hlen k Hk)) as [[a|] Ha];
    [|done].
  destruct (Hempty (pos x y (dx d) (dy d) (Z.of_nat k))). by exists a.
Qed.

Lemma NoDup_all_cells size : NoDup (all_cells size).
Proof.
  unfold all_cells. apply NoDup_bind.
  - intros y1 y2 p _ _ (x1 & -> & _)%list_elem_of_fmap (x2 & Heq & _)%list_elem_of_fmap.
    congruence.
  - intros y _. apply NoDup_fmap_2; [|apply NoDup_seqZ].
    intros x1 x2. congruence.
  - apply NoDup_seqZ.
Qed.

(** The mask of a matrix that is true exactly at the distinct cells [l]
    counts [length l]. *)
Lemma mask_count_cover size m l :
  dims size m → NoDup l → (∀ p, cell_at m p = Some true ↔ p ∈ l) →
  mask_count size m = length l.
Proof.
  intros Hm Hnd Hl. unfold mask_count. apply Permutation_length.
  apply NoDup_Permutation; [|done|].
  - apply NoDup_filter, NoDup_all_cells.
  - intros p. rewrite list_elem_of_filter, elem_of_all_cells, <- Hl.
    split; [tauto|]. intros Hp. split; [done|]. by eapply cell_at_in_grid.
Qed.

Lemma filled_populated rng size st st' :
  dims size (grid st) → filled rng size (all_cells size) st st' →
  populated size (result_of st').
Proof.
  intros Hg Hfill p Hp. simpl.
  destruct (in_grid_cell_at _ _ _ Hg Hp) as [[a|] Ha].
  - exists a. by apply (f_keep _ _ _ _ _ Hfill).
  - destruct (proj2 (f_blank _ _ _ _ _ Hfill p Ha)) as (a & _ & Hpa).
    { by apply elem_of_all_cells. }
    by exists a.
Qed.

Lemma generateWordsearch_populated rng h words ws size diag :
  h !! words = Some ws →
  ∃ res h', generateWordsearch rng h words size diag = Ok (res, h') ∧
    populated size res.
Proof.
  intros Hw.
  destruct (generateWordsearch_run rng h words ws size diag Hw)
    as (st & st' & Hrun & HI & Hm & Hfill).
  eexists _, _. split; [exact Hrun|].
  eapply filled_populated; [apply HI|exact Hfill].
Qed.

(** C8, as stated, fails: when every draw is 0, CAT is laid at the
    origin and each of the 2000 trials of DOG starts at the origin too,
    on the letter C; DOG is reported in [failed]. *)
Lemma C8_counterexample : ¬ scenario_A zeros.
Proof.
  intros (res & h' & Hrun & _ & _ & Hfailed & _).
  vm_compute in Hrun. injection Hrun as <- _. discriminate Hfailed.
Qed.

Lemma covered_singleton P p : covered [P] p ↔ p ∈ cells P.
Proof.
  unfold covered. split.
  - by intros (P' & ->%list_elem_of_singleton & Hp).
  - intros Hp. exists P. by rewrite list_elem_of_singleton.
Qed.

Lemma covered_pair P Q p : covered [P; Q] p ↔ p ∈ cells P ++ cells Q.
Proof.
  unfold covered. rewrite elem_of_app. split.
  - intros (P' & [-> | ->%list_elem_of_singleton]%elem_of_cons & Hp); auto.
  - intros [Hp|Hp]; [exists P|exists Q]; split; try done;
      rewrite !elem_of_cons; auto.
Qed.

Lemma cat_dog_no_common_letter i j c :
  letters "CAT" !! i = Some c → letters "DOG" !! j = Some c → False.
Proof.
  unfold letters.
  destruct i as [|[|[|i]]], j as [|[|[|j]]]; simpl; intros; simplify_eq.
Qed.

(** On a grid without letters every line inside the grid is feasible. *)
Lemma fits_blank size g w x y dx dy :
  dims size g → (∀ p, ¬ occupied g p) →
  (∀ k, (k < length w)%nat → in_grid size (pos x y dx dy (Z.of_nat k))) →
  fits g w x y dx dy 0.
Proof.
  intros Hg Hempty Hrange k c Hc. right.
  rewrite Z.add_0_l. split; [|by intros p _].
  destruct (in_grid_cell_at _ _ _ Hg (Hrange k (lookup_lt_Some _ _ _ Hc)))
    as [[a|] Ha]; [|done].
  destruct (Hempty (pos x y dx dy (Z.of_nat k))). by exists a.
Qed.

(** A word that has no letter in common with the words placed so far
    fits on a line inside the grid exactly when the line neither meets
    nor touches a placement. *)
Lemma fits_clear size ds st w x y dx dy :
  Inv size ds st →
  (∀ k, (k < String.length w)%nat →
     in_grid size (pos x y dx dy (Z.of_nat k))) →
  (∀ k j c P, letters w !! k = Some c → P ∈ placements st →
     letters (word P) !! j = Some c → False) →
  fits (grid st) (letters w) x y dx dy 0 ↔
  ∀ p, p ∈ line x y dx dy 0 (String.length w) →
    ¬ covered (placements st) p ∧
    ∀ n, adjacent8 n p → ¬ covered (placements st) n.
Proof.
  intros HI Hrange Hno.
  assert (∀ k c, letters w !! k = Some c →
            ∀ p, cell_at (grid st) p ≠ Some (Some c)) as Hletter.
  { intros k c Hc p Hp.
    destruct (proj1 (inv_grid _ _ _ HI p)) as (P & HP & Hin); [by exists c|].
    apply list_elem_of_lookup_1 in Hin as [j Hj].
    destruct (inv_spell _ _ _ HI P HP) as (x' & y' & d' & _ & Hcells & Hsp).
    pose proof (lookup_lt_Some _ _ _ Hj) as Hlt.
    rewrite Hcells, length_line in Hlt.
    rewrite Hcells, lookup_line in Hj by done. injection Hj as <-.
    rewrite <- length_letters in Hlt.
    destruct (lookup_lt_is_Some_2 _ _ Hlt) as [c' Hc'].
    pose proof (Hsp j c' Hc') as Hg. rewrite Z.add_0_l in Hp.
    rewrite Hg in Hp. injection Hp as ->. by eapply Hno. }
  split.
  - intros Hf p (k & Hk & ->)%elem_of_line.
    rewrite <- length_letters in Hk.
    destruct (lookup_lt_is_Some_2 _ _ Hk) as [c Hc].
    destruct (Hf k c Hc) as [H|[H Hq]]; [by destruct (Hletter k c Hc _ H)|].
    split.
    + rewrite <- (inv_grid _ _ _ HI). intros [a Ha]. congruence.
    + intros n Hn. rewrite <- (inv_grid _ _ _ HI). by apply Hq.
  - intros Hcl k c Hc. right.
    assert (k < String.length w)%nat as Hk.
    { rewrite <- length_letters. by eapply lookup_lt_Some. }
    destruct (Hcl (pos x y dx dy (0 + Z.of_nat k))) as [Hp Hn].
    { apply elem_of_line. by exists k. }
    rewrite <- (inv_grid _ _ _ HI) in Hp. split.
    + rewrite Z.add_0_l.
      destruct (in_grid_cell_at _ _ _ (proj1 (inv_board _ _ _ HI)) (Hrange k Hk))
        as [[a|] Ha]; [|done].
      destruct Hp. exists a. by rewrite Z.add_0_l.
    + intros n Hadj. rewrite (inv_grid _ _ _ HI). by apply Hn.
Qed.

Lemma clear_of_covered P lc l :
  cells P = lc →
  clear_of lc l ↔
  ∀ p, p ∈ l → ¬ covered [P] p ∧ ∀ n, adjacent8 n p → ¬ covered [P] n.
Proof.
  intros <-. unfold clear_of. setoid_rewrite covered_singleton. done.
Qed.

(** C8, amended. For the words CAT and DOG, size 10, no diagonals and
    every random sequence, the run ends with a fully populated grid and
    CAT is placed, on the line of its first trial.  DOG is placed on
    the line of the first of its 2000 trials that neither meets nor
    touches CAT; then [failed] is empty and the mask is true on exactly
    6 cells.  Only when none of the 2000 trials draws such a line is
    DOG reported: [failed] holds DOG alone and the mask is true on
    exactly 3 cells.  The outcome of the specification occurs, for
    instance, for [lucky_draws], and still when the last of the 2000
    trials is the first that is clear of CAT ([last_chance_draws]). *)
Theorem C8_scenario_A rng :
  (∃ res h', generateWordsearch rng (caller_heap cat_dog) 0%nat 10 false
               = Ok (res, h') ∧ scenario_A_outcome rng res) ∧
  scenario_A lucky_draws ∧
  scenario_A last_chance_draws.
Proof.
  split.
  2:{ split.
      - destruct (generateWordsearch_populated lucky_draws (caller_heap cat_dog)
                    0%nat cat_dog 10 false eq_refl) as (res & h' & Hrun & Hpop).
        exists res, h'. split; [exact Hrun|].
        vm_compute in Hrun. injection Hrun as <- _.
        split; [apply (bool_decide_unpack _); vm_compute; exact I|].
        split; [apply (bool_decide_unpack _); vm_compute; exact I|].
        split; [reflexivity|]. split; [exact Hpop|]. by vm_compute.
      - destruct (generateWordsearch_populated last_chance_draws
                    (caller_heap cat_dog) 0%nat cat_dog 10 false eq_refl)
          as (res & h' & Hrun & Hpop).
        eassert (generateWordsearch last_chance_draws (caller_heap cat_dog)
                   0%nat 10 false = Ok _) as Hval by (vm_compute; reflexivity).
        rewrite Hval in Hrun. injection Hrun as <- <-.
        eexists _, _. split; [exact Hval|].
        split; [apply (bool_decide_unpack _); vm_compute; exact I|].
        split; [apply (bool_decide_unpack _); vm_compute; exact I|].
        split; [reflexivity|]. split; [exact Hpop|]. by vm_compute. }
  assert (caller_heap cat_dog !! 0%nat = Some cat_dog) as Hw by reflexivity.
  rewrite (generateWordsearch_unfold _ _ _ _ _ _ Hw).
  change (js_sort by_length_desc cat_dog) with cat_dog.
  (* CAT is placed at its first trial *)
  destruct (tryPlace_line 10 rng false "CAT" 0 attempts (init 10))
    as (b1 & st1 & m1 & Htry1 & _ & Hbefore1 & H1).
  { apply (Inv_init 10 (dirs false)). }
  { simpl. lia. }
  assert (m1 = 0%nat) as ->.
  { destruct m1 as [|m1]; [done|].
    destruct (Hbefore1 0%nat ltac:(lia)) as (x & y & d & _ & Hrange & Hno).
    destruct Hno. apply (fits_blank 10).
    - apply (Inv_init 10 (dirs false)).
    - intros p [a Ha]. by apply cell_at_fresh_matrix in Ha.
    - intros k Hk. apply Hrange. by rewrite <- length_letters. }
  destruct b1; [|by destruct H1 as [[=] _]].
  destruct H1 as (_ & Hdr1 & x & y & d & Hd & Hlc & Hrc & Hc).
  change (drawn (init 10) + 3 * 0)%nat with 0%nat in Hlc.
  change (drawn (init 10) + 3 * (0 + 1))%nat with 3%nat in Hdr1.
  change (String.length "CAT") with 3%nat in *.
  set (lc := line x y (dx d) (dy d) 0 3) in *.
  set (Pcat := {| word := "CAT"; cells := lc |}).
  assert (Inv 10 (dirs false) st1) as HI1.
  { eapply Inv_commit; [exact Hd| |apply Inv_init|exact Hc].
    by destruct (dirs_unit false d Hd). }
  assert (placements st1 = [Pcat]) as Hp1 by apply Hc.
  assert (failed st1 = []) as Hf1 by apply Hc.
  (* the trials of DOG *)
  destruct (tryPlace_line 10 rng false "DOG" (0 + 1) attempts st1)
    as (b2 & st2 & m2 & Htry2 & Hm2 & Hbefore2 & H2).
  { apply HI1. }
  { simpl. lia. }
  change (String.length "DOG") with 3%nat in *.
  rewrite Hdr1 in Hbefore2, H2.
  assert (∀ x' y' d',
    (∀ i, (i < 3)%nat → in_grid 10 (pos x' y' (dx d') (dy d') (Z.of_nat i))) →
    fits (grid st1) (letters "DOG") x' y' (dx d') (dy d') 0 ↔
    clear_of lc (line x' y' (dx d') (dy d') 0 3)) as Hclear.
  { intros x' y' d' Hr.
    rewrite (clear_of_covered Pcat lc _ eq_refl), <- Hp1.
    apply (fits_clear 10 (dirs false) st1 "DOG"); [done|done|].
    intros k j c P Hk HP Hj. rewrite Hp1 in HP.
    apply list_elem_of_singleton in HP as ->.
    by eapply cat_dog_no_common_letter. }
  assert (∀ k, (k < m2)%nat →
            ∃ ld, dog_trial rng k = Some ld ∧ ¬ clear_of lc ld) as Hfailed.
  { intros k Hk. destruct (Hbefore2 k Hk) as (x' & y' & d' & Hl & Hr & Hno).
    eexists. split; [exact Hl|]. by rewrite <- Hclear. }
  set (stw := if b2 then st2 else push_failed st2 "DOG").
  assert (placeWords 10 rng (dirs false) cat_dog 0 (init 10) = Ok stw) as ->.
  { unfold cat_dog. cbn [placeWords]. rewrite Htry1.
    change (tryPlace 10 rng attempts (dirs false) "DOG" (0 + 1) st1 ≫=
              (λ '(placed, st'), Ok (if placed : bool then st'
                                     else push_failed st' "DOG")) = Ok stw).
    by rewrite Htry2. }
  assert (Inv 10 (dirs false) stw ∧
          placements stw = placements st2 ∧
          failed stw = if b2 then failed st2 else failed st2 ++ ["DOG"%string])
    as (HIw & Hpw & Hfw).
  { subst stw. destruct b2.
    - destruct H2 as (_ & _ & x' & y' & d' & Hd' & _ & _ & Hc').
      split; [|done].
      eapply Inv_commit; [exact Hd'| |exact HI1|exact Hc'].
      by destruct (dirs_unit false d' Hd').
    - destruct H2 as [_ (Hg & Hm & Ho & Hp & Hf)].
      split; [|done]. eapply Inv_ext; [..|exact HI1]; done. }
  destruct (fillBlanks_spec 10 rng stw) as (st' & Hfb & Hfill); [apply HIw|].
  exists (result_of st'), (<[fresh (dom (caller_heap cat_dog)) := cat_dog]>
                             (caller_heap cat_dog)).
  split.
  { change (fillBlanks 10 rng stw ≫= (λ st', Ok (result_of st',
      <[fresh (dom (caller_heap cat_dog)) := cat_dog]> (caller_heap cat_dog)))
      = Ok (result_of st', <[fresh (dom (caller_heap cat_dog)) := cat_dog]>
                             (caller_heap cat_dog))).
    by rewrite Hfb. }
  assert (NoDup lc) as Hndcat.
  { apply NoDup_line. by destruct (dirs_unit false d Hd). }
  assert (dims 10 (mark st')) as Hdm.
  { rewrite (f_mark _ _ _ _ _ Hfill). apply HIw. }
  assert (∀ p, cell_at (mark st') p = Some true ↔ covered (placements st2) p)
    as Hmark.
  { intros p. rewrite (f_mark _ _ _ _ _ Hfill), <- Hpw. apply HIw. }
  split.
  { eapply filled_populated; [apply HIw|exact Hfill]. }
  exists lc. split; [exact Hlc|]. simpl.
  rewrite (f_placements _ _ _ _ _ Hfill), (f_failed _ _ _ _ _ Hfill), Hpw, Hfw.
  destruct b2.
  - left. destruct H2 as (Hlt & _ & x' & y' & d' & Hd' & Hld & Hr & Hc').
    set (ld := line x' y' (dx d') (dy d') 0 3) in *.
    assert (clear_of lc ld) as Hcl.
    { apply Hclear; [done|]. apply Hc'. }
    exists m2, ld. split; [exact Hlt|]. split; [exact Hld|].
    split; [exact Hcl|]. split; [exact Hfailed|].
    assert (placements st2 = [Pcat; {| word := "DOG"; cells := ld |}]) as Hp2.
    { rewrite (c_placements _ _ _ _ _ _ _ _ Hc'), Hp1. done. }
    split; [exact Hp2|]. split.
    { by rewrite (c_failed _ _ _ _ _ _ _ _ Hc'). }
    rewrite (mask_count_cover 10 _ (lc ++ ld)); [|done| |].
    + subst lc ld. by rewrite length_app, !length_line.
    + apply NoDup_app. split; [done|]. split.
      * intros p Hp Hp'. by destruct (Hcl p Hp').
      * apply NoDup_line. by destruct (dirs_unit false d' Hd').
    + intros p. rewrite Hmark, Hp2. apply covered_pair.
  - right. destruct H2 as [-> (Hg & Hm & Ho & Hp & Hf)].
    split; [exact Hfailed|].
    rewrite Hp, Hp1, Hf, Hf1. split; [done|]. split; [done|].
    rewrite (mask_count_cover 10 _ lc); [|done|done|].
    + subst lc. by rewrite length_line.
    + intros p. rewrite Hmark, Hp, Hp1. apply covered_singleton.
Qed.

(** * Further properties of the code *)

(** ** The random helpers *)

(** X1. [randInt(n)] lies in [0, n) for a positive [n] and in [n, 0]
    for any other [n]; every integer of [0, n) is the result for some
    draw. *)
Theorem X1_randInt_bounds n :
  (∀ r, 0 < n → 0 ≤ randInt r n < n) ∧
  (∀ r, n ≤ 0 → n ≤ randInt r n ≤ 0) ∧
  (∀ k, 0 ≤ k < n → ∃ r, randInt r n = k).
Proof.
  split; [|split].
  - intros r. apply randInt_range.
  - intros r. apply randInt_nonpos.
  - intros k Hk. exists (Draw (Z.to_N k) (Z.to_pos (n - k))).
    unfold randInt; simpl.
    rewrite Z2N.id, Z2Pos.id by lia.
    replace (k + (n - k)) with n by lia.
    apply Z.div_mul. lia.
Qed.

(** X2. [choice(arr)] on a non-empty array yields an element of the
    array, whatever the draw, and every element is the choice for some
    draw; on the empty array it yields [undefined]. *)
Theorem X2_choice_member {A} (arr : list A) :
  (arr ≠ [] → ∀ r, ∃ v, choice arr r = Some v ∧ v ∈ arr) ∧
  (∀ v, v ∈ arr → ∃ r, choice arr r = Some v) ∧
  (arr = [] → ∀ r, choice arr r = None).
Proof.
  split; [|split].
  - intros Hne r. by apply choice_Some.
  - intros v [i Hi]%list_elem_of_lookup_1.
    pose proof (lookup_lt_Some _ _ _ Hi) as Hlt.
    exists (Draw (N.of_nat i) (Pos.of_nat (length arr - i))).
    unfold choice, randInt, zlookup; simpl.
    rewrite nat_N_Z.
    replace (Z.pos (Pos.of_nat (length arr - i)))
      with (Z.of_nat (length arr) - Z.of_nat i) by lia.
    replace (Z.of_nat i + (Z.of_nat (length arr) - Z.of_nat i))
      with (Z.of_nat (length arr)) by lia.
    rewrite Z.div_mul by lia.
    rewrite bool_decide_eq_true_2 by lia. by rewrite Nat2Z.id.
  - intros -> r. unfold choice, zlookup. case_bool_decide; [|done].
    apply lookup_nil.
Qed.

(** ** The closures on a well-formed board *)

(** X3. On a [size] by [size] grid [hasAdjacentOccupied(xx, yy)] ends
    without reading outside the grid, for every pair of integers, and
    returns true exactly when one of the eight neighbours of the cell
    is a cell of the grid that holds a letter. *)
Theorem X3_hasAdjacentOccupied size g xx yy :
  dims size g →
  ∃ b, hasAdjacentOccupied size g xx yy = Ok b ∧
    (b = true ↔
     ∃ n, adjacent8 n (xx, yy) ∧ in_grid size n ∧ occupied g n).
Proof.
  intros Hg.
  destruct (hasAdjacentOccupied_spec size g Hg xx yy) as (b & Hrun & Hb).
  exists b. split; [done|]. rewrite Hb. split.
  - intros (n & Hadj & Hocc). exists n. split; [done|]. split; [|done].
    by eapply occupied_in_grid.
  - intros (n & Hadj & _ & Hocc). by exists n.
Qed.

Lemma X3_hasAdjacentOccupied_witness :
  ∃ b, hasAdjacentOccupied 3 (blank_board 3) 5 (-1) = Ok b ∧
    (b = true ↔
     ∃ n, adjacent8 n (5, -1) ∧ in_grid 3 n ∧ occupied (blank_board 3) n).
Proof.
  apply (X3_hasAdjacentOccupied 3 (blank_board 3) 5 (-1)).
  split; [reflexivity|]. repeat constructor.
Defined.

(** X4. On a [size] by [size] grid [canPlace] ends without reading
    outside the grid, for every start and every step, and returns true
    exactly when each letter of the word falls on a cell of the grid
    that holds this very letter, or that is empty and has no letter on
    any of its eight neighbours. *)
Theorem X4_canPlace size st w x y dx dy wi :
  dims size (grid st) →
  ∃ b, canPlace size st w x y dx dy wi = Ok b ∧
    (b = true ↔
     ∀ k c, letters w !! k = Some c →
       let p := (x + dx * Z.of_nat k, y + dy * Z.of_nat k) in
       in_grid size p ∧
       (cell_at (grid st) p = Some (Some c) ∨
        (cell_at (grid st) p = Some None ∧
         ∀ n, adjacent8 n p → ¬ occupied (grid st) n))).
Proof.
  intros Hg. unfold canPlace.
  destruct (canPlace_from_spec size (grid st) Hg (letters w) x y dx dy 0)
    as (b & -> & Hb).
  exists b. split; [done|]. rewrite Hb. unfold fits, cell_ok, pos.
  split.
  - intros Hf k c Hc. specialize (Hf k c Hc). rewrite Z.add_0_l in Hf.
    split; [|done].
    destruct Hf as [H|[H _]]; by eapply cell_at_in_grid.
  - intros Hf k c Hc. rewrite Z.add_0_l. by apply (Hf k c Hc).
Qed.

Lemma X4_canPlace_witness :
  ∃ b, canPlace 3 (init 3) "AB" 2 0 1 0 0 = Ok b ∧
    (b = true ↔
     ∀ k c, letters "AB" !! k = Some c →
       let p := (2 + 1 * Z.of_nat k, 0 + 0 * Z.of_nat k) in
       in_grid 3 p ∧
       (cell_at (grid (init 3)) p = Some (Some c) ∨
        (cell_at (grid (init 3)) p = Some None ∧
         ∀ n, adjacent8 n p → ¬ occupied (grid (init 3)) n))).
Proof.
  apply (X4_canPlace 3 (init 3) "AB" 2 0 1 0 0).
  split; [reflexivity|]. repeat constructor.
Defined.

(** X5. After [canPlace] has returned true, [doPlace] with the same
    arguments and a non-zero step ends without writing outside the
    matrices; it writes the letters of the word along the line, sets the
    mask on the line, appends the placement with the cells of the line,
    and leaves every other cell of the grid and of the mask, the list
    [failed] and the random source as they were. *)
Theorem X5_doPlace size st w x y dx dy wi :
  board_ok size st → dx ≠ 0 ∨ dy ≠ 0 →
  canPlace size st w x y dx dy wi = Ok true →
  ∃ st', doPlace st w x y dx dy wi = Ok st' ∧
    commit size st st' w x y dx dy ∧ drawn st' = drawn st.
Proof.
  intros Hb Hd Hcan. unfold canPlace in Hcan.
  destruct (canPlace_from_spec size (grid st) (proj1 Hb) (letters w) x y dx dy 0)
    as (b & Hrun & Hfits).
  rewrite Hcan in Hrun. injection Hrun as <-.
  destruct (doPlace_spec size st w x y dx dy wi Hd Hb) as (st' & Hdo & Hdr & Hc).
  { by apply Hfits. }
  by exists st'.
Qed.

Lemma X5_doPlace_witness :
  ∃ st', doPlace (init 3) "AB" 0 0 1 0 0 = Ok st' ∧
    commit 3 (init 3) st' "AB" 0 0 1 0 ∧ drawn st' = drawn (init 3).
Proof.
  apply (X5_doPlace 3 (init 3) "AB" 0 0 1 0 0).
  - repeat split; repeat constructor.
  - left. lia.
  - reflexivity.
Defined.

(** ** The run as a whole *)

(** The run ends; [st] is the state after the loop over the words and
    [st'] the one after the backfill. *)
Lemma run_equations rng h words ws size diag :
  h !! words = Some ws →
  ∃ st st',
    placeWords size rng (dirs diag) (js_sort by_length_desc ws) 0 (init size)
      = Ok st ∧
    fillBlanks size rng st = Ok st' ∧
    generateWordsearch rng h words size diag
      = Ok (result_of st', <[fresh (dom h) := js_sort by_length_desc ws]> h) ∧
    Inv size (dirs diag) st ∧
    merge (word <$> placements st) (failed st) (js_sort by_length_desc ws) ∧
    filled rng size (all_cells size) st st'.
Proof.
  intros Hw. rewrite (generateWordsearch_unfold _ _ _ _ _ _ Hw).
  destruct (placeWords_spec size rng diag (js_sort by_length_desc ws) 0
              (init size) (Inv_init size _))
    as (st & newP & newF & Hrun & HI & Hp & Hf & Hm).
  simpl in Hp, Hf. subst newP newF.
  destruct (fillBlanks_spec size rng st) as (st' & Hfb & Hfill); [apply HI|].
  exists st, st'. rewrite Hrun. simpl. rewrite Hfb. by simpl.
Qed.

(** X8. The cells of every placement of a result are cells of the
    grid, and no cell occurs twice in one placement. *)
Theorem X8_cells_in_grid rng h words ws size diag :
  h !! words = Some ws →
  ∃ res h', generateWordsearch rng h words size diag = Ok (res, h') ∧
    ∀ P, P ∈ res_placements res →
      Forall (in_grid size) (cells P) ∧ NoDup (cells P).
Proof.
  intros Hw.
  destruct (run_equations rng h words ws size diag Hw)
    as (st & st' & _ & _ & Hrun & HI & _ & Hfill).
  eexists _, _. split; [exact Hrun|]. simpl.
  rewrite (f_placements _ _ _ _ _ Hfill). intros P HP.
  destruct (inv_spell _ _ _ HI P HP) as (x & y & d & Hd & Hcells & Hsp).
  rewrite Hcells. split.
  - apply Forall_forall. intros p (k & Hk & ->)%elem_of_line.
    rewrite <- length_letters in Hk.
    destruct (lookup_lt_is_Some_2 _ _ Hk) as [c Hc].
    rewrite Z.add_0_l.
    eapply cell_at_in_grid; [exact (proj1 (inv_board _ _ _ HI))|by apply Hsp].
  - apply NoDup_line. by destruct (dirs_unit diag d Hd).
Qed.

Lemma X8_cells_in_grid_witness :
  ∃ res h', generateWordsearch zeros (caller_heap cat_dog) 0%nat 10 false
              = Ok (res, h') ∧
    ∀ P, P ∈ res_placements res →
      Forall (in_grid 10) (cells P) ∧ NoDup (cells P).
Proof.
  apply (X8_cells_in_grid zeros (caller_heap cat_dog) 0%nat cat_dog 10 false).
  reflexivity.
Defined.

(** X7. When no word is longer than the grid, the first word of the
    sorted copy, a longest word of the input, is placed, whatever the
    random sequence: its first trial meets the empty grid.  It is the
    first entry of [placements]. *)
Theorem X7_longest_placed rng h words ws size diag :
  h !! words = Some ws → ws ≠ [] →
  Forall (λ w, Z.of_nat (String.length w) ≤ size) ws →
  ∃ res h' P, generateWordsearch rng h words size diag = Ok (res, h') ∧
    res_placements res !! 0%nat = Some P ∧
    js_sort by_length_desc ws !! 0%nat = Some (word P) ∧
    word P ∈ ws ∧
    ∀ w, w ∈ ws → (String.length w ≤ String.length (word P))%nat.
Proof.
  intros Hw Hne Hfit.
  rewrite (generateWordsearch_unfold _ _ _ _ _ _ Hw).
  pose proof (js_sort_Permutation by_length_desc ws) as Hperm.
  pose proof (js_sort_sorted ws) as Hsorted.
  destruct (js_sort by_length_desc ws) as [|w rest] eqn:Hs.
  { apply Permutation_nil_l in Hperm. by destruct Hne. }
  assert (w ∈ ws) as Hin by (rewrite <- Hperm; by left).
  assert (Z.of_nat (String.length w) ≤ size) as Hlen.
  { rewrite Forall_forall in Hfit. by apply Hfit. }
  destruct (tryPlace_empty size rng diag w 0 attempts (init size))
    as (st1 & x & y & d & Htry & Hd & Hc).
  { apply (Inv_init size (dirs diag)). }
  { intros p [a Ha]. by apply cell_at_fresh_matrix in Ha. }
  { done. }
  { unfold attempts. lia. }
  assert (Inv size (dirs diag) st1) as HI1.
  { eapply Inv_commit; [exact Hd| |apply Inv_init|exact Hc].
    by destruct (dirs_unit diag d Hd). }
  destruct (placeWords_spec size rng diag rest (0 + 1) st1 HI1)
    as (st & newP & newF & Hrest & HI & Hp & Hf & Hm).
  assert (placeWords size rng (dirs diag) (w :: rest) 0 (init size) = Ok st) as ->.
  { cbn [placeWords]. rewrite Htry. exact Hrest. }
  destruct (fillBlanks_spec size rng st) as (st' & Hfb & Hfill); [apply HI|].
  simpl. rewrite Hfb. simpl.
  eexists _, _, {| word := w; cells := line x y (dx d) (dy d) 0 (String.length w) |}.
  split; [done|]. simpl.
  rewrite (f_placements _ _ _ _ _ Hfill), Hp, (c_placements _ _ _ _ _ _ _ _ Hc).
  split; [done|]. split; [done|]. split; [done|].
  intros w' Hw'. rewrite <- Hperm in Hw'.
  apply StronglySorted_cons in Hsorted as [Hall _].
  apply elem_of_cons in Hw' as [-> | Hw']; [done|].
  rewrite Forall_forall in Hall. by apply Hall.
Qed.

Lemma X7_longest_placed_witness :
  ∃ res h' P, generateWordsearch zeros (caller_heap touching_words) 0%nat 4 false
                = Ok (res, h') ∧
    res_placements res !! 0%nat = Some P ∧
    js_sort by_length_desc touching_words !! 0%nat = Some (word P) ∧
    word P ∈ touching_words ∧
    ∀ w, w ∈ touching_words → (String.length w ≤ String.length (word P))%nat.
Proof.
  apply (X7_longest_placed zeros (caller_heap touching_words) 0%nat
           touching_words 4 false).
  - reflexivity.
  - discriminate.
  - repeat constructor; simpl; lia.
Defined.

(** X12. On the empty list of words the result has no placement and no
    failed word, the mask is false everywhere, and every cell of the
    grid holds a letter drawn at random. *)
Theorem X12_no_words rng h words size diag :
  h !! words = Some [] →
  ∃ res h', generateWordsearch rng h words size diag = Ok (res, h') ∧
    res_placements res = [] ∧ res_failed res = [] ∧
    res_mark res = fresh_matrix size false ∧
    ∀ p, in_grid size p →
      ∃ a, random_letter rng a ∧ cell_at (res_grid res) p = Some (Some a).
Proof.
  intros Hw. rewrite (generateWordsearch_unfold _ _ _ _ _ _ Hw). simpl.
  destruct (fillBlanks_spec size rng (init size)) as (st' & -> & Hfill).
  { apply dims_fresh_matrix. }
  simpl. eexists _, _. split; [done|]. simpl.
  rewrite (f_placements _ _ _ _ _ Hfill), (f_failed _ _ _ _ _ Hfill),
    (f_mark _ _ _ _ _ Hfill).
  split; [done|]. split; [done|]. split; [done|].
  intros p Hp.
  destruct (in_grid_cell_at size (grid (init size)) p) as [v Hv];
    [apply dims_fresh_matrix|done|].
  pose proof (cell_at_fresh_matrix _ _ _ _ Hv) as ->.
  apply (f_blank _ _ _ _ _ Hfill p Hv). by apply elem_of_all_cells.
Qed.

Lemma X12_no_words_witness :
  ∃ res h', generateWordsearch zeros (caller_heap []) 0%nat 3 true = Ok (res, h') ∧
    res_placements res = [] ∧ res_failed res = [] ∧
    res_mark res = fresh_matrix 3 false ∧
    ∀ p, in_grid 3 p →
      ∃ a, random_letter zeros a ∧ cell_at (res_grid res) p = Some (Some a).
Proof.
  apply (X12_no_words zeros (caller_heap []) 0%nat 3 true). reflexivity.
Defined.

(** ** The calls of the random source *)

Lemma tryPlace_drawn size rng ds w wi n st b st' :
  tryPlace size rng n ds w wi st = Ok (b, st') →
  (drawn st' ≤ drawn st + 3 * n)%nat.
Proof.
  revert st. induction n as [|n IH]; intros st; simpl.
  - intros [= _ <-]. lia.
  - destruct (trial size rng ds w wi st) as [[b1 st1]|] eqn:Ht; [|done].
    apply trial_drawn in Ht. simpl. destruct b1.
    + intros [= _ <-]. lia.
    + intros Hrun%IH. lia.
Qed.

Lemma placeWords_drawn size rng ds ws wi st st' :
  placeWords size rng ds ws wi st = Ok st' →
  (drawn st' ≤ drawn st + 3 * attempts * length ws)%nat.
Proof.
  revert wi st. induction ws as [|w ws IH]; intros wi st; cbn [placeWords].
  - intros [= <-]. lia.
  - destruct (tryPlace size rng attempts ds w wi st) as [[b st1]|] eqn:Ht;
      [|done].
    apply tryPlace_drawn in Ht. intros Hrun. apply IH in Hrun.
    assert (drawn (if b then st1 else push_failed st1 w) = drawn st1) as Heq
      by by destruct b.
    rewrite Heq in Hrun. cbn [length]. rewrite Nat.mul_succ_r. lia.
Qed.

Lemma fillCell_drawn rng x y st st' :
  fillCell rng x y st = Ok st' → (drawn st' ≤ drawn st + 1)%nat.
Proof.
  unfold fillCell. destruct (mread _ _ _) as [[a|]|]; simpl; [| |done].
  - intros [= <-]. lia.
  - unfold random. destruct (choice alphabet _) as [c|]; [|done].
    destruct (mwrite _ _ _ _) as [g|]; [|done]. simpl.
    intros [= <-]. simpl. lia.
Qed.

Lemma fillRow_drawn rng y xs st st' :
  fillRow rng y xs st = Ok st' → (drawn st' ≤ drawn st + length xs)%nat.
Proof.
  revert st. induction xs as [|x xs IH]; intros st; simpl.
  - intros [= <-]. lia.
  - destruct (fillCell rng x y st) as [st1|] eqn:Hc; [|done].
    apply fillCell_drawn in Hc. simpl. intros Hrun%IH. lia.
Qed.

Lemma fillRows_drawn size rng ys st st' :
  fillRows size rng ys st = Ok st' →
  (drawn st' ≤ drawn st + length ys * Z.to_nat size)%nat.
Proof.
  revert st. induction ys as [|y ys IH]; intros st; simpl.
  - intros [= <-]. lia.
  - destruct (fillRow rng y (seqZ 0 size) st) as [st1|] eqn:Hr; [|done].
    apply fillRow_drawn in Hr. rewrite length_seqZ in Hr.
    simpl. intros Hrun%IH. lia.
Qed.

(** X6. A run calls [Math.random] at most 6000 times for each word
    (three draws for each of the 2000 trials) and once for each cell of
    the grid: the retries are bounded. *)
Theorem X6_draws_bounded rng h words ws size diag :
  h !! words = Some ws →
  ∃ st' h', run_state rng size diag ws = Ok st' ∧
    generateWordsearch rng h words size diag = Ok (result_of st', h') ∧
    Z.of_nat (drawn st')
      ≤ 6000 * Z.of_nat (length ws) + Z.max 0 size * Z.max 0 size.
Proof.
  intros Hw.
  destruct (run_equations rng h words ws size diag Hw)
    as (st & st' & Hplace & Hfb & Hrun & _).
  exists st'. eexists. split; [|split; [exact Hrun|]].
  - unfold run_state. rewrite Hplace. exact Hfb.
  - apply placeWords_drawn in Hplace. apply fillRows_drawn in Hfb.
    rewrite length_seqZ in Hfb.
    rewrite (Permutation_length (js_sort_Permutation by_length_desc ws)) in Hplace.
    change (drawn (init size)) with 0%nat in Hplace.
    assert (Z.of_nat (drawn st)
              ≤ 3 * Z.of_nat attempts * Z.of_nat (length ws)) as Hz1 by lia.
    change (Z.of_nat attempts) with 2000 in Hz1.
    assert (Z.of_nat (drawn st')
              ≤ Z.of_nat (drawn st)
                + Z.of_nat (Z.to_nat size) * Z.of_nat (Z.to_nat size)) as Hz2
      by lia.
    replace (Z.of_nat (Z.to_nat size)) with (Z.max 0 size) in Hz2 by lia.
    lia.
Qed.

Lemma X6_draws_bounded_witness :
  ∃ st' h', run_state zeros 10 false cat_dog = Ok st' ∧
    generateWordsearch zeros (caller_heap cat_dog) 0%nat 10 false
      = Ok (result_of st', h') ∧
    Z.of_nat (drawn st')
      ≤ 6000 * Z.of_nat (length cat_dog) + Z.max 0 10 * Z.max 0 10.
Proof.
  apply (X6_draws_bounded zeros (caller_heap cat_dog) 0%nat cat_dog 10 false).
  reflexivity.
Defined.

(** ** Words never cross *)

(** A property of the grid and the placements that every commit keeps
    holds when the loop over the words ends. *)
Lemma placeWords_keeps size rng diag (J : state → Prop) :
  (∀ st st', grid st' = grid st → placements st' = placements st →
     J st → J st') →
  (∀ st st' w x y d, Inv size (dirs diag) st → J st → d ∈ dirs diag →
     commit size st st' w x y (dx d) (dy d) → J st') →
  ∀ ws wi st st', Inv size (dirs diag) st → J st →
    placeWords size rng (dirs diag) ws wi st = Ok st' → J st'.
Proof.
  intros Hext Hcommit. induction ws as [|w ws IH]; intros wi st st' HI HJ;
    cbn [placeWords].
  - by intros [= <-].
  - destruct (tryPlace_spec size rng diag w wi attempts st (inv_board _ _ _ HI))
      as (b & st1 & -> & H1).
    intros Hrun. destruct b.
    + destruct H1 as (x & y & d & Hd & Hc).
      apply (IH (wi + 1) st1 st'); [| |exact Hrun].
      * eapply Inv_commit; [exact Hd| |exact HI|exact Hc].
        by destruct (dirs_unit diag d Hd).
      * by eapply Hcommit.
    + destruct H1 as (Hg & Hm & Ho & Hp & Hf).
      apply (IH (wi + 1) (push_failed st1 w) st'); [| |exact Hrun].
      * by eapply Inv_ext; [..|exact HI].
      * by eapply Hext; [..|exact HJ].
Qed.

(** The cells of a feasible line are all empty or all occupied: an
    empty cell next to an occupied one is rejected by the spacing
    rule. *)
Lemma fits_uniform g w x y dx dy :
  (dx ≠ 0 ∨ dy ≠ 0) → Z.abs dx ≤ 1 → Z.abs dy ≤ 1 →
  fits g w x y dx dy 0 →
  (∀ k, (k < length w)%nat → ¬ occupied g (pos x y dx dy (Z.of_nat k))) ∨
  (∀ k, (k < length w)%nat → occupied g (pos x y dx dy (Z.of_nat k))).
Proof.
  intros Hnz Hdx Hdy Hf.
  assert (∀ k, (k < length w)%nat → occupied g (pos x y dx dy (Z.of_nat k)) ∨
            (¬ occupied g (pos x y dx dy (Z.of_nat k)) ∧
             ∀ n, adjacent8 n (pos x y dx dy (Z.of_nat k)) → ¬ occupied g n))
    as Hcell.
  { intros k Hk. destruct (lookup_lt_is_Some_2 _ _ Hk) as [c Hc].
    specialize (Hf k c Hc). rewrite Z.add_0_l in Hf.
    destruct Hf as [H|[H Hq]]; [left; by exists c|right].
    split; [|done]. intros [a Ha]. congruence. }
  assert (∀ k, adjacent8 (pos x y dx dy (Z.of_nat (S k)))
                 (pos x y dx dy (Z.of_nat k))) as Hadj.
  { intros k. unfold adjacent8, pos. simpl. split; [intros [= ? ?]; nia|nia]. }
  assert (∀ k, (S k < length w)%nat →
            (occupied g (pos x y dx dy (Z.of_nat k)) ↔
             occupied g (pos x y dx dy (Z.of_nat (S k))))) as Hstep.
  { intros k Hk.
    destruct (Hcell k ltac:(lia)) as [H0|[H0 Hq0]],
             (Hcell (S k) Hk) as [H1|[H1 Hq1]]; try tauto.
    - destruct (Hq1 _ (adjacent8_sym _ _ (Hadj k)) H0).
    - destruct (Hq0 _ (Hadj k) H1). }
  assert (∀ k, (k < length w)%nat →
            (occupied g (pos x y dx dy (Z.of_nat k)) ↔
             occupied g (pos x y dx dy 0))) as Hall.
  { induction k as [|k IH]; intros Hk; [done|].
    rewrite <- (Hstep k Hk). apply IH. lia. }
  destruct (decide (occupied g (pos x y dx dy 0))) as [H0|H0].
  - right. intros k Hk. by apply Hall.
  - left. intros k Hk. by rewrite Hall.
Qed.

Lemma base_app pl N j :
  (j < length pl)%nat → base (pl ++ [N]) j ↔ base pl j.
Proof.
  intros Hj. unfold base. split; intros H Q q i P HQ Hq Hi HP.
  - apply (H Q q i P); try done; by rewrite lookup_app_l by lia.
  - rewrite lookup_app_l in HQ, HP by lia. by apply (H Q q i P).
Qed.

Lemma laid_commit size ds st st' w x y d :
  d ∈ ds → unit_dir d →
  Inv size ds st → laid (placements st) →
  commit size st st' w x y (dx d) (dy d) → laid (placements st').
Proof.
  intros Hd (Hnz & Hdx & Hdy) HI Hlaid Hc.
  rewrite (c_placements _ _ _ _ _ _ _ _ Hc).
  set (pl := placements st) in *.
  set (L := line x y (dx d) (dy d) 0 (String.length w)).
  set (N := {| word := w; cells := L |}).
  intros j Hj. rewrite length_app in Hj. simpl in Hj.
  destruct (decide (j < length pl)%nat) as [Hold|Hnew].
  { destruct (Hlaid j Hold) as [Hb|(i & Hi & Hb & Hsub)].
    - left. by apply base_app.
    - right. exists i. split; [done|]. split; [apply base_app; [lia|done]|].
      intros Q B HQ HB. rewrite lookup_app_l in HQ, HB by lia. by apply Hsub. }
  assert (j = length pl) as -> by lia.
  destruct (fits_uniform _ _ _ _ _ _ Hnz Hdx Hdy (c_fits _ _ _ _ _ _ _ _ Hc))
    as [Hfree|Hocc]; rewrite length_letters in *.
  - left. intros Q q i P HQ Hq Hi HP HqP.
    rewrite list_lookup_middle in HQ by done. injection HQ as <-.
    rewrite lookup_app_l in HP by lia.
    apply elem_of_line in Hq as (k & Hk & ->). rewrite Z.add_0_l in HqP.
    apply (Hfree k Hk). apply (inv_grid _ _ _ HI).
    exists P. split; [by eapply list_elem_of_lookup_2|done].
  - destruct (String.length w) as [|n] eqn:Hlen.
    { left. intros Q q i P HQ Hq.
      rewrite list_lookup_middle in HQ by done. injection HQ as <-.
      subst N L. simpl in Hq. rewrite ?Hlen in Hq. by apply elem_of_nil in Hq. }
    (* the first cell belongs to an entry that is base *)
    assert (∃ b B, (b < length pl)%nat ∧ pl !! b = Some B ∧ base pl b ∧
              pos x y (dx d) (dy d) 0 ∈ cells B) as (b & B & Hb & HB & Hbase & H0).
    { destruct (proj1 (inv_grid _ _ _ HI _) (Hocc 0%nat ltac:(lia)))
        as (R & [r HR]%list_elem_of_lookup_1 & HqR).
      pose proof (lookup_lt_Some _ _ _ HR) as Hr. fold pl in HR, Hr.
      destruct (Hlaid r Hr) as [Hbr|(i & Hi & Hbi & Hsub)].
      - by exists r, R.
      - assert (i < length pl)%nat as Hil by lia.
        destruct (lookup_lt_is_Some_2 pl i Hil) as [B HB].
        exists i, B. split; [lia|]. split; [done|]. split; [done|].
        by apply (Hsub R B HR HB). }
    assert (∀ k, (k < S n)%nat → pos x y (dx d) (dy d) (Z.of_nat k) ∈ cells B)
      as Hin.
    { induction k as [|k IH]; intros Hk; [done|].
      apply (inv_space _ _ _ HI b B (pos x y (dx d) (dy d) (Z.of_nat k)) HB).
      - apply IH. lia.
      - intros i P Hi HP HqP.
        apply (Hbase B _ i P HB (IH ltac:(lia)) Hi HP HqP).
      - unfold adjacent8, pos. simpl. split; [intros [= ? ?]; nia|nia].
      - by apply Hocc. }
    right. exists b. split; [done|]. split; [apply base_app; [lia|done]|].
    intros Q B' HQ HB'.
    rewrite list_lookup_middle in HQ by done. injection HQ as <-.
    rewrite lookup_app_l in HB' by lia. rewrite HB in HB'. injection HB' as <-.
    intros q (k & Hk & ->)%elem_of_line. rewrite Z.add_0_l. by apply Hin.
Qed.

Lemma laid_result rng h words ws size diag :
  h !! words = Some ws →
  ∃ st st',
    generateWordsearch rng h words size diag
      = Ok (result_of st', <[fresh (dom h) := js_sort by_length_desc ws]> h) ∧
    Inv size (dirs diag) st ∧
    merge (word <$> placements st) (failed st) (js_sort by_length_desc ws) ∧
    filled rng size (all_cells size) st st' ∧
    laid (placements st).
Proof.
  intros Hw.
  destruct (run_equations rng h words ws size diag Hw)
    as (st & st' & Hplace & Hfb & Hrun & HI & Hm & Hfill).
  exists st, st'. split; [done|]. split; [done|]. split; [done|].
  split; [done|].
  refine (placeWords_keeps size rng diag (λ st, laid (placements st))
            _ _ _ 0 (init size) st (Inv_init size _) _ Hplace).
  - intros st1 st2 _ Hp. by rewrite Hp.
  - intros st1 st2 w x y d HI1 HJ Hd Hc.
    eapply laid_commit; [exact Hd|by eapply dirs_unit|exact HI1|exact HJ|exact Hc].
  - intros j Hj. simpl in Hj. lia.
Qed.

(** X9. Words never cross.  Every entry of [placements] either shares
    no cell with the entries before it, or lies with all its cells
    inside one earlier entry, itself disjoint from the entries before
    it: an overlap is never a crossing of two lines. *)
Theorem X9_no_crossing rng h words ws size diag :
  h !! words = Some ws →
  ∃ res h', generateWordsearch rng h words size diag = Ok (res, h') ∧
    laid (res_placements res).
Proof.
  intros Hw.
  destruct (laid_result rng h words ws size diag Hw)
    as (st & st' & Hrun & _ & _ & Hfill & Hlaid).
  eexists _, _. split; [exact Hrun|]. simpl.
  by rewrite (f_placements _ _ _ _ _ Hfill).
Qed.

Lemma X9_no_crossing_witness :
  ∃ res h', generateWordsearch touching_draws (caller_heap touching_words)
              0%nat 4 false = Ok (res, h') ∧
    laid (res_placements res).
Proof.
  apply (X9_no_crossing touching_draws (caller_heap touching_words) 0%nat
           touching_words 4 false).
  reflexivity.
Defined.

Lemma inside_reads_along size ds st j i Q B :
  (∀ d, d ∈ ds → unit_dir d) → Inv size ds st →
  inside (placements st) j i →
  placements st !! j = Some Q → placements st !! i = Some B →
  reads_along (word Q) (word B).
Proof.
  intros Hunit HI (Hij & _ & Hsub) HQ HB. specialize (Hsub Q B HQ HB).
  destruct (inv_spell _ _ _ HI Q (list_elem_of_lookup_2 _ _ _ HQ))
    as (xq & yq & dq & Hdq & HcQ & HsQ).
  destruct (inv_spell _ _ _ HI B (list_elem_of_lookup_2 _ _ _ HB))
    as (xb & yb & db & Hdb & HcB & HsB).
  destruct (Hunit dq Hdq) as (Hqnz & Hqx & Hqy).
  destruct (Hunit db Hdb) as (Hbnz & Hbx & Hby).
  set (lq := String.length (word Q)) in *.
  set (lb := String.length (word B)) in *.
  assert (∀ k, (k < lq)%nat → ∃ m, (m < lb)%nat ∧
            pos xq yq (dx dq) (dy dq) (Z.of_nat k)
              = pos xb yb (dx db) (dy db) (Z.of_nat m) ∧
            ∀ c, letters (word Q) !! k = Some c →
                 letters (word B) !! m = Some c) as Hcell.
  { intros k Hk.
    assert (pos xq yq (dx dq) (dy dq) (Z.of_nat k) ∈ cells B) as Hin.
    { apply Hsub. rewrite HcQ. apply elem_of_line. exists k.
      by rewrite Z.add_0_l. }
    rewrite HcB in Hin. apply elem_of_line in Hin as (m & Hm & Heq).
    rewrite Z.add_0_l in Heq. exists m. split; [done|]. split; [done|].
    intros c Hc. unfold lb in Hm. rewrite <- length_letters in Hm.
    destruct (lookup_lt_is_Some_2 _ _ Hm) as [c' Hc'].
    pose proof (HsQ k c Hc) as H1. pose proof (HsB m c' Hc') as H2.
    rewrite Heq in H1. congruence. }
  destruct (decide (lq = 0)%nat) as [Hz|Hnz].
  { exists 0, 1. split; [by left|]. intros k c Hc.
    apply lookup_lt_Some in Hc. rewrite length_letters in Hc.
    fold lq in Hc. lia. }
  destruct (Hcell 0%nat ltac:(lia)) as (m0 & Hm0 & Heq0 & _).
  assert (∃ s, (s = 1 ∨ s = -1) ∧
            ((2 ≤ lq)%nat → dx dq = s * dx db ∧ dy dq = s * dy db))
    as (s & Hs & Hdir).
  { destruct (decide (2 ≤ lq)%nat) as [H2|H2];
      [|exists 1; split; [by left|lia]].
    destruct (Hcell 1%nat ltac:(lia)) as (m1 & Hm1 & Heq1 & _).
    exists (Z.of_nat m1 - Z.of_nat m0).
    unfold pos in Heq0, Heq1. injection Heq0 as Hx0 Hy0.
    injection Heq1 as Hx1 Hy1.
    assert (dx dq = (Z.of_nat m1 - Z.of_nat m0) * dx db) as Hex by lia.
    assert (dy dq = (Z.of_nat m1 - Z.of_nat m0) * dy db) as Hey by lia.
    split; [|done]. nia. }
  exists (Z.of_nat m0), s. split; [done|].
  intros k c Hc.
  assert (k < lq)%nat as Hk.
  { apply lookup_lt_Some in Hc. by rewrite length_letters in Hc. }
  destruct (Hcell k Hk) as (m & Hm & Heq & Hlet).
  assert (Z.of_nat m = Z.of_nat m0 + s * Z.of_nat k) as Hmk.
  { apply (pos_inj xb yb (dx db) (dy db)); [done|]. rewrite <- Heq.
    destruct (decide (k = 0)%nat) as [->|Hk0].
    - rewrite Heq0. f_equal. lia.
    - destruct Hdir as [Hex Hey]; [lia|].
      unfold pos in *. injection Heq0 as Hx0 Hy0. f_equal; nia. }
  rewrite <- Hmk. split; [lia|]. rewrite Nat2Z.id. by apply Hlet.
Qed.

(** X10. An entry that lies inside an earlier entry reads along it: its
    letters are consecutive letters of the earlier word, forwards or
    backwards. *)
Theorem X10_overlap_reads_along rng h words ws size diag :
  h !! words = Some ws →
  ∃ res h', generateWordsearch rng h words size diag = Ok (res, h') ∧
    ∀ j i Q B, inside (res_placements res) j i →
      res_placements res !! j = Some Q → res_placements res !! i = Some B →
      reads_along (word Q) (word B).
Proof.
  intros Hw.
  destruct (laid_result rng h words ws size diag Hw)
    as (st & st' & Hrun & HI & _ & Hfill & _).
  eexists _, _. split; [exact Hrun|]. simpl.
  rewrite (f_placements _ _ _ _ _ Hfill).
  intros j i Q B. apply (inside_reads_along size (dirs diag)); [|done].
  apply dirs_unit.
Qed.

Lemma X10_overlap_reads_along_witness :
  ∃ res h', generateWordsearch touching_draws (caller_heap touching_words)
              0%nat 4 false = Ok (res, h') ∧
    ∀ j i Q B, inside (res_placements res) j i →
      res_placements res !! j = Some Q → res_placements res !! i = Some B →
      reads_along (word Q) (word B).
Proof.
  apply (X10_overlap_reads_along touching_draws (caller_heap touching_words)
           0%nat touching_words 4 false).
  reflexivity.
Defined.

Lemma length_bind_cells (pl : list Placement) :
  (∀ P, P ∈ pl → length (cells P) = String.length (word P)) →
  length (pl ≫= cells) = sum_list_with (λ P, String.length (word P)) pl.
Proof.
  induction pl as [|P pl IH]; intros Hlen; csimpl; [done|].
  rewrite length_app, Hlen by (by left).
  rewrite IH; [done|]. intros P' HP'. apply Hlen. by right.
Qed.

(** When no word reads along another, every entry is disjoint from the
    entries before it. *)
Lemma independent_base size ds st ws :
  (∀ d, d ∈ ds → unit_dir d) → Inv size ds st → laid (placements st) →
  NoDup (word <$> placements st) →
  (∀ P, P ∈ placements st → word P ∈ ws) → independent ws →
  ∀ j, (j < length (placements st))%nat → base (placements st) j.
Proof.
  intros Hunit HI Hlaid Hnd Hin Hind j Hj.
  destruct (Hlaid j Hj) as [Hb|(i & Hi)]; [done|].
  destruct (lookup_lt_is_Some_2 _ _ Hj) as [Q HQ].
  destruct (lookup_lt_is_Some_2 (placements st) i) as [B HB];
    [destruct Hi; lia|].
  destruct (Hind (word Q) (word B)).
  - apply Hin. by eapply list_elem_of_lookup_2.
  - apply Hin. by eapply list_elem_of_lookup_2.
  - intros Heq. destruct Hi as [Hij _].
    assert (j = i); [|lia].
    apply (NoDup_lookup _ _ _ (word Q) Hnd); rewrite list_lookup_fmap.
    + by rewrite HQ.
    + by rewrite HB, Heq.
  - by eapply inside_reads_along.
Qed.

Lemma base_apart size ds st :
  Inv size ds st →
  (∀ j, (j < length (placements st))%nat → base (placements st) j) →
  apart (placements st).
Proof.
  intros HI Hbase.
  assert (∀ i j P Q p, i ≠ j → placements st !! i = Some P →
            placements st !! j = Some Q → p ∈ cells P → p ∉ cells Q) as Hdisj.
  { intros i j P Q p Hij HP HQ Hp HpQ.
    destruct (decide (i < j)%nat).
    - apply (Hbase j (lookup_lt_Some _ _ _ HQ) Q p i P); auto.
    - apply (Hbase i (lookup_lt_Some _ _ _ HP) P p j Q); auto. lia. }
  intros i j P Q p q Hij HP HQ Hp Hq. split.
  - intros ->. by apply (Hdisj i j P Q q).
  - intros Hadj. apply (Hdisj i j P Q p Hij HP HQ Hp).
    apply (inv_space _ _ _ HI j Q q HQ Hq) with (n := p); [|done|].
    + intros i' P' Hi' HP'.
      apply (Hbase j (lookup_lt_Some _ _ _ HQ) Q q i' P'); auto.
    + apply (inv_grid _ _ _ HI). exists P.
      split; [by eapply list_elem_of_lookup_2|done].
Qed.

(** X11. When the input words are distinct and none reads along
    another (forwards or backwards), the placements of the result are
    pairwise disjoint and no cell of one touches a cell of another; the
    spacing holds for every pair of entries as the specification words
    it, and the mask is true on as many cells as the placed words have
    letters. *)
Theorem X11_independent_words rng h words ws size diag :
  h !! words = Some ws → NoDup ws → independent ws →
  ∃ res h', generateWordsearch rng h words size diag = Ok (res, h') ∧
    apart (res_placements res) ∧
    pairwise_spacing res ∧
    mask_count size (res_mark res)
      = sum_list_with (λ P, String.length (word P)) (res_placements res).
Proof.
  intros Hw Hnd Hind.
  destruct (laid_result rng h words ws size diag Hw)
    as (st & st' & Hrun & HI & Hm & Hfill & Hlaid).
  eexists _, _. split; [exact Hrun|]. unfold pairwise_spacing. simpl.
  rewrite (f_placements _ _ _ _ _ Hfill), (f_mark _ _ _ _ _ Hfill).
  pose proof (js_sort_Permutation by_length_desc ws) as Hperm.
  assert (NoDup (word <$> placements st)) as Hndp.
  { eapply sublist_NoDup; [|by eapply merge_sublist_l]. by rewrite Hperm. }
  assert (∀ P, P ∈ placements st → word P ∈ ws) as Hin.
  { intros P HP. rewrite <- Hperm.
    eapply sublist_subseteq; [by eapply merge_sublist_l|].
    by apply list_elem_of_fmap_2. }
  pose proof (independent_base size (dirs diag) st ws (dirs_unit diag)
                HI Hlaid Hndp Hin Hind) as Hbase.
  pose proof (base_apart size (dirs diag) st HI Hbase) as Hapart.
  split; [done|]. split.
  - intros i j P Q p q Hij HP HQ Hp _ Hq _.
    by destruct (Hapart i j P Q p q Hij HP HQ Hp Hq).
  - rewrite (mask_count_cover size _ (placements st ≫= cells)).
    + apply length_bind_cells. intros P HP.
      destruct (inv_spell _ _ _ HI P HP) as (x & y & d & _ & -> & _).
      apply length_line.
    + apply HI.
    + apply NoDup_bind.
      * intros P Q p [i HP]%list_elem_of_lookup_1 [j HQ]%list_elem_of_lookup_1
          Hp Hq.
        destruct (decide (i = j)) as [->|Hij]; [congruence|].
        by destruct (Hapart i j P Q p p Hij HP HQ Hp Hq).
      * intros P HP.
        destruct (inv_spell _ _ _ HI P HP) as (x & y & d & Hd & -> & _).
        apply NoDup_line. by destruct (dirs_unit diag d Hd).
      * by eapply NoDup_fmap_1.
    + intros p. rewrite (inv_mark _ _ _ HI), list_elem_of_bind.
      unfold covered.
      split; [intros (P & HP & Hp)|intros (P & Hp & HP)]; by exists P.
Qed.

Lemma cat_dog_independent : independent cat_dog.
Proof.
  assert (∀ u v, letters u !! 0%nat ≠ None →
            (∀ i j c, letters u !! i = Some c → letters v !! j = Some c → False) →
            ¬ reads_along u v) as Hno.
  { intros u v H0 Hdiff (m & s & _ & Hr).
    destruct (letters u !! 0%nat) as [c|] eqn:Hc; [|done].
    destruct (Hr 0%nat c Hc) as [_ Hv]. by eapply Hdiff. }
  intros u v Hu Hv Hne. unfold cat_dog in Hu, Hv.
  rewrite !elem_of_cons, elem_of_nil in Hu, Hv.
  destruct Hu as [-> | [-> | []]], Hv as [-> | [-> | []]]; try done.
  - apply Hno; [done|]. apply cat_dog_no_common_letter.
  - apply Hno; [done|]. intros i j c Hi Hj.
    by eapply cat_dog_no_common_letter.
Qed.

Lemma X11_independent_words_witness :
  ∃ res h', generateWordsearch zeros (caller_heap cat_dog) 0%nat 10 false
              = Ok (res, h') ∧
    apart (res_placements res) ∧
    pairwise_spacing res ∧
    mask_count 10 (res_mark res)
      = sum_list_with (λ P, String.length (word P)) (res_placements res).
Proof.
  apply (X11_independent_words zeros (caller_heap cat_dog) 0%nat cat_dog 10 false).
  - reflexivity.
  - apply (bool_decide_unpack _). vm_compute. exact I.
  - exact cat_dog_independent.
Defined.

(** ** Input collection *)

Lemma letters_of_list l : letters (string_of_list_ascii l) = l.
Proof. apply list_ascii_of_string_of_list_ascii. Qed.

Lemma of_list_letters s : string_of_list_ascii (letters s) = s.
Proof. apply string_of_list_ascii_of_string. Qed.

Lemma letters_inj s1 s2 : letters s1 = letters s2 → s1 = s2.
Proof.
  intros H. by rewrite <- (of_list_letters s1), <- (of_list_letters s2), H.
Qed.

Lemma letters_append s1 s2 :
  letters (String.append s1 s2) = letters s1 ++ letters s2.
Proof. induction s1 as [|a s1 IH]; simpl; [done|]. by rewrite IH. Qed.

(** One pass over the code units: upper-casing and the removal of what
    is not A-Z keep [kept_letters] of each. *)
Lemma kept_letters_spec a :
  ascii_of_N <$> filter (λ u, 65 ≤ u ≤ 90)%N (upper_units a) = kept_letters a.
Proof.
  destruct a as [[] [] [] [] [] [] [] []]; reflexivity.
Qed.

Lemma kept_letters_upper a : Forall is_upper (kept_letters a).
Proof.
  destruct a as [[] [] [] [] [] [] [] []];
    apply (bool_decide_unpack _); vm_compute; exact I.
Qed.

Lemma kept_letters_fix a : is_upper a → kept_letters a = [a].
Proof.
  destruct a as [[] [] [] [] [] [] [] []]; intros Ha; try reflexivity;
    exfalso; revert Ha; apply (bool_decide_eq_false_1 (is_upper _));
    reflexivity.
Qed.

Lemma kept_letters_space a : is_space a → kept_letters a = [].
Proof.
  destruct a as [[] [] [] [] [] [] [] []]; intros Ha; try reflexivity;
    exfalso; revert Ha; apply (bool_decide_eq_false_1 (is_space _));
    reflexivity.
Qed.

Lemma cleanWord_pass w :
  cleanWord (Some w) = string_of_list_ascii (letters w ≫= kept_letters).
Proof.
  unfold cleanWord, keep_A_Z, toUpperCase. simpl. f_equal.
  induction (letters w) as [|a l IH]; csimpl; [done|].
  by rewrite filter_app, fmap_app, kept_letters_spec, IH.
Qed.

Lemma bind_kept_upper l : Forall is_upper (l ≫= kept_letters).
Proof.
  induction l as [|a l IH]; csimpl; [constructor|].
  apply Forall_app. split; [apply kept_letters_upper|done].
Qed.

Lemma bind_kept_fix l : Forall is_upper l → l ≫= kept_letters = l.
Proof.
  induction 1 as [|a l Ha _ IH]; csimpl; [done|].
  by rewrite kept_letters_fix, IH.
Qed.

(** X13. [cleanWord] returns capital letters A-Z only, whatever its
    argument ([undefined] gives the empty string); it is the pass that
    turns each small letter a-z into its capital, keeps each capital,
    turns the sharp s into SS and drops every other code unit. *)
Theorem X13_cleanWord_letters w :
  Forall is_upper (letters (cleanWord w)) ∧
  cleanWord None = EmptyString ∧
  (∀ s, cleanWord (Some s)
        = string_of_list_ascii (letters s ≫= kept_letters)).
Proof.
  split; [|split; [reflexivity|apply cleanWord_pass]].
  destruct w as [s|]; [|constructor].
  rewrite cleanWord_pass, letters_of_list. apply bind_kept_upper.
Qed.

(** X14. The words that [cleanWord] leaves unchanged are exactly the
    words made of the letters A-Z; so cleaning twice is cleaning
    once. *)
Theorem X14_cleanWord_fixpoints s :
  (cleanWord (Some s) = s ↔ Forall is_upper (letters s)) ∧
  cleanWord (Some (cleanWord (Some s))) = cleanWord (Some s).
Proof.
  assert (∀ t, Forall is_upper (letters t) → cleanWord (Some t) = t) as Hfix.
  { intros t Ht. rewrite cleanWord_pass, bind_kept_fix by done.
    apply of_list_letters. }
  split; [split|].
  - intros <-. rewrite cleanWord_pass, letters_of_list. apply bind_kept_upper.
  - apply Hfix.
  - apply Hfix. rewrite cleanWord_pass, letters_of_list. apply bind_kept_upper.
Qed.

Lemma filter_all {A} (P : A → Prop) `{!∀ x, Decision (P x)} (l : list A) :
  Forall P l → filter P l = l.
Proof.
  induction 1 as [|x l Hx _ IH]; [done|].
  by rewrite filter_cons_True, IH.
Qed.

Lemma elem_of_firsts l x : x ∈ firsts l ↔ x ∈ l.
Proof.
  induction l as [|y l IH]; simpl; [done|].
  rewrite !elem_of_cons, list_elem_of_filter, IH.
  destruct (decide (x = y)); tauto.
Qed.

Lemma NoDup_firsts l : NoDup (firsts l).
Proof.
  induction l as [|y l IH]; simpl; constructor.
  - rewrite list_elem_of_filter. by intros [? _].
  - by apply NoDup_filter.
Qed.

Lemma firsts_sublist l : firsts l `sublist_of` l.
Proof.
  induction l as [|y l IH]; simpl; [done|]. constructor.
  etrans; [apply sublist_filter|done].
Qed.

Lemma firsts_NoDup l : NoDup l → firsts l = l.
Proof.
  induction 1 as [|y l Hy _ IH]; simpl; [done|]. rewrite IH. f_equal.
  apply filter_all, Forall_forall. by intros z Hz ->.
Qed.

(** The loop with the set [seen] keeps the first occurrences. *)
Lemma unique_loop_firsts l :
  ∀ (seen : gset string) u, (∀ x, x ∈ seen ↔ x ∈ u) →
    unique_loop l seen u = u ++ filter (λ x, x ∉ u) (firsts l).
Proof.
  induction l as [|w l IH]; intros seen u Hseen; simpl.
  - by rewrite app_nil_r.
  - case_bool_decide as Hw.
    + rewrite IH.
      2:{ intros x. rewrite elem_of_union, elem_of_singleton, elem_of_app,
            list_elem_of_singleton, Hseen. tauto. }
      rewrite filter_cons_True by (by rewrite <- Hseen).
      rewrite <- app_assoc. simpl. do 2 f_equal.
      rewrite list_filter_filter. apply list_filter_iff.
      intros x. rewrite elem_of_app, list_elem_of_singleton. tauto.
    + rewrite (IH seen u Hseen).
      rewrite filter_cons_False by (rewrite <- Hseen; tauto).
      f_equal. rewrite list_filter_filter. apply list_filter_iff.
      intros x. split; [|tauto]. intros Hx. split; [done|].
      intros ->. apply Hx. by apply Hseen.
Qed.

Lemma trim_start_split l :
  ∃ pre, l = pre ++ trim_start l ∧ Forall is_space pre.
Proof.
  induction l as [|a l (pre & Hl & Hpre)]; simpl.
  - by exists [].
  - case_bool_decide as Ha.
    + exists (a :: pre). split; [by rewrite Hl at 1|by constructor].
    + by exists [].
Qed.

(** [trim] removes white space at the two ends, nothing else. *)
Lemma trim_split s :
  ∃ pre suf, letters s = pre ++ letters (trim s) ++ suf ∧
    Forall is_space pre ∧ Forall is_space suf.
Proof.
  unfold trim. rewrite letters_of_list.
  destruct (trim_start_split (letters s)) as (pre & Hl & Hpre).
  destruct (trim_start_split (reverse (trim_start (letters s))))
    as (suf & Hr & Hsuf).
  exists pre, (reverse suf). split; [|split; [done|by apply Forall_reverse]].
  rewrite Hl at 1. f_equal.
  rewrite <- reverse_app, <- Hr. by rewrite reverse_involutive.
Qed.

Lemma bind_kept_spaces l : Forall is_space l → l ≫= kept_letters = [].
Proof.
  induction 1 as [|a l Ha _ IH]; csimpl; [done|].
  by rewrite kept_letters_space, IH.
Qed.

Lemma cleanWord_trim s : cleanWord (Some (trim s)) = cleanWord (Some s).
Proof.
  rewrite !cleanWord_pass. f_equal.
  destruct (trim_split s) as (pre & suf & -> & Hpre & Hsuf).
  rewrite !bind_app, (bind_kept_spaces pre), (bind_kept_spaces suf) by done.
  by rewrite app_nil_r.
Qed.

Lemma upper_not_space a : is_upper a → ¬ is_space a.
Proof.
  intros Ha Hs. pose proof (kept_letters_fix a Ha) as H1.
  by rewrite (kept_letters_space a Hs) in H1.
Qed.

Lemma trim_start_upper l : Forall is_upper l → trim_start l = l.
Proof.
  destruct 1 as [|a l Ha _]; simpl; [done|].
  rewrite bool_decide_eq_false_2; [done|by apply upper_not_space].
Qed.

Lemma trim_upper s : Forall is_upper (letters s) → trim s = s.
Proof.
  intros Hs. unfold trim. rewrite (trim_start_upper _ Hs).
  rewrite trim_start_upper by (by apply Forall_reverse).
  rewrite reverse_involutive. apply of_list_letters.
Qed.

Lemma filter_Boolean_trim (L : list string) :
  filter_Boolean ((λ s, cleanWord (Some s)) <$> filter_Boolean (trim <$> L))
  = filter_Boolean ((λ s, cleanWord (Some s)) <$> L).
Proof.
  unfold filter_Boolean. induction L as [|s L IH]; [done|]. csimpl.
  rewrite (filter_cons _ (cleanWord (Some s))), (filter_cons _ (trim s)).
  destruct (decide (trim s ≠ EmptyString)) as [Hne|Heq].
  - csimpl. rewrite filter_cons, cleanWord_trim, IH. done.
  - apply dec_stable in Heq.
    assert (cleanWord (Some s) = EmptyString) as ->
      by (by rewrite <- cleanWord_trim, Heq).
    rewrite decide_False by (by intros []). done.
Qed.

Lemma getWordsFromForm_firsts value :
  getWordsFromForm value
  = firsts (filter_Boolean ((λ s, cleanWord (Some s)) <$> split_lines value)).
Proof.
  unfold getWordsFromForm. rewrite filter_Boolean_trim.
  rewrite (unique_loop_firsts _ ∅ []) by set_solver. simpl.
  apply filter_all, Forall_forall. intros x _. apply not_elem_of_nil.
Qed.

Lemma cleaned_lines_clean (L : list string) :
  Forall clean (filter_Boolean ((λ s, cleanWord (Some s)) <$> L)).
Proof.
  apply Forall_forall. intros w Hw. unfold filter_Boolean in Hw.
  apply list_elem_of_filter in Hw as [Hne (s & -> & _)%list_elem_of_fmap].
  split; [done|]. rewrite cleanWord_pass, letters_of_list.
  apply bind_kept_upper.
Qed.

(** X15. In [getWordsFromForm] the trimming of the lines and the first
    [filter(Boolean)] change nothing: the result holds the non-empty
    cleaned lines of the text, each once, in the order of their first
    occurrence. *)
Theorem X15_getWordsFromForm_firsts value :
  getWordsFromForm value
    = firsts (filter_Boolean ((λ s, cleanWord (Some s)) <$> split_lines value)) ∧
  getWordsFromForm value
    `sublist_of` (λ s, cleanWord (Some s)) <$> split_lines value ∧
  ∀ w, w ∈ getWordsFromForm value ↔
       w ≠ EmptyString ∧
       ∃ s, s ∈ split_lines value ∧ w = cleanWord (Some s).
Proof.
  rewrite getWordsFromForm_firsts. split; [done|]. split.
  - etrans; [apply firsts_sublist|]. apply sublist_filter.
  - intros w. rewrite elem_of_firsts. unfold filter_Boolean.
    rewrite list_elem_of_filter, list_elem_of_fmap.
    split; intros (Hne & s & H1 & H2); (split; [done|]); by exists s.
Qed.

(** X16. The words that [getWordsFromForm] returns are pairwise
    distinct, none is empty and each is made of the letters A-Z. *)
Theorem X16_getWordsFromForm_clean value :
  NoDup (getWordsFromForm value) ∧ Forall clean (getWordsFromForm value).
Proof.
  rewrite getWordsFromForm_firsts. split; [apply NoDup_firsts|].
  apply Forall_forall. intros w Hw. apply (proj1 (elem_of_firsts _ _)) in Hw.
  pose proof (cleaned_lines_clean (split_lines value)) as Hall.
  rewrite Forall_forall in Hall. by apply Hall.
Qed.

Lemma split_units_plain l rest cur :
  Forall (λ a, a ≠ LF ∧ a ≠ CR) l →
  split_units (l ++ rest) cur = split_units rest (cur ++ l).
Proof.
  intros Hl. revert cur.
  induction Hl as [|a l [H1 H2] _ IH]; intros cur; cbn [split_units app].
  - by rewrite app_nil_r.
  - rewrite (bool_decide_eq_false_2 (a = LF)) by done.
    rewrite (bool_decide_eq_false_2 (a = CR)) by done.
    rewrite IH, <- app_assoc. done.
Qed.

Lemma upper_plain a : is_upper a → a ≠ LF ∧ a ≠ CR.
Proof.
  intros Ha. split; intros ->; revert Ha;
    apply (bool_decide_eq_false_1 (is_upper _)); reflexivity.
Qed.

(** Splitting the lines of joined words gives the words back. *)
Lemma split_join ws :
  ws ≠ [] → Forall (λ w, Forall is_upper (letters w)) ws →
  split_lines (join newline ws) = ws.
Proof.
  intros Hne Hws. unfold split_lines.
  assert (split_units (letters (join newline ws)) [] = letters <$> ws) as ->.
  { induction Hws as [|w ws Hw Hws IH]; [done|].
    assert (Forall (λ a, a ≠ LF ∧ a ≠ CR) (letters w)) as Hplain.
    { eapply Forall_impl; [exact Hw|]. apply upper_plain. }
    destruct ws as [|w' ws].
    - simpl. rewrite <- (app_nil_r (letters w)) at 1.
      by rewrite split_units_plain.
    - change (join newline (w :: w' :: ws))
        with (String.append w (String.append newline (join newline (w' :: ws)))).
      rewrite !letters_append, split_units_plain by done.
      change (letters newline) with [LF]. cbn [app split_units].
      rewrite bool_decide_eq_true_2 by done.
      rewrite IH by done. done. }
  rewrite <- list_fmap_compose. rewrite <- (list_fmap_id ws) at 2.
  apply list_fmap_ext. intros i w _. apply of_list_letters.
Qed.

(** X17. What is typed comes back: for pairwise distinct, non-empty
    words of the letters A-Z, written one per line, [getWordsFromForm]
    returns these words in their order.  So the words it returns, put
    back into the text area one per line, are returned again. *)
Theorem X17_getWordsFromForm_join :
  (∀ ws, NoDup ws → Forall clean ws →
     getWordsFromForm (join newline ws) = ws) ∧
  (∀ value, getWordsFromForm (join newline (getWordsFromForm value))
            = getWordsFromForm value).
Proof.
  assert (∀ ws, NoDup ws → Forall clean ws →
            getWordsFromForm (join newline ws) = ws) as Hback.
  { intros ws Hnd Hclean. rewrite getWordsFromForm_firsts.
    destruct (decide (ws = [])) as [->|Hne]; [reflexivity|].
    rewrite split_join; [|done|].
    2:{ eapply Forall_impl; [exact Hclean|]. by intros w [_ Hw]. }
    assert ((λ s, cleanWord (Some s)) <$> ws = ws) as ->.
    { rewrite <- (list_fmap_id ws) at 2. apply Forall_fmap_ext_1.
      eapply Forall_impl; [exact Hclean|]. intros w [_ Hw]. simpl.
      rewrite cleanWord_pass, bind_kept_fix by done. apply of_list_letters. }
    unfold filter_Boolean. rewrite filter_all.
    - by apply firsts_NoDup.
    - eapply Forall_impl; [exact Hclean|]. by intros w [Hw _]. }
  split; [exact Hback|].
  intros value. apply Hback.
  - rewrite getWordsFromForm_firsts. apply NoDup_firsts.
  - rewrite getWordsFromForm_firsts. apply Forall_forall.
    intros w Hw%(proj1 (elem_of_firsts _ _)).
    pose proof (cleaned_lines_clean (split_lines value)) as Hall.
    rewrite Forall_forall in Hall. by apply Hall.
Qed.

(** ** Validation *)

Lemma find_None {A} (p : A → bool) l :
  find p l = None ↔ Forall (λ x, p x = false) l.
Proof.
  induction l as [|x l IH]; simpl; [by split; [constructor|]|].
  destruct (p x) eqn:Hp.
  - split; [done|]. intros [Hx _]%Forall_cons. congruence.
  - rewrite IH, Forall_cons. tauto.
Qed.

Lemma find_Some {A} (p : A → bool) l x :
  find p l = Some x → p x = true ∧ x ∈ l.
Proof.
  induction l as [|y l IH]; simpl; [done|].
  destruct (p y) eqn:Hp.
  - intros [= <-]. split; [done|by left].
  - intros [Hx Hin]%IH. split; [done|by right].
Qed.

(** On words none of which is empty, [validate] returns [null] exactly
    when the count is right, no word is short and no word compares as
    longer than [size]. *)
Lemma validate_None difficulty words size :
  Forall (λ w, w ≠ EmptyString) words →
  validate difficulty words size = None ↔
  Z.of_nat (length words) = requiredWordCount difficulty ∧
  Forall (λ w, 2 ≤ Z.of_nat (String.length w) ∧
               gt_number (Z.of_nat (String.length w)) size = false) words.
Proof.
  intros Hne. rewrite Forall_forall in Hne.
  assert (∀ w, w ∈ words → truthy w = true) as Htruthy.
  { intros w Hw. unfold truthy. apply bool_decide_eq_true_2. by apply Hne. }
  unfold validate.
  repeat case_bool_decide; [split; [done|lia]..|].
  destruct (find (λ w, gt_number _ size) words) as [tooLong|] eqn:Hlong.
  { apply find_Some in Hlong as [Hp Hin]. rewrite (Htruthy _ Hin).
    split; [done|]. intros [_ Hall]. rewrite Forall_forall in Hall.
    destruct (Hall _ Hin) as [_ Hgt]. congruence. }
  apply find_None in Hlong.
  destruct (find (λ w, bool_decide (_ < 2)%nat) words) as [anyShort|] eqn:Hshort.
  { apply find_Some in Hshort as [Hp Hin]. rewrite (Htruthy _ Hin).
    split; [done|]. intros [_ Hall]. rewrite Forall_forall in Hall.
    apply bool_decide_eq_true in Hp. destruct (Hall _ Hin). lia. }
  apply find_None in Hshort. split; [|done]. intros _. split; [lia|].
  rewrite Forall_forall in *. intros w Hw.
  specialize (Hlong w Hw). specialize (Hshort w Hw). simpl in *.
  apply bool_decide_eq_false in Hshort. split; [lia|done].
Qed.

(** X18. On words none of which is empty, [validate] with an integer
    [size] returns [null] exactly when there are as many words as the
    difficulty requires and each has at least 2 letters and at most
    [size].  When [size] is [NaN] (or the positive infinity) no word
    counts as longer: [validate] returns [null] exactly when the count
    is right and each word has at least 2 letters.  With the negative
    infinity it never returns [null].  A wrong number of words is
    reported before anything else, whatever [size] is. *)
Theorem X18_validate_accepts difficulty words :
  Forall (λ w, w ≠ EmptyString) words →
  (∀ n, validate difficulty words (Finite n) = None ↔
     Z.of_nat (length words) = requiredWordCount difficulty ∧
     Forall (λ w, 2 ≤ Z.of_nat (String.length w) ≤ n) words) ∧
  (∀ size, size = NaN ∨ size = PosInfinity →
     (validate difficulty words size = None ↔
      Z.of_nat (length words) = requiredWordCount difficulty ∧
      Forall (λ w, 2 ≤ Z.of_nat (String.length w)) words)) ∧
  validate difficulty words NegInfinity ≠ None ∧
  (∀ size, Z.of_nat (length words) < requiredWordCount difficulty →
     validate difficulty words size
       = Some (please_enter (requiredWordCount difficulty))) ∧
  (∀ size, requiredWordCount difficulty < Z.of_nat (length words) →
     validate difficulty words size
       = Some (remove_extras (requiredWordCount difficulty))).
Proof.
  intros Hne. split; [|split; [|split; [|split]]].
  - intros n. rewrite (validate_None _ _ _ Hne).
    apply and_iff_compat_l. apply Forall_iff. intros w. simpl.
    rewrite bool_decide_eq_false. lia.
  - intros size Hsize. rewrite (validate_None _ _ _ Hne).
    apply and_iff_compat_l. apply Forall_iff. intros w.
    destruct Hsize as [-> | ->]; simpl; tauto.
  - rewrite (validate_None _ _ _ Hne). intros [Hlen Hall].
    destruct words as [|w words].
    + unfold requiredWordCount in Hlen. simpl in Hlen.
      destruct difficulty as [v|]; [case_bool_decide|]; lia.
    + apply Forall_cons in Hall as [[_ Hw] _]. discriminate Hw.
  - intros size Hlt. unfold validate. by rewrite bool_decide_eq_true_2.
  - intros size Hgt. unfold validate.
    rewrite bool_decide_eq_false_2 by lia.
    by rewrite bool_decide_eq_true_2.
Qed.

Lemma X18_validate_accepts_witness :
  (∀ n, validate None starter_words (Finite n) = None ↔
     Z.of_nat (length starter_words) = requiredWordCount None ∧
     Forall (λ w, 2 ≤ Z.of_nat (String.length w) ≤ n) starter_words) ∧
  (∀ size, size = NaN ∨ size = PosInfinity →
     (validate None starter_words size = None ↔
      Z.of_nat (length starter_words) = requiredWordCount None ∧
      Forall (λ w, 2 ≤ Z.of_nat (String.length w)) starter_words)) ∧
  validate None starter_words NegInfinity ≠ None ∧
  (∀ size, Z.of_nat (length starter_words) < requiredWordCount None →
     validate None starter_words size
       = Some (please_enter (requiredWordCount None))) ∧
  (∀ size, requiredWordCount None < Z.of_nat (length starter_words) →
     validate None starter_words size
       = Some (remove_extras (requiredWordCount None))).
Proof.
  apply (X18_validate_accepts None starter_words).
  apply (bool_decide_unpack _). vm_compute. exact I.
Defined.

(** X19. The empty word slips through [validate]: when the first word
    is empty, the number of words is the required one and no word is
    longer than the grid, [validate] returns [null], however short the
    other words are ([find] returns the empty string, which is falsy);
    it does so too when [size] is [NaN]. *)
Theorem X19_validate_empty_slips difficulty rest size :
  Z.of_nat (length (EmptyString :: rest)) = requiredWordCount difficulty →
  0 ≤ size →
  Forall (λ w, Z.of_nat (String.length w) ≤ size) rest →
  validate difficulty (EmptyString :: rest) (Finite size) = None ∧
  validate difficulty (EmptyString :: rest) NaN = None.
Proof.
  intros Hlen Hsize Hrest. unfold validate.
  rewrite !bool_decide_eq_false_2 by lia.
  assert (find (λ w, gt_number (Z.of_nat (String.length w)) (Finite size))
            (EmptyString :: rest) = None) as ->.
  { apply find_None. constructor.
    - apply bool_decide_eq_false_2. simpl. lia.
    - eapply Forall_impl; [exact Hrest|]. intros w Hw. simpl in *.
      apply bool_decide_eq_false_2. lia. }
  assert (find (λ w, gt_number (Z.of_nat (String.length w)) NaN)
            (EmptyString :: rest) = None) as ->.
  { apply find_None. by apply Forall_forall. }
  split; reflexivity.
Qed.

Lemma X19_validate_empty_slips_witness :
  validate None (EmptyString :: slipping_rest) (Finite 3) = None ∧
  validate None (EmptyString :: slipping_rest) NaN = None.
Proof.
  apply (X19_validate_empty_slips None slipping_rest 3).
  - reflexivity.
  - lia.
  - apply (bool_decide_unpack _). vm_compute. exact I.
Defined.

(** X20. Collection and validation together establish the
    precondition of the generator when the size read from the form is
    an integer: if [validate] accepts, for the integer [size], the
    words that [getWordsFromForm] returns, these words are a non-empty
    sequence (of 10 or 15) of distinct uppercase alphabetic words, each
    of length at least 2 and at most [size].  The integer is needed:
    [validate] accepts the same words when [size] is [NaN]. *)
Theorem X20_validated_precondition difficulty value size :
  validate difficulty (getWordsFromForm value) (Finite size) = None →
  precondition size (getWordsFromForm value) ∧
  (length (getWordsFromForm value) = 10%nat ∨
   length (getWordsFromForm value) = 15%nat) ∧
  validate difficulty (getWordsFromForm value) NaN = None.
Proof.
  intros Hval.
  pose proof (cleaned_lines_clean (split_lines value)) as Hclean.
  rewrite getWordsFromForm_firsts in *.
  set (ws := firsts _) in *.
  assert (Forall clean ws) as Hws.
  { apply Forall_forall. intros w Hw%(proj1 (elem_of_firsts _ _)).
    rewrite Forall_forall in Hclean. by apply Hclean. }
  assert (Forall (λ w, w ≠ EmptyString) ws) as Hne.
  { eapply Forall_impl; [exact Hws|]. by intros w [? _]. }
  apply (validate_None _ _ _ Hne) in Hval as [Hlen Hsizes].
  assert (length ws = 10%nat ∨ length ws = 15%nat) as Hcount.
  { unfold requiredWordCount in Hlen.
    destruct difficulty as [v|]; [case_bool_decide|]; lia. }
  split; [|split; [done|]].
  - split; [|split].
    + intros Heq. rewrite Heq in Hcount. simpl in Hcount. lia.
    + apply NoDup_firsts.
    + rewrite Forall_forall in *. intros w Hw. split.
      * by destruct (Hws w Hw).
      * destruct (Hsizes w Hw) as [H2 Hgt]. simpl in Hgt.
        apply bool_decide_eq_false in Hgt. lia.
  - apply (validate_None _ _ _ Hne). split; [done|].
    eapply Forall_impl; [exact Hsizes|]. by intros w [? _].
Qed.

Lemma X20_validated_precondition_witness :
  precondition 12 (getWordsFromForm (join newline starter_words)) ∧
  (length (getWordsFromForm (join newline starter_words)) = 10%nat ∨
   length (getWordsFromForm (join newline starter_words)) = 15%nat) ∧
  validate None (getWordsFromForm (join newline starter_words)) NaN = None.
Proof.
  apply (X20_validated_precondition None (join newline starter_words) 12).
  reflexivity.
Defined.

(** ** Rendering the grid of a result *)

Lemma render_row_spec result y xs (R : Z * Z → option ascii * bool → Prop) :
  (∀ p, p.2 = y → p.1 ∈ xs → ∃ t m,
     cell_at (res_grid result) p = Some t ∧
     cell_at (res_mark result) p = Some m ∧ R p (t, m)) →
  ∃ cs, render_row result y xs = Ok cs ∧
    Forall2 R ((λ x, (x, y)) <$> xs) cs.
Proof.
  induction xs as [|x xs IH]; intros Hcells; simpl.
  - exists []. by split; [|constructor].
  - destruct (Hcells (x, y) eq_refl) as (t & m & Ht & Hm & HR); [by left|].
    rewrite (mread_cell_at _ _ _ _ Ht), (mread_cell_at _ _ _ _ Hm). simpl.
    destruct IH as (cs & -> & Hcs).
    { intros p Hy Hx. apply Hcells; [done|by right]. }
    simpl. eexists. split; [done|]. by constructor.
Qed.

Lemma render_rows_spec result size ys (R : Z * Z → option ascii * bool → Prop) :
  (∀ p, p.2 ∈ ys → p.1 ∈ seqZ 0 size → ∃ t m,
     cell_at (res_grid result) p = Some t ∧
     cell_at (res_mark result) p = Some m ∧ R p (t, m)) →
  ∃ cs, render_rows result size ys = Ok cs ∧
    Forall2 R (y ← ys; (λ x, (x, y)) <$> seqZ 0 size) cs.
Proof.
  induction ys as [|y ys IH]; intros Hcells; csimpl.
  - exists []. by split; [|constructor].
  - destruct (render_row_spec result y (seqZ 0 size) R) as (row & -> & Hrow).
    { intros p Hy Hx. apply Hcells; [rewrite Hy; by left|done]. }
    simpl. destruct IH as (cs & -> & Hcs).
    { intros p Hy Hx. apply Hcells; [by right|done]. }
    simpl. eexists. split; [done|]. by apply Forall2_app.
Qed.

(** X21. On every result of the generator for a non-negative [size]
    the grid loops of [render] end without reading outside the
    matrices; they append one element for each cell of the grid, row by
    row, each showing the letter of its cell and highlighted exactly
    when the cell belongs to a placement. *)
Theorem X21_render_grid rng h words ws size diag :
  h !! words = Some ws → 0 ≤ size →
  ∃ res h' cs, generateWordsearch rng h words size diag = Ok (res, h') ∧
    render_grid res = Ok cs ∧
    Forall2 (shows res) (all_cells size) cs.
Proof.
  intros Hw Hsize.
  destruct (run_equations rng h words ws size diag Hw)
    as (st & st' & _ & _ & Hrun & HI & _ & Hfill).
  pose proof (filled_populated _ _ _ _ (proj1 (inv_board _ _ _ HI)) Hfill) as Hpop.
  assert (dims size (mark st')) as Hdm.
  { rewrite (f_mark _ _ _ _ _ Hfill). apply HI. }
  assert (Z.of_nat (length (grid st')) = size) as Hlen.
  { destruct (f_grid _ _ _ _ _ Hfill) as [-> _]. lia. }
  destruct (render_rows_spec (result_of st') size (seqZ 0 size)
              (shows (result_of st'))) as (cs & Hcs & Hall).
  { intros p Hy%elem_of_seqZ_0 Hx%elem_of_seqZ_0.
    assert (in_grid size p) as Hp by done.
    destruct (Hpop p Hp) as [a Ha].
    destruct (in_grid_cell_at _ _ _ Hdm Hp) as [m Hm].
    exists (Some a), m. split; [done|]. split; [done|].
    split; [by exists a|]. split; [done|]. simpl.
    rewrite (f_placements _ _ _ _ _ Hfill), <- (inv_mark _ _ _ HI p).
    rewrite <- (f_mark _ _ _ _ _ Hfill), Hm. split; congruence. }
  exists (result_of st'). eexists. exists cs. split; [exact Hrun|].
  split; [|exact Hall].
  unfold render_grid. simpl. by rewrite Hlen.
Qed.

Lemma X21_render_grid_witness :
  ∃ res h' cs, generateWordsearch zeros (caller_heap cat_dog) 0%nat 10 false
                 = Ok (res, h') ∧
    render_grid res = Ok cs ∧
    Forall2 (shows res) (all_cells 10) cs.
Proof.
  apply (X21_render_grid zeros (caller_heap cat_dog) 0%nat cat_dog 10 false).
  - reflexivity.
  - lia.
Defined.


(** ** One trial, and the directions *)



(** X23. Without diagonals every placement lies in one row or in one
    column of the grid. *)
Theorem X23_no_diagonals rng h words ws size :
  h !! words = Some ws →
  ∃ res h', generateWordsearch rng h words size false = Ok (res, h') ∧
    ∀ P, P ∈ res_placements res →
      (∀ p q, p ∈ cells P → q ∈ cells P → p.2 = q.2) ∨
      (∀ p q, p ∈ cells P → q ∈ cells P → p.1 = q.1).
Proof.
  intros Hw.
  destruct (run_equations rng h words ws size false Hw)
    as (st & st' & _ & _ & Hrun & HI & _ & Hfill).
  eexists _, _. split; [exact Hrun|]. simpl.
  rewrite (f_placements _ _ _ _ _ Hfill). intros P HP.
  destruct (inv_spell _ _ _ HI P HP) as (x & y & d & Hd & Hcells & _).
  rewrite Hcells.
  assert (dy d = 0 ∨ dx d = 0) as [H0|H0].
  { unfold dirs, dirs4 in Hd. rewrite !elem_of_cons, elem_of_nil in Hd.
    repeat (destruct Hd as [-> | Hd]); simpl; auto. done. }
  - left. intros p q (k & _ & ->)%elem_of_line (k' & _ & ->)%elem_of_line.
    simpl. rewrite H0. lia.
  - right. intros p q (k & _ & ->)%elem_of_line (k' & _ & ->)%elem_of_line.
    simpl. rewrite H0. lia.
Qed.

Lemma X23_no_diagonals_witness :
  ∃ res h', generateWordsearch zeros (caller_heap cat_dog) 0%nat 10 false
              = Ok (res, h') ∧
    ∀ P, P ∈ res_placements res →
      (∀ p q, p ∈ cells P → q ∈ cells P → p.2 = q.2) ∨
      (∀ p q, p ∈ cells P → q ∈ cells P → p.1 = q.1).
Proof.
  apply (X23_no_diagonals zeros (caller_heap cat_dog) 0%nat cat_dog 10).
  reflexivity.
Defined.
